(** * MOGA spindle optimizer: a shallow embedding of SpindleSimulation.cpp

    The development embeds the NSGA-II style optimizer of
    [SpindleSimulation::optimizeSpindleArrangement] and the operations it
    calls, and proves the properties the design document states about it.

    Modelling conventions.
    - A C++ [double] is an exact rational ([Q]); rounding is not modelled.
      [crowdingDistance] is the one field that holds
      [numeric_limits<double>::infinity()], so it has the type [xdouble]
      (a rational or +infinity).
    - [int] and [size_t] values are [Z] and [nat]; the ranges involved
      (speeds up to 30000, population indices) never wrap.
    - [std::vector] is [list]; [v[i]] is stdpp's total lookup [v !!! i]
      and [v[i] = x] is [alter]/[insert].
    - The pseudo random generator [rng] and the exceptions are effects of a
      small free monad [Prog], interpreted by [run] over any generator.
    - [std::sin], [std::pow] with a fractional exponent and [std::sort] come
      from the C++ library, not from this repository: they are parameters
      of the section [Simulation], [std::sort] with the laws of its
      contract ([SortLaws]). *)

From Stdlib Require Import ZArith QArith Qabs Qround Lqa Lia String Sorted.
From stdpp Require Import base list strings.

(* ================================================================== *)
(** ** Numbers *)

(** [static_cast<int>(x)]: truncation toward zero. *)
Definition truncate (x : Q) : Z := Z.quot (Qnum x) (Z.pos (Qden x)).

(** The range of [int]. *)
Definition INT_MIN : Z := (-2147483648)%Z.
Definition INT_MAX : Z := 2147483647%Z.

(** [static_cast<int>(x)] where [x] may leave the range of [int], as the
    step count of [generateDynamicLoadProfile] can.  Inside the range the
    fraction is dropped.  Outside it the C++ standard leaves the
    conversion undefined; the model takes what the conversion instruction
    of x86-64 stores there, the most negative [int]. *)
Definition static_cast_int (x : Q) : Z :=
  let z := truncate x in
  if ((INT_MIN <=? z) && (z <=? INT_MAX))%Z then z else INT_MIN.

(** [a < b] on doubles. *)
Definition Qltb (a b : Q) : bool := if Qlt_le_dec a b then true else false.

(** [std::max(a, b)] is [(a < b) ? b : a]; [std::min(a, b)] is
    [(b < a) ? b : a]. *)
Definition std_max (a b : Q) : Q := if Qltb a b then b else a.
Definition std_min (a b : Q) : Q := if Qltb b a then b else a.

(** [M_PI] *)
Definition M_PI : Q := 3.14159265358979323846%Q.

(** A double that may be [+infinity] (the crowding distance). *)
Inductive xdouble : Type :=
| Finite (q : Q)
| Infinity.

(** [d += q] *)
Definition xadd (d : xdouble) (q : Q) : xdouble :=
  match d with
  | Finite x => Finite (x + q)
  | Infinity => Infinity
  end.

(** [a > b] *)
Definition xgtb (a b : xdouble) : bool :=
  match a, b with
  | Finite x, Finite y => Qltb y x
  | Finite _, Infinity => false
  | Infinity, Finite _ => true
  | Infinity, Infinity => false
  end.

(* ================================================================== *)
(** ** SpindleParameters.hpp *)

Record SpindleParameters : Type := mkParams {
  spindleType : string;
  powerRating : Q;
  maxSpeed : Z;
  wheelDiameter : Q;
  bearingType : string;
  bearingPreload : Q;
  coolingType : string;
  lubricationType : string;
  toolInterface : string;
  alignmentTolerance : Q
}.

(** The default constructor: numeric fields zero, strings empty. *)
Definition defaultParameters : SpindleParameters :=
  mkParams EmptyString 0 0 0 EmptyString 0 EmptyString EmptyString EmptyString 0.

Definition setSpindleType (v : string) (p : SpindleParameters) :=
  mkParams v (powerRating p) (maxSpeed p) (wheelDiameter p) (bearingType p)
    (bearingPreload p) (coolingType p) (lubricationType p) (toolInterface p)
    (alignmentTolerance p).
Definition setPowerRating (v : Q) (p : SpindleParameters) :=
  mkParams (spindleType p) v (maxSpeed p) (wheelDiameter p) (bearingType p)
    (bearingPreload p) (coolingType p) (lubricationType p) (toolInterface p)
    (alignmentTolerance p).
Definition setMaxSpeed (v : Z) (p : SpindleParameters) :=
  mkParams (spindleType p) (powerRating p) v (wheelDiameter p) (bearingType p)
    (bearingPreload p) (coolingType p) (lubricationType p) (toolInterface p)
    (alignmentTolerance p).
Definition setWheelDiameter (v : Q) (p : SpindleParameters) :=
  mkParams (spindleType p) (powerRating p) (maxSpeed p) v (bearingType p)
    (bearingPreload p) (coolingType p) (lubricationType p) (toolInterface p)
    (alignmentTolerance p).
Definition setBearingType (v : string) (p : SpindleParameters) :=
  mkParams (spindleType p) (powerRating p) (maxSpeed p) (wheelDiameter p) v
    (bearingPreload p) (coolingType p) (lubricationType p) (toolInterface p)
    (alignmentTolerance p).
Definition setBearingPreload (v : Q) (p : SpindleParameters) :=
  mkParams (spindleType p) (powerRating p) (maxSpeed p) (wheelDiameter p)
    (bearingType p) v (coolingType p) (lubricationType p) (toolInterface p)
    (alignmentTolerance p).
Definition setCoolingType (v : string) (p : SpindleParameters) :=
  mkParams (spindleType p) (powerRating p) (maxSpeed p) (wheelDiameter p)
    (bearingType p) (bearingPreload p) v (lubricationType p) (toolInterface p)
    (alignmentTolerance p).
Definition setLubricationType (v : string) (p : SpindleParameters) :=
  mkParams (spindleType p) (powerRating p) (maxSpeed p) (wheelDiameter p)
    (bearingType p) (bearingPreload p) (coolingType p) v (toolInterface p)
    (alignmentTolerance p).
Definition setToolInterface (v : string) (p : SpindleParameters) :=
  mkParams (spindleType p) (powerRating p) (maxSpeed p) (wheelDiameter p)
    (bearingType p) (bearingPreload p) (coolingType p) (lubricationType p) v
    (alignmentTolerance p).
Definition setAlignmentTolerance (v : Q) (p : SpindleParameters) :=
  mkParams (spindleType p) (powerRating p) (maxSpeed p) (wheelDiameter p)
    (bearingType p) (bearingPreload p) (coolingType p) (lubricationType p)
    (toolInterface p) v.

(** The enumerations, as the vectors [generateRandomParameters] and
    [mutate] index. *)
Definition spindleTypes : list string := ["Belt-Driven"; "Direct-Drive"; "Motorized"].
Definition bearingTypes : list string := ["Angular Contact"; "Hybrid Ceramic"].
Definition coolingTypes : list string := ["Liquid"; "Air"].
Definition lubricationTypes : list string := ["Grease"; "Oil-Mist"; "Oil-Air"].
Definition toolInterfaces : list string := ["Precision Collet"; "Hydraulic Chuck"; "HSK"].

(** The Parameter-Space invariant: the bounds of [validateParameters] and
    membership of every categorical field in its enumeration. *)
Record ParameterSpace (p : SpindleParameters) : Prop := mkParameterSpace {
  ps_power : (0.5 <= powerRating p <= 50)%Q;
  ps_speed : (1000 <= maxSpeed p <= 30000)%Z;
  ps_wheel : (50 <= wheelDiameter p <= 1000)%Q;
  ps_preload : (100 <= bearingPreload p <= 2000)%Q;
  ps_align : (0.0001 <= alignmentTolerance p <= 0.01)%Q;
  ps_spindle : spindleType p ∈ spindleTypes;
  ps_bearing : bearingType p ∈ bearingTypes;
  ps_cooling : coolingType p ∈ coolingTypes;
  ps_lubrication : lubricationType p ∈ lubricationTypes;
  ps_tool : toolInterface p ∈ toolInterfaces
}.

(* ================================================================== *)
(** ** SpindleSimulation.hpp: Individual *)

Record Individual : Type := mkIndividual {
  params : SpindleParameters;
  objectives : list Q;          (* [vibration, -bearingLife, temperature] *)
  rank : Z;
  crowdingDistance : xdouble
}.

(** [Individual() : rank(0), crowdingDistance(0.0) {}] *)
Definition newIndividual : Individual :=
  mkIndividual defaultParameters [] 0 (Finite 0).

Definition setParams (v : SpindleParameters) (i : Individual) :=
  mkIndividual v (objectives i) (rank i) (crowdingDistance i).
Definition setObjectives (v : list Q) (i : Individual) :=
  mkIndividual (params i) v (rank i) (crowdingDistance i).
Definition setRank (v : Z) (i : Individual) :=
  mkIndividual (params i) (objectives i) v (crowdingDistance i).
Definition setCrowdingDistance (v : xdouble) (i : Individual) :=
  mkIndividual (params i) (objectives i) (rank i) v.

#[global] Instance Individual_inhabited : Inhabited Individual := populate newIndividual.
#[global] Instance Q_inhabited : Inhabited Q := populate 0%Q.

(* ================================================================== *)
(** ** Effects: random draws, exceptions, oracle calls *)

(** A program of the simulation: it returns, draws [dist(rng)] from the
    member generator and continues, enters [evaluateObjectives] (a ghost
    event, counted by [run]), throws [std::exception] with a message, or
    is stuck in a [while] loop that used up its iteration budget ([Spin];
    the theorems show that no run reaches it). *)
Inductive Prog (A : Type) : Type :=
| Ret (a : A)
| Draw (k : Q -> Prog A)
| Oracle (k : Prog A)
| Throw (what : string)
| Spin.
Arguments Ret {A} a.
Arguments Draw {A} k.
Arguments Oracle {A} k.
Arguments Throw {A} what.
Arguments Spin {A}.

Fixpoint bind {A B : Type} (p : Prog A) (f : A -> Prog B) : Prog B :=
  match p with
  | Ret a => f a
  | Draw k => Draw (fun u => bind (k u) f)
  | Oracle k => Oracle (bind k f)
  | Throw what => Throw what
  | Spin => Spin
  end.

(** [try { p } catch (const std::exception& e) { handler(e.what()) }] *)
Fixpoint try_catch {A : Type} (p : Prog A) (handler : string -> Prog A) : Prog A :=
  match p with
  | Ret a => Ret a
  | Draw k => Draw (fun u => try_catch (k u) handler)
  | Oracle k => Oracle (try_catch k handler)
  | Throw what => handler what
  | Spin => Spin
  end.

(** A pure loop that may run out of budget. *)
Definition lift {A : Type} (o : option A) : Prog A :=
  match o with
  | Some a => Ret a
  | None => Spin
  end.

(** [dist(rng)] with [uniform_real_distribution<double> dist(0.0, 1.0)]. *)
Definition dist : Prog Q := Draw Ret.

Declare Scope prog_scope.
Delimit Scope prog_scope with prog.
Notation "x <- p ;; q" := (bind p (fun x => q))
  (at level 100, p at next level, right associativity) : prog_scope.
Open Scope prog_scope.

(** [for (x : xs) acc = body(acc, x)] *)
Fixpoint forEach {A B : Type} (xs : list B) (body : A -> B -> Prog A) (acc : A) : Prog A :=
  match xs with
  | [] => Ret acc
  | x :: xs' => acc' <- body acc x ;; forEach xs' body acc'
  end.

(** The generator behind [rng]: [std::mt19937] composed with
    [uniform_real_distribution<double>(0.0, 1.0)]. *)
Record Generator : Type := mkGenerator {
  Rng : Type;
  next : Rng -> Q * Rng
}.

(** The contract of the distribution: every draw lies in [0, 1). *)
Definition UnitRange (G : Generator) : Prop :=
  forall s : Rng G, (0 <= fst (next G s) < 1)%Q.

(** [R] relates generator states that deliver the same draws for ever:
    what two generators started from the same seed do. *)
Definition SameDraws (G1 G2 : Generator) (R : Rng G1 -> Rng G2 -> Prop) : Prop :=
  forall s1 s2, R s1 s2 ->
    fst (next G1 s1) = fst (next G2 s2) /\ R (snd (next G1 s1)) (snd (next G2 s2)).

(** What a program leaves behind: its result or the exception raised, the
    generator state, and the number of oracle entries so far. *)
Inductive Result (A : Type) : Type :=
| Ok (a : A)
| Raised (what : string)
| Stuck.
Arguments Ok {A} a.
Arguments Raised {A} what.
Arguments Stuck {A}.

Record World (G : Generator) : Type := mkWorld {
  rng : Rng G;
  oracleCalls : nat
}.
Arguments mkWorld {G} rng oracleCalls.
Arguments rng {G} w.
Arguments oracleCalls {G} w.

Fixpoint run (G : Generator) {A : Type} (p : Prog A) (w : World G) : Result A * World G :=
  match p with
  | Ret a => (Ok a, w)
  | Draw k =>
      let (u, s) := next G (rng w) in
      run G (k u) (mkWorld s (oracleCalls w))
  | Oracle k => run G k (mkWorld (rng w) (S (oracleCalls w)))
  | Throw what => (Raised what, w)
  | Spin => (Stuck, w)
  end.

(** The outcome specification of a program, for draws in [0, 1): every
    result satisfies [P], every exception thrown satisfies [E], and the
    iteration budget is never used up. *)
Fixpoint post {A : Type} (P : A -> Prop) (E : string -> Prop) (p : Prog A) : Prop :=
  match p with
  | Ret a => P a
  | Draw k => forall u : Q, (0 <= u < 1)%Q -> post P E (k u)
  | Oracle k => post P E k
  | Throw what => E what
  | Spin => False
  end.

(** The program returns, and its result satisfies [P]. *)
Definition always {A : Type} (P : A -> Prop) (p : Prog A) : Prop :=
  post P (fun _ => False) p.

(** A concrete generator for examples: a linear congruential generator
    modulo 2^31 - 1, scaled to [0, 1). *)
Definition lcg : Generator :=
  mkGenerator Z (fun s =>
    let s' := ((s * 48271 + 11) mod 2147483647)%Z in
    (Qmake s' 2147483647, s')).

(** A generator that replays a list of draws (and then zeros). *)
Definition scripted : Generator :=
  mkGenerator (list Q) (fun s =>
    match s with
    | [] => (0%Q, [])
    | u :: s' => (u, s')
    end).

(** Insertion sort, a sorting function that meets the contract of
    [std::sort]; used to run the model on concrete inputs. *)
Fixpoint insert_sorted (comp : nat -> nat -> bool) (x : nat) (l : list nat) : list nat :=
  match l with
  | [] => [x]
  | y :: l' => if comp x y then x :: y :: l' else y :: insert_sorted comp x l'
  end.

Definition insertion_sort (comp : nat -> nat -> bool) (l : list nat) : list nat :=
  foldr (insert_sorted comp) [] l.

(** [comp] is a strict weak ordering on the elements of [l], the
    requirement [std::sort] puts on its comparator. *)
Record StrictWeakOn (comp : nat -> nat -> bool) (l : list nat) : Prop := mkStrictWeakOn {
  swo_irrefl : forall a, a ∈ l -> comp a a = false;
  swo_trans : forall a b c, a ∈ l -> b ∈ l -> c ∈ l ->
      comp a b = true -> comp b c = true -> comp a c = true;
  swo_incomp : forall a b c, a ∈ l -> b ∈ l -> c ∈ l ->
      comp a b = false -> comp b c = false -> comp a c = false
}.

(** The contract of [std::sort]: the result is a permutation of the input
    and no later element compares less than an earlier one.  The order of
    equivalent elements is left open. *)
Record SortLaws (sort : (nat -> nat -> bool) -> list nat -> list nat) : Prop := mkSortLaws {
  sort_perm : forall comp l, sort comp l ≡ₚ l;
  sort_sorted : forall comp l, StrictWeakOn comp l ->
      StronglySorted (fun a b => comp b a = false) (sort comp l)
}.

(* ================================================================== *)
(** ** SpindleSimulation.cpp *)

Section Simulation.

Local Open Scope Q_scope.

(** [std::sin], [std::pow] and [std::sort]. *)
Variable std_sin : Q -> Q.
Variable std_pow : Q -> Q -> Q.
Variable std_sort : (nat -> nat -> bool) -> list nat -> list nat.

(** [a <= b] and [a >= b] on doubles. *)
Definition Qleb (a b : Q) : bool := negb (Qltb b a).

(** *** The objective oracle *)

Definition estimateTemperatureRise (p : SpindleParameters) : Q :=
  let baseTemp := if String.eqb (coolingType p) "Liquid" then 18.0 else 22.0 in
  let speedFactor := inject_Z (maxSpeed p) / 10000.0 in
  let preloadFactor := bearingPreload p / 500.0 in
  (baseTemp + (speedFactor * 5.0) + (preloadFactor * 2.0))%Q.

Definition estimateVibration (p : SpindleParameters) : Q :=
  let baseVibration := if String.eqb (bearingType p) "Hybrid Ceramic" then 0.4 else 0.6 in
  let speedFactor := inject_Z (maxSpeed p) / 10000.0 in
  let alignmentFactor := if Qltb 0.002 (alignmentTolerance p) then 1.2 else 1.0 in
  let toolFactor := if String.eqb (toolInterface p) "HSK" then 0.9 else 1.0 in
  (baseVibration * speedFactor * alignmentFactor * toolFactor)%Q.

Definition estimateLoad (p : SpindleParameters) : Q :=
  ((wheelDiameter p / 1000.0) * (inject_Z (maxSpeed p) / 1000.0) * 100.0)%Q.

(** One iteration of the loop of [generateDynamicLoadProfile]. *)
Definition loadStep (baseLoad timeStep : Q) (loadProfile : list Q) (i : nat) : Prog (list Q) :=
  let time := (inject_Z (Z.of_nat i) * timeStep)%Q in
  let variation := (std_sin (2 * M_PI * time / 2.0) * 0.3)%Q in
  let load := (baseLoad * (1.0 + variation))%Q in
  u <- dist ;;
  let load := if Qltb u 0.1 then (load * 1.5)%Q else load in
  Ret (loadProfile ++ [std_max 0.0 load]).

Definition generateDynamicLoadProfile (p : SpindleParameters) (duration loadFactor : Q)
  : Prog (list Q) :=
  let baseLoad := (estimateLoad p * loadFactor)%Q in
  let timeStep := 0.1%Q in
  let steps := static_cast_int (duration / timeStep) in
  forEach (seq 0 (Z.to_nat steps)) (loadStep baseLoad timeStep) [].

(** [std::accumulate(v.begin(), v.end(), 0.0) / v.size()] *)
Definition average (v : list Q) : Q :=
  (fold_left Qplus v 0.0 / inject_Z (Z.of_nat (length v)))%Q.

Definition calculateBearingL10Life (p : SpindleParameters) (loadProfile : list Q) : Q :=
  let C := if String.eqb (bearingType p) "Hybrid Ceramic" then 50.0 else 40.0 in
  let avgLoad := average loadProfile in
  let P := ((avgLoad + bearingPreload p) / 1000.0)%Q in
  let f0 := 1.0%Q in
  let f1 := if String.eqb (lubricationType p) "Grease" then (f0 * 0.8)%Q
            else if String.eqb (lubricationType p) "Oil-Air" then (f0 * 1.2)%Q
            else f0 in
  let lifeAdjustmentFactor := if String.eqb (coolingType p) "Liquid" then (f1 * 1.1)%Q else f1 in
  let L10 := ((C / P) ^ 3 * 1000000)%Q in
  let L10h := (L10 / (60.0 * inject_Z (maxSpeed p)) * lifeAdjustmentFactor)%Q in
  std_max 1000.0 L10h.

Definition calculateWheelWear (p : SpindleParameters) (loadProfile : list Q) (duration : Q) : Q :=
  let wearCoefficient := 1e-6%Q in
  let wheelDiameter' := (wheelDiameter p / 1000.0)%Q in
  let wheelThickness := 0.02%Q in
  let avgLoad := average loadProfile in
  let peripheralSpeed := (M_PI * wheelDiameter' * inject_Z (maxSpeed p) / 60.0)%Q in
  let slidingDistance := (peripheralSpeed * duration)%Q in
  let wearVolume := (wearCoefficient * avgLoad * slidingDistance)%Q in
  let diameterReduction := (wearVolume / (M_PI * wheelDiameter' * wheelThickness * 1000.0))%Q in
  std_min diameterReduction (wheelDiameter p * 0.2)%Q.

Definition calculateWearInducedVibration (p : SpindleParameters) (wear : Q) : Q :=
  let wheelDiameter' := (wheelDiameter p / 1000.0)%Q in
  let wheelThickness := 0.02%Q in
  let density := 2500.0%Q in
  let wearVolume := (wear * M_PI * wheelDiameter' * wheelThickness * 1000.0)%Q in
  let imbalanceMass := (density * wearVolume * 1e-9)%Q in
  let wheelMass := (density * M_PI * (wheelDiameter' / 2) ^ 2 * wheelThickness)%Q in
  let eccentricity := ((imbalanceMass * (wheelDiameter' / 2)) / wheelMass)%Q in
  let omega := (2 * M_PI * inject_Z (maxSpeed p) / 60.0)%Q in
  let imbalanceForce := (imbalanceMass * omega ^ 2 * eccentricity)%Q in
  let systemStiffness := 1e8%Q in
  let vibrationAmplitude := (imbalanceForce / systemStiffness * 1000.0)%Q in
  std_min vibrationAmplitude 2.0.

(** The objectives assigned when the evaluation fails. *)
Definition worstCaseObjectives : list Q := [1e10; -1e-10; 1e10]%Q.

(** The [try] block of [evaluateObjectives]. *)
Definition evaluateObjectives_try (ind : Individual) (duration loadFactor : Q) : Prog Individual :=
  loadProfile <- generateDynamicLoadProfile (params ind) duration loadFactor ;;
  match loadProfile with
  | [] => Throw "Empty load profile generated"
  | _ :: _ =>
      let vibration := estimateVibration (params ind) in
      let tempRise := estimateTemperatureRise (params ind) in
      let bearingLife := calculateBearingL10Life (params ind) loadProfile in
      let wheelWear := calculateWheelWear (params ind) loadProfile duration in
      let wearVibration := calculateWearInducedVibration (params ind) wheelWear in
      let totalVibration := (vibration + wearVibration)%Q in
      Ret (setObjectives [totalVibration; (- bearingLife)%Q; tempRise] ind)
  end.

Definition evaluateObjectives (ind : Individual) (duration loadFactor : Q) : Prog Individual :=
  Oracle (try_catch (evaluateObjectives_try ind duration loadFactor)
            (fun _ => Ret (setObjectives worstCaseObjectives ind))).

(** *** Random parameters, crossover, mutation *)

(** [choices[static_cast<int>(u * choices.size())]] *)
Definition pick (choices : list string) (u : Q) : string :=
  choices !!! Z.to_nat (truncate (u * inject_Z (Z.of_nat (length choices)))).

Definition generateRandomParameters : Prog SpindleParameters :=
  let p := defaultParameters in
  u <- dist ;; let p := setPowerRating (0.5 + u * (50.0 - 0.5))%Q p in
  u <- dist ;; let p := setMaxSpeed (truncate (1000 + u * (30000 - 1000))%Q) p in
  u <- dist ;; let p := setWheelDiameter (50.0 + u * (1000.0 - 50.0))%Q p in
  u <- dist ;; let p := setBearingPreload (100.0 + u * (2000.0 - 100.0))%Q p in
  u <- dist ;; let p := setAlignmentTolerance (0.0001 + u * (0.01 - 0.0001))%Q p in
  u <- dist ;; let p := setSpindleType (pick spindleTypes u) p in
  u <- dist ;; let p := setBearingType (pick bearingTypes u) p in
  u <- dist ;; let p := setCoolingType (pick coolingTypes u) p in
  u <- dist ;; let p := setLubricationType (pick lubricationTypes u) p in
  u <- dist ;; let p := setToolInterface (pick toolInterfaces u) p in
  Ret p.

(** The lambda [blend] of [crossover], BLX-alpha with [alpha = 0.5]. *)
Definition blend (p1 p2 min max : Q) : Prog Q :=
  let alpha := 0.5%Q in
  let d := Qabs (p1 - p2) in
  let lower := (std_min p1 p2 - alpha * d)%Q in
  let upper := (std_max p1 p2 + alpha * d)%Q in
  u <- dist ;;
  Ret (std_max min (std_min max (lower + u * (upper - lower))%Q)).

(** [dist(rng) < 0.5 ? a : b] *)
Definition coin {A : Type} (a b : A) : Prog A :=
  u <- dist ;; Ret (if Qltb u 0.5 then a else b).

Definition crossover (parent1 parent2 : Individual) : Prog Individual :=
  let p1 := params parent1 in
  let p2 := params parent2 in
  let o := defaultParameters in
  v <- blend (powerRating p1) (powerRating p2) 0.5 50.0 ;;
  let o := setPowerRating v o in
  v <- blend (inject_Z (maxSpeed p1)) (inject_Z (maxSpeed p2)) 1000 30000 ;;
  let o := setMaxSpeed (truncate v) o in
  v <- blend (wheelDiameter p1) (wheelDiameter p2) 50.0 1000.0 ;;
  let o := setWheelDiameter v o in
  v <- blend (bearingPreload p1) (bearingPreload p2) 100.0 2000.0 ;;
  let o := setBearingPreload v o in
  v <- blend (alignmentTolerance p1) (alignmentTolerance p2) 0.0001 0.01 ;;
  let o := setAlignmentTolerance v o in
  v <- coin (spindleType p1) (spindleType p2) ;; let o := setSpindleType v o in
  v <- coin (bearingType p1) (bearingType p2) ;; let o := setBearingType v o in
  v <- coin (coolingType p1) (coolingType p2) ;; let o := setCoolingType v o in
  v <- coin (lubricationType p1) (lubricationType p2) ;; let o := setLubricationType v o in
  v <- coin (toolInterface p1) (toolInterface p2) ;; let o := setToolInterface v o in
  Ret (setParams o newIndividual).

Definition mutationProb : Q := 0.1%Q.

(** The lambda [mutateContinuous] of [mutate], polynomial mutation with
    [eta = 20.0]. *)
Definition mutateContinuous (value min max : Q) : Prog Q :=
  let eta := 20.0%Q in
  u <- dist ;;
  if Qleb mutationProb u then Ret value else
  let delta1 := ((value - min) / (max - min))%Q in
  let delta2 := ((max - value) / (max - min))%Q in
  rand <- dist ;;
  let deltaq :=
    if Qleb rand 0.5
    then (std_pow (2.0 * rand) (1.0 / (eta + 1.0)) - 1.0)%Q
    else (1.0 - std_pow (2.0 * (1.0 - rand)) (1.0 / (eta + 1.0)))%Q in
  let delta := ((if Qltb deltaq 0 then delta1 else delta2) * deltaq)%Q in
  Ret (std_max min (std_min max (value + delta * (max - min))%Q)).

(** [if (dist(rng) < mutationProb) field = choices[...dist(rng)...]] *)
Definition mutateCategorical (value : string) (choices : list string) : Prog string :=
  u <- dist ;;
  if Qltb u mutationProb then (u' <- dist ;; Ret (pick choices u')) else Ret value.

Definition mutate (ind : Individual) : Prog Individual :=
  let p := params ind in
  v <- mutateContinuous (powerRating p) 0.5 50.0 ;; let p := setPowerRating v p in
  v <- mutateContinuous (inject_Z (maxSpeed p)) 1000 30000 ;; let p := setMaxSpeed (truncate v) p in
  v <- mutateContinuous (wheelDiameter p) 50.0 1000.0 ;; let p := setWheelDiameter v p in
  v <- mutateContinuous (bearingPreload p) 100.0 2000.0 ;; let p := setBearingPreload v p in
  v <- mutateContinuous (alignmentTolerance p) 0.0001 0.01 ;; let p := setAlignmentTolerance v p in
  v <- mutateCategorical (spindleType p) spindleTypes ;; let p := setSpindleType v p in
  v <- mutateCategorical (bearingType p) bearingTypes ;; let p := setBearingType v p in
  v <- mutateCategorical (coolingType p) coolingTypes ;; let p := setCoolingType v p in
  v <- mutateCategorical (lubricationType p) lubricationTypes ;; let p := setLubricationType v p in
  v <- mutateCategorical (toolInterface p) toolInterfaces ;; let p := setToolInterface v p in
  Ret (setParams p ind).

(** *** Dominance and the non-dominated sort *)

(** The loop of [dominates] from index [i] on, [a] and [b] being the
    objectives not yet visited. *)
Fixpoint dominatesFrom (a b : list Q) (betterInAtLeastOne : bool) : bool :=
  match a, b with
  | x :: a', y :: b' =>
      if Qltb y x then false
      else dominatesFrom a' b' (if Qltb x y then true else betterInAtLeastOne)
  | _, _ => betterInAtLeastOne
  end.

Definition dominates (a b : Individual) : bool :=
  dominatesFrom (objectives a) (objectives b) false.

(** The locals of [nonDominatedSorting], with the population they update. *)
Record Sorting : Type := mkSorting {
  population : list Individual;
  fronts : list (list nat);
  dominationCount : list Z;
  dominatedBy : list (list nat)
}.

(** The body of the inner loop over [j] (lines 590-597). *)
Definition compareStep (i : nat) (st : Sorting) (j : nat) : Sorting :=
  if decide (i = j) then st
  else if dominates (population st !!! i) (population st !!! j) then
    mkSorting (population st) (fronts st) (dominationCount st)
      (alter (fun l => l ++ [j]) i (dominatedBy st))
  else if dominates (population st !!! j) (population st !!! i) then
    mkSorting (population st) (fronts st)
      (alter Z.succ i (dominationCount st)) (dominatedBy st)
  else st.

(** [if (fronts.empty()) fronts.push_back({}); fronts[0].push_back(i);] *)
Definition pushFirstFront (i : nat) (fronts : list (list nat)) : list (list nat) :=
  alter (fun front => front ++ [i]) 0%nat
    (match fronts with [] => [[]] | _ :: _ => fronts end).

(** The body of the outer loop over [i] (lines 589-603). *)
Definition scanStep (st : Sorting) (i : nat) : Sorting :=
  let st := fold_left (compareStep i) (seq 0 (length (population st))) st in
  if decide (dominationCount st !!! i = 0%Z) then
    mkSorting (alter (setRank 1) i (population st)) (pushFirstFront i (fronts st))
      (dominationCount st) (dominatedBy st)
  else st.

Definition scanPopulation (population : list Individual) : Sorting :=
  let n := length population in
  fold_left scanStep (seq 0 n)
    (mkSorting population [] (replicate n 0%Z) (replicate n [])).

(** The body of the loop over [j : dominatedBy[i]] (lines 610-616). *)
Definition releaseStep (frontIdx : nat) (acc : Sorting * list nat) (j : nat)
  : Sorting * list nat :=
  let st := acc.1 in
  let count := alter Z.pred j (dominationCount st) in
  if decide (count !!! j = 0%Z) then
    (mkSorting (alter (setRank (Z.of_nat frontIdx + 2)) j (population st))
       (fronts st) count (dominatedBy st),
     acc.2 ++ [j])
  else (mkSorting (population st) (fronts st) count (dominatedBy st), acc.2).

(** The loop over [i : fronts[frontIdx]] (lines 608-617): the state and
    [nextFront]. *)
Definition peelFront (frontIdx : nat) (st : Sorting) (front : list nat)
  : Sorting * list nat :=
  fold_left
    (fun acc i => fold_left (releaseStep frontIdx) (dominatedBy acc.1 !!! i) acc)
    front (st, []).

(** The state the loop of [peelLoop] continues with after [peelFront]. *)
Definition afterFront (r : Sorting * list nat) : Sorting :=
  match r.2 with
  | [] => r.1
  | _ :: _ =>
      mkSorting (population r.1) (fronts r.1 ++ [r.2])
        (dominationCount r.1) (dominatedBy r.1)
  end.

(** The [while] loop that builds the later fronts (lines 606-620), with
    an iteration budget. *)
Fixpoint peelLoop (budget : nat) (frontIdx : nat) (st : Sorting) : option Sorting :=
  match fronts st !! frontIdx with
  | None => Some st
  | Some [] => Some st
  | Some (i :: front) =>
      match budget with
      | O => None
      | S budget' =>
          peelLoop budget' (S frontIdx) (afterFront (peelFront frontIdx st (i :: front)))
      end
  end.

(** *** Crowding distance *)

(** [population[i].objectives[objIdx]] *)
Definition objective (population : list Individual) (i objIdx : nat) : Q :=
  objectives (population !!! i) !!! objIdx.

(** The comparator of the sort by one objective.  The copy inside
    [optimizeSpindleArrangement] (line 868) first answers [false] for an
    index outside the population; [nonDominatedSorting] (line 633) has no
    such test and never meets such an index. *)
Definition byObjective (population : list Individual) (objIdx : nat) (a b : nat) : bool :=
  if decide (length population <= a \/ length population <= b)%nat then false
  else Qltb (objective population a objIdx) (objective population b objIdx).

(** The body of the loop over the interior of the sorted front
    (lines 639-644 and 880-888). *)
Definition accumulateStep (sortedFront : list nat) (objIdx : nat) (objRange : Q)
    (population : list Individual) (i : nat) : list Individual :=
  let n := length population in
  if decide (sortedFront !!! i < n /\ sortedFront !!! (i + 1) < n
             /\ sortedFront !!! (i - 1) < n)%nat then
    alter (fun ind => setCrowdingDistance
             (xadd (crowdingDistance ind)
                ((objective population (sortedFront !!! (i + 1)%nat) objIdx
                  - objective population (sortedFront !!! (i - 1)%nat) objIdx) / objRange))
             ind)
      (sortedFront !!! i) population
  else population.

(** The body of the loop over [objIdx] (lines 631-645 and 866-889): the
    population and [sortedFront], which stays sorted by the objective
    handled last. *)
Definition crowdObjective (acc : list Individual * list nat) (objIdx : nat)
  : list Individual * list nat :=
  let population := acc.1 in
  let sortedFront := std_sort (byObjective population objIdx) acc.2 in
  let first := sortedFront !!! 0%nat in
  let last := sortedFront !!! (length sortedFront - 1)%nat in
  let population := alter (setCrowdingDistance Infinity) first population in
  let population := alter (setCrowdingDistance Infinity) last population in
  let objRange := objective population last objIdx - objective population first objIdx in
  if Qltb (Qabs objRange) 1e-10 then (population, sortedFront)
  else
    (fold_left (accumulateStep sortedFront objIdx objRange)
       (seq 1 (length sortedFront - 2)) population,
     sortedFront).

(** The body of the loop over the fronts (lines 623-646 and 853-890). *)
Definition crowdFront (population : list Individual) (front : list nat) : list Individual :=
  if decide (length front <= 2)%nat then
    fold_left (fun population i => alter (setCrowdingDistance Infinity) i population)
      front population
  else
    (fold_left crowdObjective
       (seq 0 (length (objectives (population !!! (front !!! 0%nat)))))
       (population, front)).1.

Definition crowdingDistances (population : list Individual) (fronts : list (list nat))
  : list Individual :=
  fold_left crowdFront fronts population.

(** Fronts, ranks and crowding distances of a population: the whole of
    [nonDominatedSorting] (lines 584-646), and its copy applied to
    [combined] in [optimizeSpindleArrangement] (lines 812-890), which
    also keeps [fronts]. *)
Definition rankPopulation (individuals : list Individual)
  : option (list Individual * list (list nat)) :=
  match peelLoop (S (length individuals)) 0 (scanPopulation individuals) with
  | Some st => Some (crowdingDistances (population st) (fronts st), fronts st)
  | None => None
  end.

Definition nonDominatedSorting (population : list Individual) : option (list Individual) :=
  fst <$> rankPopulation population.

(** *** The generational loop *)

Record Config : Type := mkConfig {
  duration : Q;
  loadFactor : Q;
  populationSize : Z;
  generations : Z
}.

(** The input checks (lines 738-746). *)
Definition validateInputs (cfg : Config) : Prog unit :=
  if Qleb (duration cfg) 0.0 then Throw "Duration must be positive"
  else if Qltb (loadFactor cfg) 0.5 || Qltb 2.0 (loadFactor cfg) then
    Throw "Load factor must be between 0.5 and 2.0"
  else if (populationSize cfg <? 10)%Z || (generations cfg <? 1)%Z then
    Throw "Population size must be at least 10 and generations at least 1"
  else Ret tt.

(** Lines 748-761. *)
Definition initializePopulation (cfg : Config) : Prog (list Individual) :=
  let n := Z.to_nat (populationSize cfg) in
  population <- forEach (seq 0 n)
    (fun population i =>
       p <- generateRandomParameters ;;
       ind <- evaluateObjectives (setParams p (population !!! i))
                (duration cfg) (loadFactor cfg) ;;
       Ret (<[i := ind]> population))
    (replicate n newIndividual) ;;
  lift (nonDominatedSorting population).

(** The test of line 784: [parent1] goes first. *)
Definition precedes (parent1 parent2 : Individual) : bool :=
  (rank parent1 <? rank parent2)%Z
  || ((rank parent1 =? rank parent2)%Z
      && xgtb (crowdingDistance parent1) (crowdingDistance parent2)).

(** Lines 774-788: the two draws and the order in which the two drawn
    individuals are handed to [crossover]. *)
Definition selectParents (cfg : Config) (population : list Individual)
  : Prog (Individual * Individual) :=
  u1 <- dist ;;
  let idx1 := Z.to_nat (truncate (u1 * inject_Z (populationSize cfg))) in
  u2 <- dist ;;
  let idx2 := Z.to_nat (truncate (u2 * inject_Z (populationSize cfg))) in
  if decide (length population <= idx1 \/ length population <= idx2)%nat then
    Throw "Invalid tournament indices"
  else
    let parent1 := population !!! idx1 in
    let parent2 := population !!! idx2 in
    if precedes parent1 parent2 then Ret (parent1, parent2)
    else Ret (parent2, parent1).

(** One iteration of the loop of lines 773-795. *)
Definition breed (cfg : Config) (population : list Individual) : Prog Individual :=
  parents <- selectParents cfg population ;;
  offspringInd <- crossover parents.1 parents.2 ;;
  offspringInd <- mutate offspringInd ;;
  evaluateObjectives offspringInd (duration cfg) (loadFactor cfg).

(** [while (offspring.size() < populationSize)]: every iteration that does
    not throw appends one individual, so the loop runs [populationSize]
    times. *)
Definition createOffspring (cfg : Config) (population : list Individual)
  : Prog (list Individual) :=
  forEach (seq 0 (Z.to_nat (populationSize cfg)))
    (fun offspring _ =>
       offspringInd <- breed cfg population ;;
       Ret (offspring ++ [offspringInd]))
    [].

(** [for (size_t i : front) if (i < combined.size())
      population.push_back(combined[i]);] *)
Definition pushFront (combined : list Individual) (population : list Individual)
    (front : list nat) : list Individual :=
  fold_left
    (fun population i =>
       if decide (i < length combined)%nat then population ++ [combined !!! i]
       else population)
    front population.

(** The [while] loop of lines 897-906 over the fronts from [frontIdx] on:
    the population and the fronts not yet added. *)
Fixpoint addWholeFronts (populationSize : nat) (combined : list Individual)
    (fronts : list (list nat)) (population : list Individual)
  : list Individual * list (list nat) :=
  match fronts with
  | [] => (population, [])
  | front :: fronts' =>
      if decide (length population + length front <= populationSize)%nat then
        addWholeFronts populationSize combined fronts' (pushFront combined population front)
      else (population, fronts)
  end.

(** The comparator of the sort of line 911. *)
Definition byCrowding (combined : list Individual) (a b : nat) : bool :=
  if decide (length combined <= a \/ length combined <= b)%nat then false
  else xgtb (crowdingDistance (combined !!! a)) (crowdingDistance (combined !!! b)).

(** Lines 895-922. *)
Definition selectNextGeneration (populationSize : nat) (combined : list Individual)
    (fronts : list (list nat)) : list Individual :=
  let r := addWholeFronts populationSize combined fronts [] in
  let population := r.1 in
  match r.2 with
  | front :: _ =>
      if decide (length population < populationSize)%nat then
        let sortedFront := std_sort (byCrowding combined) front in
        let remaining := (populationSize - length population)%nat in
        pushFront combined population (take remaining sortedFront)
      else population
  | [] => population
  end.

(** The body of the main loop (lines 764-929). *)
Definition generation (cfg : Config) (population : list Individual)
  : Prog (list Individual) :=
  offspring <- createOffspring cfg population ;;
  let combined := population ++ offspring in
  match combined with
  | [] => Throw "Combined population is empty"
  | _ :: _ =>
      ranked <- lift (rankPopulation combined) ;;
      let population :=
        selectNextGeneration (Z.to_nat (populationSize cfg)) ranked.1 ranked.2 in
      match population with
      | [] => Throw "Population is empty after selection"
      | _ :: _ => Ret population
      end
  end.

Fixpoint generationLoop (gens : nat) (cfg : Config) (population : list Individual)
  : Prog (list Individual) :=
  match gens with
  | O => Ret population
  | S gens' =>
      population <- generation cfg population ;;
      generationLoop gens' cfg population
  end.

(** The population after the first [gens] generations of a run. *)
Definition evolve (cfg : Config) (gens : nat) : Prog (list Individual) :=
  _ <- validateInputs cfg ;;
  population <- initializePopulation cfg ;;
  generationLoop gens cfg population.

(** What the caller gets: the error text, or the rows of the report (the
    rank 1 individuals of the last population; the layout of the text is
    not modelled). *)
Inductive Outcome : Type :=
| Failed (message : string)
| ParetoFront (solutions : list Individual).

Definition newline : string := String (Ascii.ascii_of_nat 10) EmptyString.

Definition optimizeSpindleArrangement (cfg : Config) : Prog Outcome :=
  try_catch
    (population <- evolve cfg (Z.to_nat (generations cfg)) ;;
     Ret (ParetoFront (filter (fun ind => rank ind = 1%Z) population)))
    (fun what =>
       Ret (Failed ("Error: Optimization failed - " ++ what ++ newline)%string)).

(** *** Parameter checks and verdicts *)

(** [validateParameters] (lines 16-28): the first bound that fails
    decides the message. *)
Definition validateParameters (p : SpindleParameters) : string :=
  if Qltb (powerRating p) 0.5 || Qltb 50.0 (powerRating p) then
    ("Error: Power rating must be between 0.5 and 50 kW" ++ newline)%string
  else if (maxSpeed p <? 1000)%Z || (30000 <? maxSpeed p)%Z then
    ("Error: Max speed must be between 1000 and 30000 RPM" ++ newline)%string
  else if Qltb (wheelDiameter p) 50 || Qltb 1000 (wheelDiameter p) then
    ("Error: Wheel diameter must be between 50 and 1000 mm" ++ newline)%string
  else if Qltb (bearingPreload p) 100 || Qltb 2000 (bearingPreload p) then
    ("Error: Bearing preload must be between 100 and 2000 N" ++ newline)%string
  else if Qltb (alignmentTolerance p) 0.0001 || Qltb 0.01 (alignmentTolerance p) then
    ("Error: Alignment tolerance must be between 0.0001 and 0.01 mm" ++ newline)%string
  else "Valid".

Definition evaluateSpindleType (p : SpindleParameters) : string :=
  if String.eqb (spindleType p) "Motorized" && (15000 <? maxSpeed p)%Z then
    "Motorized spindle optimal for high-speed precision grinding"
  else if String.eqb (spindleType p) "Belt-Driven" && (maxSpeed p <=? 8000)%Z then
    "Belt-driven spindle cost-effective for high-torque applications"
  else if String.eqb (spindleType p) "Direct-Drive" then
    "Direct-drive spindle balances speed and torque effectively"
  else "Spindle type may not be optimal for specified parameters".

Definition evaluateBearingPerformance (p : SpindleParameters) : string :=
  if String.eqb (bearingType p) "Hybrid Ceramic" && (10000 <? maxSpeed p)%Z then
    "Hybrid ceramic bearings optimal for high-speed, low-friction operation"
  else if String.eqb (bearingType p) "Angular Contact" then
    "Angular contact bearings provide excellent rigidity for medium speeds"
  else "Bearing type may need review for optimal performance".

Definition calculateRequiredPower (wheelDiameter : Q) (speed : Z) : Q :=
  let materialFactor := 1.2 in
  (wheelDiameter / 1000.0) * (inject_Z speed / 1000.0) * 2.5 * materialFactor.

(** The overloads of [estimateTemperatureRise] and [estimateVibration]
    that take the load (lines 353-359 and 375-382). *)
Definition estimateTemperatureRise_load (p : SpindleParameters) (load : Q) : Q :=
  let baseTemp := if String.eqb (coolingType p) "Liquid" then 18.0 else 22.0 in
  let speedFactor := inject_Z (maxSpeed p) / 10000.0 in
  let preloadFactor := bearingPreload p / 500.0 in
  let loadFactor := load / 1000.0 in
  baseTemp + (speedFactor * 5.0) + (preloadFactor * 2.0) + (loadFactor * 2.0).

Definition estimateVibration_load (p : SpindleParameters) (load : Q) : Q :=
  let baseVibration := if String.eqb (bearingType p) "Hybrid Ceramic" then 0.4 else 0.6 in
  let speedFactor := inject_Z (maxSpeed p) / 10000.0 in
  let alignmentFactor := if Qltb 0.002 (alignmentTolerance p) then 1.2 else 1.0 in
  let toolFactor := if String.eqb (toolInterface p) "HSK" then 0.9 else 1.0 in
  let loadFactor := 1.0 + (load / 1000.0) * 0.5 in
  baseVibration * speedFactor * alignmentFactor * toolFactor * loadFactor.

Definition calculateThermalExpansion (tempRise : Q) : Q :=
  let shaftLength := 0.2 in
  let thermalCoefficient := 12e-6 in
  shaftLength * thermalCoefficient * tempRise.

(** *** Shaft fatigue *)

(** [std::log10]. *)
Variable std_log10 : Q -> Q.

(** The body of the loop of [calculateSpindleFatigueLife]. *)
Definition fatigueStep (a b sectionModulus : Q) (totalDamage load : Q) : Q :=
  let moment := load * 0.1 in
  let stress := moment / sectionModulus in
  let logN := a - b * std_log10 (stress / 1e6) in
  let N := std_pow 10 logN in
  totalDamage + 1.0 / N.

Definition calculateSpindleFatigueLife (p : SpindleParameters) (loadProfile : list Q) : Q :=
  let a := 20.0 in
  let b := 6.0 in
  let shaftDiameter := 0.05 in
  let sectionModulus := M_PI * shaftDiameter ^ 3 / 32 in
  let totalDamage := fold_left (fatigueStep a b sectionModulus) loadProfile 0.0 in
  let remainingLife := 1.0 - totalDamage in
  std_max 0.0 (std_min 1.0 remainingLife).

(** *** The maintenance predictor *)




(** [std::sqrt]. *)
Variable std_sqrt : Q -> Q.



(** [std::sort] on the vector of pairs, with its contract. *)
Variable std_sort_pairs : list (Q * Z) -> list (Q * Z).




(** *** Parent selection as the design document words it *)

(** A binary tournament: two individuals drawn with replacement, the
    winner the one with the lower rank, or on a rank tie the larger
    crowding distance. *)
Definition binaryTournament (cfg : Config) (population : list Individual)
  : Prog Individual :=
  u1 <- dist ;;
  u2 <- dist ;;
  let a := population !!! Z.to_nat (truncate (u1 * inject_Z (populationSize cfg))) in
  let b := population !!! Z.to_nat (truncate (u2 * inject_Z (populationSize cfg))) in
  Ret (if precedes a b then a else b).

(** Two independent tournaments, the first winner [parent1], the second
    [parent2]. *)
Definition selectParents_spec (cfg : Config) (population : list Individual)
  : Prog (Individual * Individual) :=
  parent1 <- binaryTournament cfg population ;;
  parent2 <- binaryTournament cfg population ;;
  Ret (parent1, parent2).

(** *** Example data *)

(** Rational stand-ins for [std::sin] and [std::pow] where an example has
    to name them; every theorem below holds for any choice. *)
Definition flat_sin (x : Q) : Q := 0.
Definition linear_pow (x y : Q) : Q := x.

(** Ten individuals with the ranks 1 to 10. *)
Definition rankedTen : list Individual :=
  map (fun r => setRank r newIndividual) [1; 2; 3; 4; 5; 6; 7; 8; 9; 10]%Z.

(** One second at nominal load, ten individuals, one generation. *)
Definition tenConfig : Config := mkConfig 1 1 10 1.

(** The same with a duration of half a time step, over two generations. *)
Definition shortConfig : Config := mkConfig 0.05 1 10 2.

(** A configuration with no duration at all. *)
Definition zeroDurationConfig : Config := mkConfig 0 1 10 1.

(** A parameter set inside the parameter space. *)
Definition sampleParameters : SpindleParameters :=
  mkParams "Motorized" 10 10000 200 "Hybrid Ceramic" 150 "Liquid" "Oil-Air" "HSK" 0.005.

(** Three mutually non-dominating individuals spread evenly over the
    first two objectives, and a fourth one they all dominate. *)
Definition threeSpread : list Individual :=
  [setObjectives [1; 3; 0] newIndividual;
   setObjectives [2; 2; 0] newIndividual;
   setObjectives [3; 1; 0] newIndividual].

Definition dominatedOffspring : Individual := setObjectives [4; 4; 1] newIndividual.

(** *** Vocabulary of the proofs about the sort *)

Definition dom (pop : list Individual) (i j : nat) : bool :=
  dominates (pop !!! i) (pop !!! j).
Definition dominatedSet (pop : list Individual) (i : nat) : list nat :=
  filter (fun j => i <> j /\ dom pop i j = true) (seq 0 (length pop)).
Definition dominatorCount (pop : list Individual) (i : nat) : Z :=
  Z.of_nat (length (filter (fun j => i <> j /\ dom pop i j = false /\ dom pop j i = true)
                      (seq 0 (length pop)))).
Definition wrap (front : list nat) : list (list nat) :=
  match front with [] => [] | _ :: _ => [front] end.

Record Scanned (pop : list Individual) (k : nat) (st : Sorting) : Prop := mkScanned {
  scanned_length : length (population st) = length pop;
  scanned_population : forall x,
    population st !!! x
    = if decide ((x < k)%nat /\ dominatorCount pop x = 0%Z)
      then setRank 1 (pop !!! x) else pop !!! x;
  scanned_dominatedBy_length : length (dominatedBy st) = length pop;
  scanned_count_length : length (dominationCount st) = length pop;
  scanned_done : forall i, (i < k)%nat ->
    dominatedBy st !!! i = dominatedSet pop i
    /\ dominationCount st !!! i = dominatorCount pop i;
  scanned_todo : forall i, (k <= i < length pop)%nat ->
    dominatedBy st !!! i = [] /\ dominationCount st !!! i = 0%Z;
  scanned_fronts :
    fronts st = wrap (filter (fun i => dominatorCount pop i = 0%Z) (seq 0 k))
}.

Definition Compared (i : nat) (st : Sorting) (js : list nat) (st' : Sorting) : Prop :=
  population st' = population st /\ fronts st' = fronts st
  /\ length (dominatedBy st') = length (dominatedBy st)
  /\ length (dominationCount st') = length (dominationCount st)
  /\ dominatedBy st' !!! i
     = dominatedBy st !!! i
       ++ filter (fun j => i <> j /\ dom (population st) i j = true) js
  /\ dominationCount st' !!! i
     = (dominationCount st !!! i
        + Z.of_nat (length (filter (fun j => i <> j /\ dom (population st) i j = false
                                            /\ dom (population st) j i = true) js)))%Z
  /\ forall i', i' <> i ->
       dominatedBy st' !!! i' = dominatedBy st !!! i'
       /\ dominationCount st' !!! i' = dominationCount st !!! i'.

Definition occurrences (js : list nat) (j : nat) : Z :=
  Z.of_nat (count_occ Nat.eq_dec js j).

Record Released (frontIdx : nat) (acc : Sorting * list nat) (js : list nat)
    (r : Sorting * list nat) (new : list nat) : Prop := mkReleased {
  released_fronts : fronts r.1 = fronts acc.1;
  released_dominatedBy : dominatedBy r.1 = dominatedBy acc.1;
  released_length : length (population r.1) = length (population acc.1);
  released_count_length : length (dominationCount r.1) = length (dominationCount acc.1);
  released_count : forall j,
    dominationCount r.1 !!! j = (dominationCount acc.1 !!! j - occurrences js j)%Z;
  released_next : r.2 = acc.2 ++ new;
  released_nodup : NoDup new;
  released_new : forall j,
    j ∈ new <-> (1 <= dominationCount acc.1 !!! j <= occurrences js j)%Z;
  released_population : forall j,
    population r.1 !!! j
    = if decide (j ∈ new)
      then setRank (Z.of_nat frontIdx + 2) (population acc.1 !!! j)
      else population acc.1 !!! j
}.

Definition ThreeObjectives (pop : list Individual) : Prop :=
  Forall (fun ind => length (objectives ind) = 3%nat) pop.

Definition ndom (pop : list Individual) (l : list nat) (j : nat) : nat :=
  length (filter (fun i => dom pop i j = true) l).

Definition sameButRank (a b : Individual) : Prop :=
  params a = params b /\ objectives a = objectives b
  /\ crowdingDistance a = crowdingDistance b.

Definition firstFront (pop : list Individual) : list nat :=
  filter (fun i => dominatorCount pop i = 0%Z) (seq 0 (length pop)).

Record Peeled (pop : list Individual) (k : nat) (st : Sorting) : Prop := mkPeeled {
  peeled_length : length (population st) = length pop;
  peeled_same : forall x, sameButRank (population st !!! x) (pop !!! x);
  peeled_dominatedBy : forall i, (i < length pop)%nat ->
    dominatedBy st !!! i = dominatedSet pop i;
  peeled_count_length : length (dominationCount st) = length pop;
  peeled_nodup : NoDup (concat (fronts st));
  peeled_bound : forall j, j ∈ concat (fronts st) -> (j < length pop)%nat;
  peeled_count : forall j, (j < length pop)%nat ->
    dominationCount st !!! j
    = (Z.of_nat (ndom pop (seq 0 (length pop)) j)
       - Z.of_nat (ndom pop (concat (take k (fronts st))) j))%Z;
  peeled_zero : forall j, (j < length pop)%nat ->
    j ∈ concat (fronts st) <-> dominationCount st !!! j = 0%Z;
  peeled_rank : forall m front j,
    fronts st !! m = Some front -> j ∈ front ->
    rank (population st !!! j) = (Z.of_nat m + 1)%Z;
  peeled_nonempty : forall front, front ∈ fronts st -> front <> [];
  peeled_unranked : forall j,
    j ∉ concat (fronts st) -> rank (population st !!! j) = rank (pop !!! j);
  peeled_first : forall front, fronts st !! 0%nat = Some front -> front = firstFront pop;
  peeled_index : (k <= length (fronts st) <= S k)%nat
}.

(** The fronts that [rankPopulation] works with. *)
Record Fronts (pop : list Individual) (st : Sorting) : Prop := mkFronts {
  fronts_partition : concat (fronts st) ≡ₚ seq 0 (length pop);
  fronts_nonempty : forall front, front ∈ fronts st -> front <> [];
  fronts_rank : forall m front j,
    fronts st !! m = Some front -> j ∈ front ->
    rank (population st !!! j) = (Z.of_nat m + 1)%Z;
  fronts_first : forall front, fronts st !! 0%nat = Some front -> front = firstFront pop;
  fronts_length : length (population st) = length pop;
  fronts_same : forall x, sameButRank (population st !!! x) (pop !!! x)
}.

Definition sameButCrowding (a b : Individual) : Prop :=
  params a = params b /\ objectives a = objectives b /\ rank a = rank b.

(** [pop'] is [pop] with some crowding distances raised to infinity or
    summed up: nothing else changed, and infinity stays. *)
Record Crowded (pop pop' : list Individual) : Prop := mkCrowded {
  crowded_length : length pop' = length pop;
  crowded_same : forall x, sameButCrowding (pop' !!! x) (pop !!! x);
  crowded_infinity : forall x,
    crowdingDistance (pop !!! x) = Infinity -> crowdingDistance (pop' !!! x) = Infinity
}.

(** What the crowding step leaves in a front. *)
Definition FrontCrowded (pop : list Individual) (front : list nat) : Prop :=
  ((length front <= 2)%nat ->
     forall i, i ∈ front -> crowdingDistance (pop !!! i) = Infinity)
  /\ ((2 < length front)%nat ->
        forall objIdx, (objIdx < 3)%nat ->
        exists imin imax,
          imin ∈ front /\ imax ∈ front
          /\ crowdingDistance (pop !!! imin) = Infinity
          /\ crowdingDistance (pop !!! imax) = Infinity
          /\ forall x, x ∈ front ->
               objective pop imin objIdx <= objective pop x objIdx
               /\ objective pop x objIdx <= objective pop imax objIdx).

(** What [rankPopulation] returns for [pop]: the population with ranks and
    crowding distances, and the fronts. *)
Record Ranked (pop pop' : list Individual) (fs : list (list nat)) : Prop := mkRanked {
  ranked_partition : concat fs ≡ₚ seq 0 (length pop);
  ranked_nonempty : forall front, front ∈ fs -> front <> [];
  ranked_rank : forall m front j,
    fs !! m = Some front -> j ∈ front -> rank (pop' !!! j) = (Z.of_nat m + 1)%Z;
  ranked_first : forall front, fs !! 0%nat = Some front -> front = firstFront pop;
  ranked_length : length pop' = length pop;
  ranked_same : forall x,
    params (pop' !!! x) = params (pop !!! x)
    /\ objectives (pop' !!! x) = objectives (pop !!! x);
  ranked_crowded : forall front, front ∈ fs -> FrontCrowded pop' front
}.

(** [evaluateObjectives] changes the objectives only. *)
Definition Evaluated (ind ind' : Individual) : Prop :=
  params ind' = params ind /\ rank ind' = rank ind
  /\ crowdingDistance ind' = crowdingDistance ind
  /\ length (objectives ind') = 3%nat.

Definition ValidConfig (cfg : Config) : Prop :=
  0 < duration cfg /\ 0.5 <= loadFactor cfg <= 2.0
  /\ (10 <= populationSize cfg)%Z /\ (1 <= generations cfg)%Z.

(** An individual whose objective vector has three entries and satisfies
    [Phi], a property of objective vectors. *)
Definition Scored (Phi : list Q -> Prop) (ind : Individual) : Prop :=
  length (objectives ind) = 3%nat /\ Phi (objectives ind).

(** A population of the configured size whose individuals are scored. *)
Definition Good (cfg : Config) (Phi : list Q -> Prop) (pop : list Individual) : Prop :=
  length pop = Z.to_nat (populationSize cfg) /\ Forall (Scored Phi) pop.

(** What one generation does to a good population [pop]: the offspring,
    the combined population of twice the size, its ranking, and the next
    population [pop'] chosen from it. *)
Definition Generation (cfg : Config) (Phi : list Q -> Prop)
    (pop pop' : list Individual) : Prop :=
  length pop' = Z.to_nat (populationSize cfg)
  /\ exists offspring ranked fs,
       Good cfg Phi offspring
       /\ Forall (fun o => rank o = 0%Z /\ crowdingDistance o = Finite 0) offspring
       /\ length (pop ++ offspring) = (2 * Z.to_nat (populationSize cfg))%nat
       /\ rankPopulation (pop ++ offspring) = Some (ranked, fs)
       /\ Ranked (pop ++ offspring) ranked fs
       /\ pop' = selectNextGeneration (Z.to_nat (populationSize cfg)) ranked fs
       /\ forall ind, ind ∈ pop' ->
            exists i, (i < 2 * Z.to_nat (populationSize cfg))%nat /\ ind = ranked !!! i.

(** *** Vocabulary of the further properties *)

(** The fronts are layered by dominance: whoever dominates a member of
    front [m] sits in an earlier front, and a member of a later front is
    dominated by a member of the front just before it. *)
Definition Layered (pop : list Individual) (fs : list (list nat)) : Prop :=
  forall m front j, fs !! m = Some front -> j ∈ front ->
    (forall i, (i < length pop)%nat -> dom pop i j = true -> i ∈ concat (take m fs))
    /\ ((0 < m)%nat ->
        exists front' i, fs !! (m - 1)%nat = Some front' /\ i ∈ front'
                         /\ dom pop i j = true).


(** Every run of [p] on draws in [0, 1) enters the objective oracle
    exactly [n] times before it returns or throws, and the iteration
    budget is never used up. *)
Fixpoint calls {A : Type} (n : nat) (p : Prog A) : Prop :=
  match p with
  | Ret _ => n = 0%nat
  | Draw k => forall u : Q, 0 <= u < 1 -> calls n (k u)
  | Oracle k => match n with O => False | S m => calls m k end
  | Throw _ => n = 0%nat
  | Spin => False
  end.

(** The generator state after [n] draws. *)
Definition afterDraws (G : Generator) (n : nat) (s : Rng G) : Rng G :=
  Nat.iter n (fun s => snd (next G s)) s.


(** Objectives of an evaluation that went through: within the ranges the
    formulas allow inside the parameter space. *)
Definition ObjectivesInRange (o : list Q) : Prop :=
  exists v l t,
    o = [v; l; t]
    /\ v <= 4.16 /\ l <= -1000 /\ 18.9 <= t <= 45.

Definition InRange (ind : Individual) : Prop := ObjectivesInRange (objectives ind).


(** [x] lies in the range BLX-alpha blends [p1] and [p2] over: the
    interval between them, widened by half their distance on each side. *)
Definition Blended (p1 p2 x : Q) : Prop :=
  std_min p1 p2 - 0.5 * Qabs (p1 - p2) <= x <= std_max p1 p2 + 0.5 * Qabs (p1 - p2).

(** [o] recombines [p1] and [p2]: every continuous field blended (the
    speed then truncated), every categorical field taken from one of the
    two. *)
Record Recombined (p1 p2 o : SpindleParameters) : Prop := mkRecombined {
  rec_power : Blended (powerRating p1) (powerRating p2) (powerRating o);
  rec_speed : exists v, Blended (inject_Z (maxSpeed p1)) (inject_Z (maxSpeed p2)) v
                        /\ maxSpeed o = truncate v;
  rec_wheel : Blended (wheelDiameter p1) (wheelDiameter p2) (wheelDiameter o);
  rec_preload : Blended (bearingPreload p1) (bearingPreload p2) (bearingPreload o);
  rec_align : Blended (alignmentTolerance p1) (alignmentTolerance p2) (alignmentTolerance o);
  rec_spindle : spindleType o = spindleType p1 \/ spindleType o = spindleType p2;
  rec_bearing : bearingType o = bearingType p1 \/ bearingType o = bearingType p2;
  rec_cooling : coolingType o = coolingType p1 \/ coolingType o = coolingType p2;
  rec_lubrication :
    lubricationType o = lubricationType p1 \/ lubricationType o = lubricationType p2;
  rec_tool : toolInterface o = toolInterface p1 \/ toolInterface o = toolInterface p2
}.

(** The same parameter set, the doubles compared by value. *)
Record SameParameters (p q : SpindleParameters) : Prop := mkSameParameters {
  same_power : powerRating p == powerRating q;
  same_speed : maxSpeed p = maxSpeed q;
  same_wheel : wheelDiameter p == wheelDiameter q;
  same_preload : bearingPreload p == bearingPreload q;
  same_align : alignmentTolerance p == alignmentTolerance q;
  same_spindle : spindleType p = spindleType q;
  same_bearing : bearingType p = bearingType q;
  same_cooling : coolingType p = coolingType q;
  same_lubrication : lubricationType p = lubricationType q;
  same_tool : toolInterface p = toolInterface q
}.

(** A generator whose every draw is 0.5. *)
Definition steady : Generator := mkGenerator unit (fun s => (0.5, s)).


(** [p] always returns, with a result that satisfies [P], after exactly
    [n] entries into the oracle. *)
Definition spec {A : Type} (P : A -> Prop) (n : nat) (p : Prog A) : Prop :=
  always P p /\ calls n p.

(** An individual as the loop keeps it: parameters inside the parameter
    space and three objectives that satisfy [Phi]. *)
Definition Sound (Phi : list Q -> Prop) (ind : Individual) : Prop :=
  ParameterSpace (params ind) /\ length (objectives ind) = 3%nat
  /\ Phi (objectives ind).

(** A population of the configured size whose individuals are sound. *)
Definition Sized (cfg : Config) (Phi : list Q -> Prop) (pop : list Individual) : Prop :=
  length pop = Z.to_nat (populationSize cfg) /\ Forall (Sound Phi) pop.




(** [pop'] is [pop] with crowding distances that have only grown. *)
Record Grown (pop pop' : list Individual) : Prop := mkGrown {
  grown_crowded : Crowded pop pop';
  grown_le : forall x,
    xgtb (crowdingDistance (pop !!! x)) (crowdingDistance (pop' !!! x)) = false
}.





(* ================================================================== *)
(** * Verification *)

(** ** The program logic *)

Lemma post_mono {A : Type} (P P' : A -> Prop) (E E' : string -> Prop) (p : Prog A) :
  (forall a, P a -> P' a) -> (forall e, E e -> E' e) -> post P E p -> post P' E' p.
Proof.
  intros HP HE. induction p as [a | k IH | k IH | what | ]; simpl; auto.
Qed.

Lemma post_bind {A B : Type} (P : A -> Prop) (R : B -> Prop) (E : string -> Prop)
    (p : Prog A) (f : A -> Prog B) :
  post P E p -> (forall a, P a -> post R E (f a)) -> post R E (bind p f).
Proof.
  intros Hp Hf. induction p as [a | k IH | k IH | what | ]; simpl in *; auto.
Qed.

Lemma always_mono {A : Type} (P P' : A -> Prop) (p : Prog A) :
  (forall a, P a -> P' a) -> always P p -> always P' p.
Proof. intros HP. apply post_mono; auto. Qed.

Lemma always_bind {A B : Type} (P : A -> Prop) (R : B -> Prop)
    (p : Prog A) (f : A -> Prog B) :
  always P p -> (forall a, P a -> always R (f a)) -> always R (bind p f).
Proof. apply post_bind. Qed.

Lemma always_post {A : Type} (P : A -> Prop) (E : string -> Prop) (p : Prog A) :
  always P p -> post P E p.
Proof. apply post_mono; [auto | tauto]. Qed.

Lemma always_dist : always (fun u => 0 <= u < 1) dist.
Proof. intros u Hu. exact Hu. Qed.

Lemma post_try_catch {A : Type} (P : A -> Prop) (E E' : string -> Prop)
    (p : Prog A) (handler : string -> Prog A) :
  post P E p -> (forall e, E e -> post P E' (handler e)) ->
  post P E' (try_catch p handler).
Proof.
  intros Hp Hh. induction p as [a | k IH | k IH | what | ]; simpl in *; auto.
Qed.

Lemma always_forEach {A B : Type} (I : A -> Prop) (xs : list B)
    (body : A -> B -> Prog A) (acc : A) :
  I acc ->
  (forall acc x, x ∈ xs -> I acc -> always I (body acc x)) ->
  always I (forEach xs body acc).
Proof.
  revert acc. induction xs as [| x xs IH]; intros acc Hacc Hbody; simpl.
  - exact Hacc.
  - eapply always_bind.
    + apply Hbody; [left | exact Hacc].
    + intros acc' Hacc'. apply IH; [exact Hacc' |].
      intros acc'' y Hy. apply Hbody. by right.
Qed.

(** Soundness: a generator whose draws lie in [0, 1) realises the
    outcome specification. *)
Lemma run_post (G : Generator) {A : Type} (P : A -> Prop) (E : string -> Prop)
    (p : Prog A) (w : World G) :
  UnitRange G -> post P E p ->
  (exists a w', run G p w = (Ok a, w') /\ P a)
  \/ (exists e w', run G p w = (Raised e, w') /\ E e).
Proof.
  intros HG. revert w. induction p as [a | k IH | k IH | what | ]; intros w Hp; simpl in *.
  - left. eauto.
  - specialize (HG (rng w)). destruct (next G (rng w)) as [u s]. simpl in HG.
    apply IH, Hp, HG.
  - apply IH, Hp.
  - right. eauto.
  - contradiction.
Qed.

Lemma run_always (G : Generator) {A : Type} (P : A -> Prop) (p : Prog A) (w : World G) :
  UnitRange G -> always P p -> exists a w', run G p w = (Ok a, w') /\ P a.
Proof.
  intros HG Hp. destruct (run_post G P (fun _ => False) p w HG Hp)
    as [H | (e & w' & _ & [])]. exact H.
Qed.

(** ** Numbers *)

Lemma Qltb_lt (a b : Q) : Qltb a b = true <-> a < b.
Proof. unfold Qltb. destruct (Qlt_le_dec a b); split; intros; try done; lra. Qed.

Lemma Qltb_ge (a b : Q) : Qltb a b = false <-> b <= a.
Proof. unfold Qltb. destruct (Qlt_le_dec a b); split; intros; try done; lra. Qed.

Lemma Qleb_le (a b : Q) : Qleb a b = true <-> a <= b.
Proof. unfold Qleb. rewrite negb_true_iff. apply Qltb_ge. Qed.

Lemma Qleb_gt (a b : Q) : Qleb a b = false <-> b < a.
Proof. unfold Qleb. rewrite negb_false_iff. apply Qltb_lt. Qed.

Lemma clamp_bounds (lo hi x : Q) :
  lo <= hi -> lo <= std_max lo (std_min hi x) <= hi.
Proof.
  intros. unfold std_max, std_min, Qltb. repeat destruct Qlt_le_dec; lra.
Qed.

Lemma truncate_bounds (a b : Z) (x : Q) :
  inject_Z a <= x <= inject_Z b -> (a <= truncate x <= b)%Z.
Proof.
  unfold Qle, truncate. simpl. intros [Ha Hb]. split.
  - apply Z.quot_le_lower_bound; lia.
  - apply Z.quot_le_upper_bound; lia.
Qed.

Lemma truncate_inject_Z (z : Z) : truncate (inject_Z z) = z.
Proof. unfold truncate. simpl. apply Z.quot_1_r. Qed.

Lemma truncate_index (n : nat) (u : Q) :
  0 <= u < 1 -> (0 < n)%nat ->
  (Z.to_nat (truncate (u * inject_Z (Z.of_nat n))) < n)%nat.
Proof.
  intros [H0 H1] Hn.
  assert (Hx : 0 <= u * inject_Z (Z.of_nat n) < inject_Z (Z.of_nat n)).
  { assert (0 < inject_Z (Z.of_nat n)) by (unfold Qlt; simpl; lia). split; nra. }
  destruct Hx as [Hx0 Hx1].
  set (x := u * inject_Z (Z.of_nat n)) in *. clearbody x.
  unfold Qle, Qlt, truncate in *. simpl in *.
  assert (Z.quot (Qnum x) (Z.pos (Qden x)) < Z.of_nat n)%Z
    by (apply Z.quot_lt_upper_bound; lia).
  assert (0 <= Z.quot (Qnum x) (Z.pos (Qden x)))%Z by (apply Z.quot_pos; lia).
  lia.
Qed.

Lemma pick_elem_of (choices : list string) (u : Q) :
  0 <= u < 1 -> choices <> [] -> pick choices u ∈ choices.
Proof.
  intros Hu Hne. unfold pick. apply list_elem_of_lookup_total_2.
  apply truncate_index; [exact Hu |]. destruct choices; [done | simpl; lia].
Qed.

(** ** Crossover and mutation stay inside the parameter space *)

Lemma blend_bounds (p1 p2 lo hi : Q) :
  lo <= hi -> always (fun v => lo <= v <= hi) (blend p1 p2 lo hi).
Proof. intros Hle u Hu. simpl. by apply clamp_bounds. Qed.

Lemma coin_either {A : Type} (a b : A) : always (fun v => v = a \/ v = b) (coin a b).
Proof. intros u Hu. simpl. destruct (Qltb u 0.5); auto. Qed.

Lemma coin_elem_of (a b : string) (choices : list string) :
  a ∈ choices -> b ∈ choices -> always (fun v => v ∈ choices) (coin a b).
Proof.
  intros Ha Hb. eapply always_mono; [| apply coin_either].
  intros v [-> | ->]; assumption.
Qed.

Lemma mutateContinuous_bounds (value lo hi : Q) :
  lo <= hi -> lo <= value <= hi ->
  always (fun v => lo <= v <= hi) (mutateContinuous value lo hi).
Proof.
  intros Hle Hv u Hu. simpl. destruct (Qleb mutationProb u); simpl.
  - exact Hv.
  - intros rand Hrand. by apply clamp_bounds.
Qed.

Lemma mutateCategorical_elem_of (value : string) (choices : list string) :
  value ∈ choices -> choices <> [] ->
  always (fun v => v ∈ choices) (mutateCategorical value choices).
Proof.
  intros Hv Hne u Hu. simpl. destruct (Qltb u mutationProb); simpl.
  - intros u' Hu'. by apply pick_elem_of.
  - exact Hv.
Qed.

Ltac next_field lem :=
  eapply always_bind; [apply lem | intros ? ?; cbv beta in * ].

Lemma crossover_parameter_space (parent1 parent2 : Individual) :
  ParameterSpace (params parent1) -> ParameterSpace (params parent2) ->
  always (fun o => ParameterSpace (params o)) (crossover parent1 parent2).
Proof.
  intros [] []. unfold crossover.
  next_field (blend_bounds (powerRating (params parent1))
                (powerRating (params parent2)) 0.5 50.0); [lra |].
  next_field (blend_bounds (inject_Z (maxSpeed (params parent1)))
                (inject_Z (maxSpeed (params parent2))) 1000 30000); [lra |].
  next_field (blend_bounds (wheelDiameter (params parent1))
                (wheelDiameter (params parent2)) 50.0 1000.0); [lra |].
  next_field (blend_bounds (bearingPreload (params parent1))
                (bearingPreload (params parent2)) 100.0 2000.0); [lra |].
  next_field (blend_bounds (alignmentTolerance (params parent1))
                (alignmentTolerance (params parent2)) 0.0001 0.01); [lra |].
  next_field (coin_elem_of (spindleType (params parent1))
                (spindleType (params parent2)) spindleTypes); [done.. |].
  next_field (coin_elem_of (bearingType (params parent1))
                (bearingType (params parent2)) bearingTypes); [done.. |].
  next_field (coin_elem_of (coolingType (params parent1))
                (coolingType (params parent2)) coolingTypes); [done.. |].
  next_field (coin_elem_of (lubricationType (params parent1))
                (lubricationType (params parent2)) lubricationTypes); [done.. |].
  next_field (coin_elem_of (toolInterface (params parent1))
                (toolInterface (params parent2)) toolInterfaces); [done.. |].
  simpl. constructor; simpl;
    first [assumption | lra | by apply (truncate_bounds 1000 30000)].
Qed.

Lemma mutate_parameter_space (ind : Individual) :
  ParameterSpace (params ind) ->
  always (fun o => ParameterSpace (params o)) (mutate ind).
Proof.
  intros []. unfold mutate.
  next_field (mutateContinuous_bounds (powerRating (params ind)) 0.5 50.0); [lra.. |].
  next_field (mutateContinuous_bounds (inject_Z (maxSpeed (params ind))) 1000 30000);
    [lra | simpl; unfold Qle; simpl; lia |].
  next_field (mutateContinuous_bounds (wheelDiameter (params ind)) 50.0 1000.0); [lra.. |].
  next_field (mutateContinuous_bounds (bearingPreload (params ind)) 100.0 2000.0); [lra.. |].
  next_field (mutateContinuous_bounds (alignmentTolerance (params ind)) 0.0001 0.01); [lra.. |].
  next_field (mutateCategorical_elem_of (spindleType (params ind)) spindleTypes); [done.. |].
  next_field (mutateCategorical_elem_of (bearingType (params ind)) bearingTypes); [done.. |].
  next_field (mutateCategorical_elem_of (coolingType (params ind)) coolingTypes); [done.. |].
  next_field (mutateCategorical_elem_of (lubricationType (params ind)) lubricationTypes);
    [done.. |].
  next_field (mutateCategorical_elem_of (toolInterface (params ind)) toolInterfaces); [done.. |].
  simpl. constructor; simpl;
    first [assumption | lra | by apply (truncate_bounds 1000 30000)].
Qed.

(** C5. For parents inside the parameter space, [crossover] and [mutate]
    return an individual inside it as well: the five continuous fields
    within their bounds, the five categorical fields members of their
    enumerations ([ParameterSpace]). *)
Theorem crossover_mutate_preserve_parameter_space
    (G : Generator) (w : World G) (parent1 parent2 : Individual) :
  UnitRange G ->
  ParameterSpace (params parent1) -> ParameterSpace (params parent2) ->
  (exists o w', run G (crossover parent1 parent2) w = (Ok o, w')
                /\ ParameterSpace (params o))
  /\ (exists o w', run G (mutate parent1) w = (Ok o, w')
                   /\ ParameterSpace (params o)).
Proof.
  intros HG H1 H2. split.
  - apply run_always; [exact HG |]. by apply crossover_parameter_space.
  - apply run_always; [exact HG |]. by apply mutate_parameter_space.
Qed.

(** ** Input validation *)

(** C7. A configuration with a non-positive duration, a load factor
    outside [0.5, 2.0], a population size below 10 or no generation is
    turned away with one of the three error texts, and the program that
    does so is a bare return: it draws nothing from the generator and
    never enters the objective oracle, so the world is left as it was. *)
Theorem invalid_inputs_rejected (cfg : Config) :
  duration cfg <= 0 \/ loadFactor cfg < 0.5 \/ 2.0 < loadFactor cfg
  \/ (populationSize cfg < 10)%Z \/ (generations cfg < 1)%Z ->
  exists what,
    what ∈ ["Duration must be positive";
            "Load factor must be between 0.5 and 2.0";
            "Population size must be at least 10 and generations at least 1"]
    /\ optimizeSpindleArrangement cfg
       = Ret (Failed ("Error: Optimization failed - " ++ what ++ newline)%string)
    /\ forall (G : Generator) (w : World G),
         run G (optimizeSpindleArrangement cfg) w
         = (Ok (Failed ("Error: Optimization failed - " ++ what ++ newline)%string), w).
Proof.
  intros Hbad.
  assert (Hthrow : exists what,
    what ∈ ["Duration must be positive";
            "Load factor must be between 0.5 and 2.0";
            "Population size must be at least 10 and generations at least 1"]
    /\ validateInputs cfg = Throw what).
  { unfold validateInputs.
    destruct (Qleb (duration cfg) 0.0) eqn:Hd.
    { eexists; split; [| reflexivity]. rewrite !elem_of_cons. auto. }
    destruct (Qltb (loadFactor cfg) 0.5 || Qltb 2.0 (loadFactor cfg)) eqn:Hl.
    { eexists; split; [| reflexivity]. rewrite !elem_of_cons. auto. }
    destruct ((populationSize cfg <? 10)%Z || (generations cfg <? 1)%Z) eqn:Hp.
    { eexists; split; [| reflexivity]. rewrite !elem_of_cons. auto. }
    exfalso. apply Qleb_gt in Hd. apply orb_false_iff in Hl as [Hl1 Hl2].
    apply Qltb_ge in Hl1, Hl2. apply orb_false_iff in Hp as [Hp1 Hp2].
    apply Z.ltb_ge in Hp1, Hp2.
    destruct Hbad as [? | [? | [? | [? | ?]]]]; try lra; lia. }
  destruct Hthrow as (what & Hin & Hthrow). exists what.
  assert (Heq : optimizeSpindleArrangement cfg
       = Ret (Failed ("Error: Optimization failed - " ++ what ++ newline)%string)).
  { unfold optimizeSpindleArrangement, evolve. rewrite Hthrow. reflexivity. }
  split; [exact Hin |]. split; [exact Heq |].
  intros G w. rewrite Heq. reflexivity.
Qed.

(** ** Dominance is a strict partial order *)

Lemma dominatesFrom_spec (a b : list Q) (flag : bool) :
  length a = length b ->
  dominatesFrom a b flag = true
  <-> Forall2 Qle a b /\ (flag = true \/ ~ Forall2 Qle b a).
Proof.
  revert b flag. induction a as [| x a IH]; intros [| y b] flag Hlen; try done; simpl.
  - split.
    + intros ->. split; [constructor | by left].
    + intros [_ [H | H]]; [done |]. destruct H. constructor.
  - injection Hlen as Hlen. destruct (Qltb y x) eqn:Hyx.
    + apply Qltb_lt in Hyx. split; [done |].
      intros [H _]. apply Forall2_cons in H as [H _]. lra.
    + apply Qltb_ge in Hyx. rewrite (IH b _ Hlen), !Forall2_cons.
      destruct (Qltb x y) eqn:Hxy.
      * apply Qltb_lt in Hxy. split.
        -- intros [H _]. split; [done |]. right. intros [? _]. lra.
        -- intros [[_ H] _]. split; [done | by left].
      * apply Qltb_ge in Hxy. split.
        -- intros [H [Hf | Hf]]; (split; [done |]); [by left |].
           right. intros [_ ?]. done.
        -- intros [[_ H] [Hf | Hf]]; (split; [done |]); [by left |].
           right. intros ?. apply Hf. done.
Qed.

Lemma dominates_spec (a b : Individual) :
  length (objectives a) = length (objectives b) ->
  dominates a b = true
  <-> Forall2 Qle (objectives a) (objectives b)
      /\ ~ Forall2 Qle (objectives b) (objectives a).
Proof.
  intros Hlen. unfold dominates. rewrite dominatesFrom_spec by done.
  split; intros [H1 H2]; (split; [done |]); [by destruct H2 | by right].
Qed.

Lemma Forall2_Qle_trans (a b c : list Q) :
  Forall2 Qle a b -> Forall2 Qle b c -> Forall2 Qle a c.
Proof. apply Forall2_trans. intros x y z ? ?. lra. Qed.

Lemma dominates_irrefl (a : Individual) : dominates a a = false.
Proof.
  destruct (dominates a a) eqn:H; [| done].
  apply dominates_spec in H as [H1 H2]; done.
Qed.

Lemma dominates_asym (a b : Individual) :
  length (objectives a) = length (objectives b) ->
  dominates a b = true -> dominates b a = false.
Proof.
  intros Hlen Hab. destruct (dominates b a) eqn:Hba; [| done].
  apply dominates_spec in Hab as [H1 H2]; [| done].
  apply dominates_spec in Hba as [H3 H4]; done.
Qed.

Lemma dominates_trans (a b c : Individual) :
  length (objectives a) = length (objectives b) ->
  length (objectives b) = length (objectives c) ->
  dominates a b = true -> dominates b c = true -> dominates a c = true.
Proof.
  intros Hab Hbc H1 H2.
  apply dominates_spec in H1 as [H1 H1']; [| done].
  apply dominates_spec in H2 as [H2 H2']; [| done].
  apply dominates_spec; [congruence |]. split.
  - by eapply Forall2_Qle_trans.
  - intros H. apply H1'. by eapply Forall2_Qle_trans.
Qed.

Lemma fold_left_seq_ind {A : Type} (I : nat -> A -> Prop) (f : A -> nat -> A)
    (n : nat) (a : A) :
  I 0%nat a -> (forall k a, (k < n)%nat -> I k a -> I (S k) (f a k)) ->
  I n (fold_left f (seq 0 n) a).
Proof.
  intros H0 Hstep. induction n as [| n IH]; [exact H0 |].
  rewrite seq_S, fold_left_app. simpl. apply Hstep; [lia |].
  apply IH. intros k a' Hk. apply Hstep. lia.
Qed.

Lemma dominates_objectives (a b a' b' : Individual) :
  objectives a = objectives a' -> objectives b = objectives b' ->
  dominates a b = dominates a' b'.
Proof. unfold dominates. by intros -> ->. Qed.

Lemma compareStep_one (i : nat) (st : Sorting) (j : nat) :
  (i < length (dominatedBy st))%nat -> (i < length (dominationCount st))%nat ->
  Compared i st [j] (compareStep i st j).
Proof.
  intros Hd Hc. unfold Compared, compareStep.
  rewrite !filter_cons, !filter_nil. fold (dom (population st) i j).
  fold (dom (population st) j i).
  destruct (decide (i = j)) as [-> | Hij].
  { rewrite !decide_False by tauto. rewrite app_nil_r, Z.add_0_r. done. }
  destruct (dom (population st) i j) eqn:Hdij; simpl.
  { rewrite decide_True by done. rewrite decide_False by (intros (? & ? & ?); done).
    rewrite length_alter, list_lookup_total_alter_eq, Z.add_0_r by done.
    repeat split; try done. by rewrite list_lookup_total_alter_ne. }
  rewrite decide_False by (intros (? & ?); done).
  destruct (dom (population st) j i) eqn:Hdji; simpl.
  - rewrite decide_True by done.
    rewrite length_alter, list_lookup_total_alter_eq, app_nil_r by done.
    repeat split; try done; try (simpl; lia). by rewrite list_lookup_total_alter_ne.
  - rewrite decide_False by (intros (? & ? & ?); done).
    rewrite app_nil_r, Z.add_0_r. done.
Qed.

Lemma Compared_app (i : nat) (st st1 st2 : Sorting) (js1 js2 : list nat) :
  Compared i st js1 st1 -> Compared i st1 js2 st2 -> Compared i st (js1 ++ js2) st2.
Proof.
  intros (A1 & A2 & A3 & A4 & A5 & A6 & A7) (B1 & B2 & B3 & B4 & B5 & B6 & B7).
  unfold Compared. rewrite A1 in *. rewrite !filter_app, length_app.
  rewrite B1, B2, B3, B4, B5, B6, A2, A3, A4, A5, A6.
  repeat split; try done.
  - by rewrite app_assoc.
  - lia.
  - destruct (B7 i' H) as [-> _]. by destruct (A7 i' H) as [-> _].
  - destruct (B7 i' H) as [_ ->]. by destruct (A7 i' H) as [_ ->].
Qed.

Lemma compareStep_fold (i : nat) (js : list nat) (st : Sorting) :
  (i < length (dominatedBy st))%nat -> (i < length (dominationCount st))%nat ->
  Compared i st js (fold_left (compareStep i) js st).
Proof.
  revert st. induction js as [| j js IH]; intros st Hd Hc; simpl.
  - unfold Compared. rewrite !filter_nil, app_nil_r, Z.add_0_r. done.
  - pose proof (compareStep_one i st j Hd Hc) as H1.
    apply (Compared_app i st _ _ [j] js H1). destruct H1 as (_ & _ & E3 & E4 & _).
    apply IH; congruence.
Qed.

Lemma dom_objectives (pop pop' : list Individual) (i j : nat) :
  (forall x, objectives (pop' !!! x) = objectives (pop !!! x)) ->
  dom pop' i j = dom pop i j.
Proof. intros H. unfold dom. by apply dominates_objectives. Qed.

Lemma wrap_snoc (front : list nat) (i : nat) :
  pushFirstFront i (wrap front) = wrap (front ++ [i]).
Proof. destruct front; reflexivity. Qed.

Lemma Scanned_objectives (pop : list Individual) (k : nat) (st : Sorting) :
  Scanned pop k st -> forall x, objectives (population st !!! x) = objectives (pop !!! x).
Proof. intros [] x. rewrite scanned_population0. by case_decide. Qed.

Lemma scanStep_Scanned (pop : list Individual) (k : nat) (st : Sorting) :
  (k < length pop)%nat -> Scanned pop k st -> Scanned pop (S k) (scanStep st k).
Proof.
  intros Hk Hst. pose proof (Scanned_objectives pop k st Hst) as Hobj.
  destruct Hst as [Hlen Hpop Hdl Hcl Hdone Htodo Hfr].
  unfold scanStep. rewrite Hlen.
  destruct (compareStep_fold k (seq 0 (length pop)) st) as (E1 & E2 & E3 & E4 & E5 & E6 & E7);
    [lia | lia |].
  set (st1 := fold_left (compareStep k) (seq 0 (length pop)) st) in *.
  destruct (Htodo k) as [Hd0 Hc0]; [lia |].
  assert (Hdk : dominatedBy st1 !!! k = dominatedSet pop k).
  { rewrite E5, Hd0. simpl. unfold dominatedSet. apply list_filter_iff.
    intros j. by rewrite (dom_objectives pop). }
  assert (Hck : dominationCount st1 !!! k = dominatorCount pop k).
  { rewrite E6, Hc0, Z.add_0_l. unfold dominatorCount. do 2 f_equal.
    apply list_filter_iff. intros j.
    by rewrite (dom_objectives pop _ k j Hobj), (dom_objectives pop _ j k Hobj). }
  assert (Hdone' : forall i, (i < S k)%nat ->
     dominatedBy st1 !!! i = dominatedSet pop i
     /\ dominationCount st1 !!! i = dominatorCount pop i).
  { intros i Hi. destruct (decide (i = k)) as [-> | Hne]; [done |].
    destruct (E7 i Hne) as [-> ->]. apply Hdone. lia. }
  assert (Htodo' : forall i, (S k <= i < length pop)%nat ->
     dominatedBy st1 !!! i = [] /\ dominationCount st1 !!! i = 0%Z).
  { intros i Hi. destruct (E7 i) as [-> ->]; [lia |]. apply Htodo. lia. }
  rewrite Hck. destruct (decide (dominatorCount pop k = 0%Z)) as [Hz | Hnz].
  - constructor; cbn [population fronts dominationCount dominatedBy];
      rewrite ?length_alter; try congruence; try exact Hdone'; try exact Htodo'.
    + intros x. rewrite E1. destruct (decide (x = k)) as [-> | Hne].
      * rewrite list_lookup_total_alter_eq by lia. rewrite Hpop.
        rewrite decide_False by lia. rewrite decide_True by (split; [lia | done]). done.
      * rewrite list_lookup_total_alter_ne by done. rewrite Hpop.
        apply decide_ext. lia.
    + rewrite E2, Hfr, seq_S, filter_app, filter_cons, filter_nil. simpl.
      rewrite decide_True by done. apply wrap_snoc.
  - constructor; cbn [population fronts dominationCount dominatedBy];
      try congruence; try exact Hdone'; try exact Htodo'.
    + intros x. rewrite E1, Hpop. apply decide_ext.
      split; intros [? ?]; split; try done; try lia.
      destruct (decide (x = k)) as [-> | ?]; [done | lia].
    + rewrite E2, Hfr, seq_S, filter_app, filter_cons, filter_nil. simpl.
      rewrite decide_False by done. by rewrite app_nil_r.
Qed.

Lemma scanPopulation_Scanned (pop : list Individual) :
  Scanned pop (length pop) (scanPopulation pop).
Proof.
  unfold scanPopulation.
  apply (fold_left_seq_ind (fun k st => Scanned pop k st)).
  - constructor; cbn [population fronts dominationCount dominatedBy];
      rewrite ?length_replicate; try done.
    + intros i Hi. lia.
    + intros i Hi. rewrite !lookup_total_replicate_2 by lia. done.
  - intros k st Hk Hst. by apply scanStep_Scanned.
Qed.

(** ** Peeling *)

Lemma occurrences_cons (j0 : nat) (js : list nat) (j : nat) :
  occurrences (j0 :: js) j
  = ((if decide (j0 = j) then 1 else 0) + occurrences js j)%Z.
Proof.
  unfold occurrences. simpl. destruct (Nat.eq_dec j0 j); case_decide; try done; lia.
Qed.

Lemma occurrences_nonneg (js : list nat) (j : nat) : (0 <= occurrences js j)%Z.
Proof. unfold occurrences. lia. Qed.

Lemma releaseStep_fold (frontIdx : nat) (js : list nat) (acc : Sorting * list nat) :
  (forall j, j ∈ js -> (j < length (dominationCount acc.1))%nat
                       /\ (j < length (population acc.1))%nat) ->
  exists new, Released frontIdx acc js (fold_left (releaseStep frontIdx) js acc) new.
Proof.
  revert acc. induction js as [| j0 js IH]; intros acc Hjs.
  - exists []. constructor; simpl; try done.
    + intros j. unfold occurrences. simpl. lia.
    + by rewrite app_nil_r.
    + constructor.
    + intros j. unfold occurrences. simpl. split; [by intros ?%elem_of_nil | lia].
  - destruct (Hjs j0) as [Hc Hp]; [left |].
    set (acc1 := releaseStep frontIdx acc j0).
    set (c1 := alter Z.pred j0 (dominationCount acc.1)).
    assert (Hc1 : forall j, c1 !!! j
       = (dominationCount acc.1 !!! j - (if decide (j0 = j) then 1 else 0))%Z).
    { intros j. unfold c1. case_decide as Hj.
      - subst j. rewrite list_lookup_total_alter_eq by done. lia.
      - rewrite list_lookup_total_alter_ne by done. lia. }
    assert (Hacc1 : fronts acc1.1 = fronts acc.1 /\ dominatedBy acc1.1 = dominatedBy acc.1
       /\ dominationCount acc1.1 = c1
       /\ length (population acc1.1) = length (population acc.1)
       /\ acc1.2 = acc.2 ++ (if decide (c1 !!! j0 = 0%Z) then [j0] else [])
       /\ forall j, population acc1.1 !!! j
            = if decide (c1 !!! j0 = 0%Z /\ j = j0)
              then setRank (Z.of_nat frontIdx + 2) (population acc.1 !!! j)
              else population acc.1 !!! j).
    { unfold acc1, releaseStep. fold c1. destruct (decide (c1 !!! j0 = 0%Z)) as [Hz | Hz]; simpl.
      - rewrite length_alter. repeat split; try done. intros j.
        case_decide as Hj.
        + destruct Hj as [_ ->]. by rewrite list_lookup_total_alter_eq.
        + rewrite list_lookup_total_alter_ne; [done |]. intros ->. tauto.
      - rewrite app_nil_r. repeat split; try done. intros j.
        rewrite decide_False by tauto. done. }
    destruct Hacc1 as (A1 & A2 & A3 & A4 & A5 & A6).
    destruct (IH acc1) as [new1 []].
    { intros j Hj. rewrite A3, A4. unfold c1. rewrite length_alter.
      apply Hjs. by right. }
    exists ((if decide (c1 !!! j0 = 0%Z) then [j0] else []) ++ new1).
    assert (Hj0 : c1 !!! j0 = 0%Z -> j0 ∉ new1).
    { intros Hz Hin. apply released_new0 in Hin. rewrite A3, Hz in Hin. lia. }
    constructor; simpl; fold acc1; try congruence.
    + rewrite released_count_length0, A3. unfold c1. by rewrite length_alter.
    + intros j. rewrite released_count0, A3, Hc1, occurrences_cons. lia.
    + rewrite released_next0, A5. by rewrite app_assoc.
    + case_decide; simpl; [| done]. apply NoDup_cons. split; [| done]. by apply Hj0.
    + intros j. pose proof (occurrences_nonneg js j).
      pose proof (Hc1 j0) as Hc10. rewrite decide_True in Hc10 by done.
      pose proof (Hc1 j) as Hc1j.
      rewrite elem_of_app, released_new0, A3, occurrences_cons.
      destruct (decide (c1 !!! j0 = 0%Z)) as [Hz | Hz].
      * rewrite list_elem_of_singleton. destruct (decide (j0 = j)) as [<- | Hne].
        -- split; [intros [_ | ?]; lia | intros _; by left].
        -- split; [intros [-> | ?]; [done | lia] | intros ?; right; lia].
      * rewrite elem_of_nil. destruct (decide (j0 = j)) as [<- | Hne].
        -- split; [intros [[] | ?]; lia | intros ?; right; lia].
        -- split; [intros [[] | ?]; lia | intros ?; right; lia].
    + intros j. rewrite released_population0, A6.
      assert (Hiff : j ∈ (if decide (c1 !!! j0 = 0%Z) then [j0] else []) ++ new1
                     <-> (c1 !!! j0 = 0%Z /\ j = j0) \/ j ∈ new1).
      { rewrite elem_of_app. destruct (decide (c1 !!! j0 = 0%Z));
          rewrite ?list_elem_of_singleton, ?elem_of_nil; tauto. }
      repeat case_decide; try done; exfalso; tauto.
Qed.

Section Dominance.

Variable pop : list Individual.
Hypothesis Hthree : ThreeObjectives pop.

Local Abbreviation n := (length pop).

Lemma objectives_three (i : nat) : (i < n)%nat -> length (objectives (pop !!! i)) = 3%nat.
Proof. intros Hi. by apply (Forall_lookup_total_1 _ _ _ Hthree). Qed.

Lemma dom_irrefl (i : nat) : dom pop i i = false.
Proof. apply dominates_irrefl. Qed.

Lemma dom_asym (i j : nat) :
  (i < n)%nat -> (j < n)%nat -> dom pop i j = true -> dom pop j i = false.
Proof. intros Hi Hj. apply dominates_asym. by rewrite !objectives_three. Qed.

Lemma dom_trans (i j k : nat) :
  (i < n)%nat -> (j < n)%nat -> (k < n)%nat ->
  dom pop i j = true -> dom pop j k = true -> dom pop i k = true.
Proof. intros Hi Hj Hk. apply dominates_trans; by rewrite !objectives_three. Qed.

Lemma filter_iff_elem_of {A : Type} (P Q : A -> Prop)
    `{!forall x, Decision (P x)} `{!forall x, Decision (Q x)} (l : list A) :
  (forall x, x ∈ l -> P x <-> Q x) -> filter P l = filter Q l.
Proof.
  induction l as [| x l IH]; intros Hl; [done |].
  rewrite !filter_cons. rewrite IH by (intros y Hy; apply Hl; by right).
  destruct (decide (P x)) as [HP | HP], (decide (Q x)) as [HQ | HQ]; try done.
  - destruct HQ. apply Hl; [left | done].
  - destruct HP. apply Hl; [left | done].
Qed.

Lemma dominatorCount_ndom (j : nat) :
  (j < n)%nat -> dominatorCount pop j = Z.of_nat (ndom pop (seq 0 n) j).
Proof.
  intros Hj. unfold dominatorCount, ndom. do 2 f_equal.
  apply filter_iff_elem_of. intros i Hi. apply elem_of_seq in Hi. split.
  - tauto.
  - intros Hd. split; [| split; [| done]].
    + intros ->. by rewrite dom_irrefl in Hd.
    + apply dom_asym; [lia | done | done].
Qed.

Lemma dominatedSet_elem_of (i j : nat) :
  j ∈ dominatedSet pop i <-> dom pop i j = true /\ (j < n)%nat.
Proof.
  unfold dominatedSet. rewrite list_elem_of_filter, elem_of_seq. split.
  - intros [[_ ?] ?]. split; [done | lia].
  - intros [Hd ?]. split; [split; [| done] | lia].
    intros ->. by rewrite dom_irrefl in Hd.
Qed.

Lemma dominatedSet_NoDup (i : nat) : NoDup (dominatedSet pop i).
Proof. apply NoDup_filter, NoDup_seq. Qed.

Lemma occurrences_dominatedSet (i j : nat) :
  (j < n)%nat ->
  occurrences (dominatedSet pop i) j = if dom pop i j then 1%Z else 0%Z.
Proof.
  intros Hj. unfold occurrences. destruct (dom pop i j) eqn:Hd.
  - assert (Hin : In j (dominatedSet pop i)).
    { apply list_elem_of_In, dominatedSet_elem_of. done. }
    pose proof (proj1 (NoDup_count_occ' Nat.eq_dec (dominatedSet pop i))
                  (proj1 (NoDup_ListNoDup _) (dominatedSet_NoDup i)) j Hin) as ->. done.
  - rewrite (proj1 (count_occ_not_In Nat.eq_dec (dominatedSet pop i) j)); [done |].
    intros Hin%list_elem_of_In%dominatedSet_elem_of. destruct Hin. congruence.
Qed.

Lemma ndom_app (l1 l2 : list nat) (j : nat) :
  ndom pop (l1 ++ l2) j = (ndom pop l1 j + ndom pop l2 j)%nat.
Proof. unfold ndom. by rewrite filter_app, length_app. Qed.

Lemma ndom_cons (i : nat) (l : list nat) (j : nat) :
  ndom pop (i :: l) j = ((if dom pop i j then 1 else 0) + ndom pop l j)%nat.
Proof. unfold ndom. rewrite filter_cons. destruct (dom pop i j); by case_decide. Qed.

Lemma ndom_Permutation (l1 l2 : list nat) (j : nat) :
  l1 ≡ₚ l2 -> ndom pop l1 j = ndom pop l2 j.
Proof. intros H. unfold ndom. by rewrite H. Qed.

Lemma occurrences_app (l1 l2 : list nat) (j : nat) :
  occurrences (l1 ++ l2) j = (occurrences l1 j + occurrences l2 j)%Z.
Proof. unfold occurrences. rewrite count_occ_app. lia. Qed.

Lemma occurrences_released (front : list nat) (j : nat) :
  (j < n)%nat ->
  occurrences (concat (map (dominatedSet pop) front)) j = Z.of_nat (ndom pop front j).
Proof.
  intros Hj. induction front as [| i front IH]; [done |].
  simpl. rewrite occurrences_app, IH, occurrences_dominatedSet, ndom_cons by done.
  destruct (dom pop i j); lia.
Qed.

(** A duplicate-free list of indices splits the index range. *)
Lemma indices_split (l : list nat) :
  NoDup l -> (forall x, x ∈ l -> (x < n)%nat) -> exists rest, seq 0 n ≡ₚ l ++ rest.
Proof.
  intros Hnd Hb. apply submseteq_Permutation, NoDup_submseteq; [done |].
  intros x Hx. apply elem_of_seq. specialize (Hb x Hx). lia.
Qed.

Lemma ndom_le (l : list nat) (j : nat) :
  NoDup l -> (forall x, x ∈ l -> (x < n)%nat) ->
  (ndom pop l j <= ndom pop (seq 0 n) j)%nat.
Proof.
  intros Hnd Hb. destruct (indices_split l Hnd Hb) as [rest Hrest].
  rewrite (ndom_Permutation _ _ j Hrest), ndom_app. lia.
Qed.

Lemma ndom_zero (l : list nat) (j : nat) :
  ndom pop l j = 0%nat <-> forall i, i ∈ l -> dom pop i j = false.
Proof.
  unfold ndom. rewrite length_zero_iff_nil. split.
  - intros H i Hi. destruct (dom pop i j) eqn:Hd; [| done].
    assert (i ∈ filter (fun i => dom pop i j = true) l)
      by (by apply list_elem_of_filter).
    rewrite H in *. by apply elem_of_nil in H0.
  - intros H. apply elem_of_nil_inv. intros i [Hd Hi]%list_elem_of_filter.
    rewrite H in Hd; done.
Qed.

(** All dominators of [j] lie in [l] exactly when [l] holds as many of
    them as the whole range. *)
Lemma ndom_all (l : list nat) (j : nat) :
  NoDup l -> (forall x, x ∈ l -> (x < n)%nat) ->
  ndom pop l j = ndom pop (seq 0 n) j
  <-> forall i, (i < n)%nat -> dom pop i j = true -> i ∈ l.
Proof.
  intros Hnd Hb. destruct (indices_split l Hnd Hb) as [rest Hrest].
  rewrite (ndom_Permutation _ _ j Hrest), ndom_app.
  assert (Hnd' : NoDup (l ++ rest)) by (rewrite <- Hrest; apply NoDup_seq).
  apply NoDup_app in Hnd' as (_ & Hdisj & _).
  split.
  - intros H i Hi Hd. assert (Hz : ndom pop rest j = 0%nat) by lia.
    assert (Hin : i ∈ l ++ rest) by (rewrite <- Hrest; apply elem_of_seq; lia).
    apply elem_of_app in Hin as [? | Hin]; [done |].
    rewrite (proj1 (ndom_zero rest j) Hz i Hin) in Hd. done.
  - intros H. assert (Hz : ndom pop rest j = 0%nat); [| lia].
    apply ndom_zero. intros i Hi. destruct (dom pop i j) eqn:Hd; [| done].
    assert (Hin : i ∈ seq 0 n) by (rewrite Hrest; apply elem_of_app; by right).
    apply elem_of_seq in Hin. destruct (Hdisj i); [| done]. apply H; [lia | done].
Qed.

Lemma ndom_lt (i j : nat) :
  (i < n)%nat -> (j < n)%nat -> dom pop i j = true ->
  (ndom pop (seq 0 n) i < ndom pop (seq 0 n) j)%nat.
Proof.
  intros Hi Hj Hd. unfold ndom.
  assert (Hsub : i :: filter (fun k => dom pop k i = true) (seq 0 n)
                 ⊆+ filter (fun k => dom pop k j = true) (seq 0 n)).
  { apply NoDup_submseteq.
    - apply NoDup_cons. split; [| apply NoDup_filter, NoDup_seq].
      intros [Hii _]%list_elem_of_filter. by rewrite dom_irrefl in Hii.
    - intros k [-> | [Hk Hin]%list_elem_of_filter]%elem_of_cons;
        apply list_elem_of_filter.
      + split; [done | apply elem_of_seq; lia].
      + split; [| done]. apply elem_of_seq in Hin.
        apply (dom_trans k i j); [lia | done | done | done | done]. }
  apply submseteq_length in Hsub. simpl in Hsub. lia.
Qed.

End Dominance.

Lemma sameButRank_refl (a : Individual) : sameButRank a a.
Proof. done. Qed.

Lemma sameButRank_setRank (r : Z) (a b : Individual) :
  sameButRank a b -> sameButRank (setRank r a) b.
Proof. done. Qed.

Lemma concat_wrap (front : list nat) : concat (wrap front) = front.
Proof. destruct front; [done |]. simpl. by rewrite app_nil_r. Qed.

Lemma scanPopulation_Peeled (pop : list Individual) :
  ThreeObjectives pop -> Peeled pop 0 (scanPopulation pop).
Proof.
  intros Hthree. destruct (scanPopulation_Scanned pop)
    as [Hlen Hpop Hdl Hcl Hdone Htodo Hfr].
  assert (Hin : forall j, j ∈ concat (fronts (scanPopulation pop))
     <-> dominatorCount pop j = 0%Z /\ (j < length pop)%nat).
  { intros j. rewrite Hfr, concat_wrap, list_elem_of_filter, elem_of_seq. intuition lia. }
  constructor; try done.
  - intros x. rewrite Hpop. case_decide; [by apply sameButRank_setRank | done].
  - intros i Hi. by apply Hdone.
  - rewrite Hfr, concat_wrap. apply NoDup_filter, NoDup_seq.
  - intros j Hj. by apply Hin.
  - intros j Hj. destruct (Hdone j Hj) as [_ ->]. simpl.
    rewrite dominatorCount_ndom by done. unfold ndom. simpl. lia.
  - intros j Hj. destruct (Hdone j Hj) as [_ ->]. rewrite Hin. tauto.
  - intros m front j Hm Hj. rewrite Hfr in Hm.
    assert (Hfront : front = filter (fun i => dominatorCount pop i = 0%Z) (seq 0 (length pop))
                     /\ m = 0%nat).
    { destruct (filter _ _) eqn:Hf; [done |]. destruct m; [| done]. simpl in Hm.
      by injection Hm as <-. }
    destruct Hfront as [-> ->]. apply list_elem_of_filter in Hj as [Hz Hj].
    apply elem_of_seq in Hj. rewrite Hpop, decide_True by (split; [lia | done]). done.
  - intros front. rewrite Hfr. destruct (filter _ _) eqn:Hf; simpl.
    + by intros ?%elem_of_nil.
    + by intros ->%list_elem_of_singleton.
  - intros j Hj. rewrite Hpop, decide_False; [done |].
    intros [? ?]. apply Hj, Hin. done.
  - intros front. rewrite Hfr. unfold firstFront.
    destruct (filter _ _) eqn:Hf; [done |]. simpl. by intros [= <-].
  - rewrite Hfr. destruct (filter _ _); simpl; lia.
Qed.

Lemma releaseStep_dominatedBy (frontIdx : nat) (js : list nat) (acc : Sorting * list nat) :
  dominatedBy (fold_left (releaseStep frontIdx) js acc).1 = dominatedBy acc.1.
Proof.
  revert acc. induction js as [| j js IH]; intros acc; [done |].
  simpl. rewrite IH. unfold releaseStep. by case_decide.
Qed.

Lemma peelFront_flat (frontIdx : nat) (st : Sorting) (front : list nat) :
  peelFront frontIdx st front
  = fold_left (releaseStep frontIdx)
      (concat (map (fun i => dominatedBy st !!! i) front)) (st, []).
Proof.
  unfold peelFront.
  assert (H : forall acc : Sorting * list nat, dominatedBy acc.1 = dominatedBy st ->
    fold_left (fun acc i => fold_left (releaseStep frontIdx) (dominatedBy acc.1 !!! i) acc)
      front acc
    = fold_left (releaseStep frontIdx)
        (concat (map (fun i => dominatedBy st !!! i) front)) acc).
  { induction front as [| i front IH]; intros acc Hacc; [done |].
    simpl. rewrite fold_left_app, IH, Hacc; [done |].
    by rewrite releaseStep_dominatedBy. }
  by apply H.
Qed.

Lemma afterFront_fields (r : Sorting * list nat) :
  population (afterFront r) = population r.1
  /\ fronts (afterFront r) = fronts r.1 ++ wrap r.2
  /\ dominationCount (afterFront r) = dominationCount r.1
  /\ dominatedBy (afterFront r) = dominatedBy r.1.
Proof.
  unfold afterFront. destruct r as [st [| j next]]; simpl; [| done].
  by rewrite app_nil_r.
Qed.

Lemma occurrences_zero (js : list nat) (j : nat) : j ∉ js -> occurrences js j = 0%Z.
Proof.
  intros Hj. unfold occurrences.
  rewrite (proj1 (count_occ_not_In Nat.eq_dec js j)); [done |].
  by rewrite <- list_elem_of_In.
Qed.

Lemma elem_of_concat {A : Type} (x : A) (ls : list (list A)) :
  x ∈ concat ls <-> exists l, x ∈ l /\ l ∈ ls.
Proof.
  induction ls as [| l ls IH]; simpl.
  - split; [by intros ?%elem_of_nil | by intros (? & _ & ?%elem_of_nil)].
  - rewrite elem_of_app, IH. split.
    + intros [? | (l' & ? & ?)]; [exists l; split; [done | left] |].
      exists l'. split; [done | by right].
    + intros (l' & Hx & [-> | ?]%elem_of_cons); [by left |]. right. by exists l'.
Qed.

Lemma elem_of_map {A B : Type} (f : A -> B) (l : list A) (y : B) :
  y ∈ map f l <-> exists x, y = f x /\ x ∈ l.
Proof.
  rewrite list_elem_of_In, in_map_iff. split; intros (x & ? & ?); exists x.
  - by rewrite list_elem_of_In.
  - by rewrite <- list_elem_of_In.
Qed.

Lemma peelFront_Peeled (pop : list Individual) (k : nat) (st : Sorting) (front : list nat) :
  ThreeObjectives pop -> Peeled pop k st -> fronts st !! k = Some front ->
  Peeled pop (S k) (afterFront (peelFront k st front))
  /\ concat (fronts (afterFront (peelFront k st front)))
     = concat (fronts st) ++ (peelFront k st front).2
  /\ length (fronts (afterFront (peelFront k st front)))
     = (S k + length (wrap (peelFront k st front).2))%nat.
Proof.
  intros Hthree [Hlen Hsame Hdby Hcl Hnd Hbound Hcount Hzero Hrank Hne Hunr Hfirst Hidx] Hk.
  assert (Hlenf : length (fronts st) = S k).
  { apply lookup_lt_Some in Hk. lia. }
  assert (Hfront : forall i, i ∈ front -> (i < length pop)%nat).
  { intros i Hi. apply Hbound, elem_of_concat. exists front.
    split; [done | by eapply list_elem_of_lookup_2]. }
  assert (Hconcat : concat (fronts st) = concat (take k (fronts st)) ++ front).
  { rewrite <- (take_ge (fronts st) (S k)) at 1 by lia.
    rewrite (take_S_r _ _ _ Hk), concat_app. simpl. by rewrite app_nil_r. }
  rewrite peelFront_flat.
  assert (Hjs : concat (map (fun i => dominatedBy st !!! i) front)
                = concat (map (dominatedSet pop) front)).
  { f_equal. apply map_ext_in. intros i Hi%list_elem_of_In. apply Hdby, Hfront, Hi. }
  rewrite Hjs. set (js := concat (map (dominatedSet pop) front)).
  assert (Hjsb : forall j, j ∈ js -> (j < length pop)%nat).
  { intros j (l & Hj & Hl)%elem_of_concat.
    apply elem_of_map in Hl as (i & -> & _).
    by apply dominatedSet_elem_of in Hj as [_ ?]. }
  destruct (releaseStep_fold k js (st, [])) as [new [R1 R2 R3 R4 R5 R6 R7 R8 R9]].
  { intros j Hj. simpl. rewrite Hcl, Hlen. split; by apply Hjsb. }
  set (r := fold_left (releaseStep k) js (st, [])) in *. simpl in *.
  destruct (afterFront_fields r) as (F1 & F2 & F3 & F4).
  rewrite R6 in *. rewrite R1 in F2.
  assert (Hocc : forall j, (j < length pop)%nat ->
     occurrences js j = Z.of_nat (ndom pop front j)).
  { intros j Hj. by apply occurrences_released. }
  assert (Hle : forall j, (j < length pop)%nat ->
     (ndom pop (concat (take k (fronts st))) j + ndom pop front j
      <= ndom pop (seq 0 (length pop)) j)%nat).
  { intros j Hj. rewrite <- ndom_app, <- Hconcat. by apply ndom_le. }
  assert (Hnewb : forall j, j ∈ new -> (j < length pop)%nat).
  { intros j Hj. apply R8 in Hj. destruct (decide (j ∈ js)) as [? | Hn]; [by apply Hjsb |].
    rewrite (occurrences_zero js j Hn) in Hj. lia. }
  assert (Hcat : concat (fronts (afterFront r)) = concat (fronts st) ++ new).
  { by rewrite F2, concat_app, concat_wrap. }
  split; [| split; [done | by rewrite F2, length_app, Hlenf]].
  constructor.
  - by rewrite F1, R3.
  - intros x. rewrite F1, R9. case_decide; [apply sameButRank_setRank |]; apply Hsame.
  - intros i Hi. rewrite F4, R2. by apply Hdby.
  - by rewrite F3, R4.
  - rewrite Hcat. apply NoDup_app. split; [done |]. split; [| done].
    intros x Hx Hx'. pose proof (Hbound x Hx) as Hxb.
    apply Hzero in Hx; [| done]. apply R8 in Hx'. lia.
  - intros j. rewrite Hcat, elem_of_app. intros [? | ?]; [by apply Hbound | by apply Hnewb].
  - intros j Hj. rewrite F3, R5, F2.
    rewrite take_app_le by lia. rewrite take_ge by lia.
    rewrite Hconcat, ndom_app, Hcount, Hocc by done. lia.
  - intros j Hj. rewrite Hcat, elem_of_app, F3, R5, R8, Hzero, Hocc by done.
    specialize (Hle j Hj). specialize (Hcount j Hj). lia.
  - intros m fr j Hm Hj. rewrite F1, R9. rewrite F2 in Hm.
    apply lookup_app_Some in Hm as [Hm | [Hm1 Hm2]].
    + assert (Hjc : j ∈ concat (fronts st)).
      { apply elem_of_concat. exists fr. split; [done | by eapply list_elem_of_lookup_2]. }
      rewrite decide_False; [by eapply Hrank |].
      intros Hjn. pose proof (Hbound j Hjc). apply Hzero in Hjc; [| done].
      apply R8 in Hjn. lia.
    + destruct new as [| j0 new]; simpl in Hm2; [done |].
      destruct (m - length (fronts st))%nat eqn:Hd; simpl in Hm2; [| done].
      injection Hm2 as <-. rewrite decide_True by done. simpl. lia.
  - intros fr. rewrite F2, elem_of_app. intros [? | Hfr]; [by apply Hne |].
    destruct new; simpl in Hfr; [by apply elem_of_nil in Hfr |].
    by apply list_elem_of_singleton in Hfr as ->.
  - intros j. rewrite Hcat, not_elem_of_app. intros [Hj1 Hj2].
    rewrite F1, R9, decide_False by done. by apply Hunr.
  - intros fr. rewrite F2, lookup_app_l by lia. apply Hfirst.
  - rewrite F2, length_app, Hlenf. destruct new; simpl; lia.
Qed.

Lemma Peeled_ranked_le (pop : list Individual) (k : nat) (st : Sorting) :
  Peeled pop k st -> (length (concat (fronts st)) <= length pop)%nat.
Proof.
  intros []. rewrite <- (length_seq (length pop) 0).
  apply submseteq_length, NoDup_submseteq; [done |].
  intros x Hx. apply elem_of_seq. specialize (peeled_bound0 x Hx). lia.
Qed.

Lemma peelLoop_Peeled (pop : list Individual) :
  ThreeObjectives pop ->
  forall budget k st,
    Peeled pop k st ->
    (length pop - length (concat (fronts st)) + (length (fronts st) - k) <= budget)%nat ->
    exists st', peelLoop budget k st = Some st' /\ Peeled pop (length (fronts st')) st'.
Proof.
  intros Hthree. induction budget as [| budget IH]; intros k st Hst Hbudget.
  - destruct (fronts st !! k) as [[| i front] |] eqn:Hk.
    + destruct (peeled_nonempty _ _ _ Hst []); [by eapply list_elem_of_lookup_2 | done].
    + apply lookup_lt_Some in Hk. lia.
    + exists st. simpl. rewrite Hk. split; [done |].
      apply lookup_ge_None in Hk. destruct Hst.
      by replace (length (fronts st)) with k by lia.
  - destruct (fronts st !! k) as [[| i front] |] eqn:Hk.
    + destruct (peeled_nonempty _ _ _ Hst []); [by eapply list_elem_of_lookup_2 | done].
    + destruct (peelFront_Peeled pop k st (i :: front) Hthree Hst Hk) as (Hst1 & Hcat & Hlenf).
      simpl. rewrite Hk. fold (afterFront (peelFront k st (i :: front))).
      apply IH; [done |].
      pose proof (Peeled_ranked_le _ _ _ Hst1) as Hle1. rewrite Hcat, length_app in *.
      rewrite Hlenf. apply lookup_lt_Some in Hk.
      destruct ((peelFront k st (i :: front)).2); simpl in *; lia.
    + exists st. simpl. rewrite Hk. split; [done |].
      apply lookup_ge_None in Hk. destruct Hst.
      by replace (length (fronts st)) with k by lia.
Qed.

Lemma Peeled_total (pop : list Individual) (st : Sorting) :
  ThreeObjectives pop -> Peeled pop (length (fronts st)) st ->
  forall j, (j < length pop)%nat -> j ∈ concat (fronts st).
Proof.
  intros Hthree Hst.
  assert (H : forall m j, (ndom pop (seq 0 (length pop)) j < m)%nat ->
            (j < length pop)%nat -> j ∈ concat (fronts st)).
  { induction m as [| m IH]; intros j Hm Hj; [lia |].
    apply (peeled_zero _ _ _ Hst); [done |].
    rewrite (peeled_count _ _ _ Hst) by done. rewrite take_ge by lia.
    assert (ndom pop (concat (fronts st)) j = ndom pop (seq 0 (length pop)) j); [| lia].
    apply ndom_all; [apply (peeled_nodup _ _ _ Hst) | apply (peeled_bound _ _ _ Hst) |].
    intros i Hi Hd. apply IH; [| done].
    pose proof (ndom_lt pop Hthree i j Hi Hj Hd). lia. }
  intros j Hj. by apply (H (S (ndom pop (seq 0 (length pop)) j))); [lia |].
Qed.

Lemma peelLoop_Fronts (pop : list Individual) :
  ThreeObjectives pop ->
  exists st, peelLoop (S (length pop)) 0 (scanPopulation pop) = Some st /\ Fronts pop st.
Proof.
  intros Hthree. pose proof (scanPopulation_Peeled pop Hthree) as H0.
  destruct (peelLoop_Peeled pop Hthree (S (length pop)) 0 _ H0) as (st & Hrun & Hst).
  { pose proof (peeled_index _ _ _ H0). lia. }
  exists st. split; [done |]. constructor.
  - apply NoDup_Permutation; [apply (peeled_nodup _ _ _ Hst) | apply NoDup_seq |].
    intros j. rewrite elem_of_seq. split.
    + intros Hj%(peeled_bound _ _ _ Hst). lia.
    + intros Hj. apply (Peeled_total pop st Hthree Hst). lia.
  - apply (peeled_nonempty _ _ _ Hst).
  - apply (peeled_rank _ _ _ Hst).
  - apply (peeled_first _ _ _ Hst).
  - apply (peeled_length _ _ _ Hst).
  - apply (peeled_same _ _ _ Hst).
Qed.

(** ** Crowding distance *)

(** From here on [std_sort] meets the contract of [std::sort]. *)
Hypothesis Hsort : SortLaws std_sort.

Lemma Crowded_refl (pop : list Individual) : Crowded pop pop.
Proof. by constructor. Qed.

Lemma Crowded_trans (p1 p2 p3 : list Individual) :
  Crowded p1 p2 -> Crowded p2 p3 -> Crowded p1 p3.
Proof.
  intros [A1 A2 A3] [B1 B2 B3]. constructor.
  - congruence.
  - intros x. destruct (A2 x) as (? & ? & ?), (B2 x) as (? & ? & ?).
    repeat split; congruence.
  - intros x Hx. by apply B3, A3.
Qed.

Lemma Crowded_alter (f : Individual -> Individual) (i : nat) (pop : list Individual) :
  (forall ind, sameButCrowding (f ind) ind
               /\ (crowdingDistance ind = Infinity -> crowdingDistance (f ind) = Infinity)) ->
  Crowded pop (alter f i pop).
Proof.
  intros Hf. constructor.
  - apply length_alter.
  - intros x. rewrite list_lookup_total_alter. case_decide as Hx; [| done].
    destruct Hx as [-> _]. apply Hf.
  - intros x Hx. rewrite list_lookup_total_alter. case_decide as Hx'; [| done].
    destruct Hx' as [-> _]. by apply Hf.
Qed.

Lemma Crowded_infinity (i : nat) (pop : list Individual) :
  Crowded pop (alter (setCrowdingDistance Infinity) i pop).
Proof. apply Crowded_alter. intros ind. done. Qed.

Lemma Crowded_fold {B : Type} (f : list Individual -> B -> list Individual)
    (l : list B) (pop : list Individual) :
  (forall p x, Crowded p (f p x)) -> Crowded pop (fold_left f l pop).
Proof.
  intros Hf. revert pop. induction l as [| x l IH]; intros pop; simpl.
  - apply Crowded_refl.
  - eapply Crowded_trans; [apply Hf | apply IH].
Qed.

Lemma accumulateStep_Crowded (sortedFront : list nat) (objIdx : nat) (objRange : Q)
    (pop : list Individual) (i : nat) :
  Crowded pop (accumulateStep sortedFront objIdx objRange pop i).
Proof.
  unfold accumulateStep. case_decide; [| apply Crowded_refl].
  apply Crowded_alter. intros ind. split; [done |]. simpl. by intros ->.
Qed.

Lemma objective_Crowded (pop pop' : list Individual) (i objIdx : nat) :
  Crowded pop pop' -> objective pop' i objIdx = objective pop i objIdx.
Proof. intros [_ H _]. unfold objective. by destruct (H i) as (_ & -> & _). Qed.

Lemma crowdObjective_Crowded (acc : list Individual * list nat) (objIdx : nat) :
  let sortedFront := std_sort (byObjective acc.1 objIdx) acc.2 in
  (crowdObjective acc objIdx).2 = sortedFront
  /\ Crowded
       (alter (setCrowdingDistance Infinity)
          (sortedFront !!! (length sortedFront - 1)%nat)
          (alter (setCrowdingDistance Infinity) (sortedFront !!! 0%nat) acc.1))
       (crowdObjective acc objIdx).1.
Proof.
  intros sortedFront. unfold crowdObjective. fold sortedFront.
  destruct (Qltb _ _); simpl; (split; [done |]); [apply Crowded_refl |].
  apply Crowded_fold. intros p x. apply accumulateStep_Crowded.
Qed.

Lemma StronglySorted_lookup {A : Type} `{!Inhabited A} (R : A -> A -> Prop) (l : list A) :
  StronglySorted R l ->
  forall i j, (i < j)%nat -> (j < length l)%nat -> R (l !!! i) (l !!! j).
Proof.
  induction 1 as [| a l Hs IH Hall]; intros i j Hij Hj; simpl in *; [lia |].
  destruct j as [| j]; [lia |]. destruct i as [| i]; simpl.
  - rewrite Forall_forall in Hall. apply Hall, list_elem_of_lookup_total_2. lia.
  - apply IH; lia.
Qed.

Lemma byObjective_StrictWeakOn (pop : list Individual) (objIdx : nat) (l : list nat) :
  (forall x, x ∈ l -> (x < length pop)%nat) -> StrictWeakOn (byObjective pop objIdx) l.
Proof.
  intros Hl.
  assert (Hby : forall a b, a ∈ l -> b ∈ l ->
     byObjective pop objIdx a b = Qltb (objective pop a objIdx) (objective pop b objIdx)).
  { intros a b Ha%Hl Hb%Hl. unfold byObjective. rewrite decide_False by lia. done. }
  constructor.
  - intros a Ha. rewrite Hby by done. apply Qltb_ge. lra.
  - intros a b c Ha Hb Hc. rewrite !Hby by done. rewrite !Qltb_lt. lra.
  - intros a b c Ha Hb Hc. rewrite !Hby by done. rewrite !Qltb_ge. lra.
Qed.

Lemma byObjective_valid (pop : list Individual) (objIdx a b : nat) :
  (a < length pop)%nat -> (b < length pop)%nat ->
  byObjective pop objIdx a b = false ->
  objective pop b objIdx <= objective pop a objIdx.
Proof.
  intros Ha Hb. unfold byObjective. rewrite decide_False by lia. apply Qltb_ge.
Qed.

Lemma crowdObjective_extremes (acc : list Individual * list nat) (objIdx : nat) :
  (forall x, x ∈ acc.2 -> (x < length acc.1)%nat) -> acc.2 <> [] ->
  exists imin imax,
    imin ∈ acc.2 /\ imax ∈ acc.2
    /\ crowdingDistance ((crowdObjective acc objIdx).1 !!! imin) = Infinity
    /\ crowdingDistance ((crowdObjective acc objIdx).1 !!! imax) = Infinity
    /\ forall x, x ∈ acc.2 ->
         objective acc.1 imin objIdx <= objective acc.1 x objIdx
         /\ objective acc.1 x objIdx <= objective acc.1 imax objIdx.
Proof.
  intros Hvalid Hne. destruct (crowdObjective_Crowded acc objIdx) as [_ Hc].
  set (sorted := std_sort (byObjective acc.1 objIdx) acc.2) in *.
  pose proof (sort_perm _ Hsort (byObjective acc.1 objIdx) acc.2) as Hperm.
  fold sorted in Hperm.
  assert (Hlen : length sorted = length acc.2) by by apply Permutation_length.
  assert (Hpos : (0 < length sorted)%nat).
  { rewrite Hlen. destruct acc.2; [done | simpl; lia]. }
  assert (Hin : forall x, x ∈ sorted <-> x ∈ acc.2) by (intros x; by rewrite Hperm).
  pose proof (sort_sorted _ Hsort (byObjective acc.1 objIdx) acc.2
                (byObjective_StrictWeakOn _ _ _ Hvalid)) as Hsorted.
  fold sorted in Hsorted.
  set (imin := sorted !!! 0%nat) in *.
  set (imax := sorted !!! (length sorted - 1)%nat) in *.
  assert (Himin : imin ∈ sorted) by (apply list_elem_of_lookup_total_2; lia).
  assert (Himax : imax ∈ sorted) by (apply list_elem_of_lookup_total_2; lia).
  exists imin, imax. rewrite <- !Hin. split; [done |]. split; [done |].
  split; [| split].
  - apply (crowded_infinity _ _ Hc). apply (crowded_infinity _ _ (Crowded_infinity _ _)).
    rewrite list_lookup_total_alter_eq; [done |]. apply Hvalid, Hin, Himin.
  - apply (crowded_infinity _ _ Hc).
    rewrite list_lookup_total_alter_eq; [done |]. rewrite length_alter.
    apply Hvalid, Hin, Himax.
  - intros x Hx. pose proof (Hvalid x Hx) as Hxv. apply Hin in Hx.
    apply list_elem_of_lookup_total_1 in Hx as (i & Hi & <-). split.
    + destruct i as [| i]; [apply Qle_refl |].
      apply byObjective_valid; [done | apply Hvalid, Hin, Himin |].
      apply (StronglySorted_lookup _ _ Hsorted 0 (S i)); lia.
    + destruct (decide (i = length sorted - 1)%nat) as [-> | Hne']; [apply Qle_refl |].
      apply byObjective_valid; [apply Hvalid, Hin, Himax | done |].
      apply (StronglySorted_lookup _ _ Hsorted i (length sorted - 1)); lia.
Qed.

Lemma FrontCrowded_mono (pop pop' : list Individual) (front : list nat) :
  Crowded pop pop' -> FrontCrowded pop front -> FrontCrowded pop' front.
Proof.
  intros Hc [Hsmall Hlarge]. split.
  - intros Hlen i Hi. by apply (crowded_infinity _ _ Hc), Hsmall.
  - intros Hlen objIdx Hk. destruct (Hlarge Hlen objIdx Hk) as (imin & imax & ? & ? & ? & ? & Hord).
    exists imin, imax. split_and!; try done; try by apply (crowded_infinity _ _ Hc).
    intros x Hx. pose proof (fun i k => objective_Crowded pop pop' i k Hc) as Hobj.
    rewrite !Hobj. by apply Hord.
Qed.

Lemma crowdFront_small (pop : list Individual) (front : list nat) :
  (forall x, x ∈ front -> (x < length pop)%nat) ->
  let pop' := fold_left (fun population i => alter (setCrowdingDistance Infinity) i population)
                front pop in
  Crowded pop pop' /\ forall i, i ∈ front -> crowdingDistance (pop' !!! i) = Infinity.
Proof.
  revert pop. induction front as [| i front IH]; intros pop Hvalid; simpl.
  - split; [apply Crowded_refl | by intros i ?%elem_of_nil].
  - destruct (IH (alter (setCrowdingDistance Infinity) i pop)) as [Hc Hinf].
    { intros x Hx. rewrite length_alter. apply Hvalid. by right. }
    split; [eapply Crowded_trans; [apply Crowded_infinity | exact Hc] |].
    intros x [-> | Hx]%elem_of_cons; [| by apply Hinf].
    apply (crowded_infinity _ _ Hc). rewrite list_lookup_total_alter_eq; [done |].
    apply Hvalid. left.
Qed.

Lemma crowdFront_large (pop : list Individual) (front : list nat) (m : nat) :
  (forall x, x ∈ front -> (x < length pop)%nat) -> front <> [] ->
  let r := fold_left (crowdObjective) (seq 0 m) (pop, front) in
  Crowded pop r.1
  /\ forall objIdx, (objIdx < m)%nat ->
       exists imin imax,
         imin ∈ front /\ imax ∈ front
         /\ crowdingDistance (r.1 !!! imin) = Infinity
         /\ crowdingDistance (r.1 !!! imax) = Infinity
         /\ forall x, x ∈ front ->
              objective pop imin objIdx <= objective pop x objIdx
              /\ objective pop x objIdx <= objective pop imax objIdx.
Proof.
  intros Hvalid Hne r.
  enough (H : r.2 ≡ₚ front /\ Crowded pop r.1
     /\ forall objIdx, (objIdx < m)%nat ->
       exists imin imax,
         imin ∈ front /\ imax ∈ front
         /\ crowdingDistance (r.1 !!! imin) = Infinity
         /\ crowdingDistance (r.1 !!! imax) = Infinity
         /\ forall x, x ∈ front ->
              objective pop imin objIdx <= objective pop x objIdx
              /\ objective pop x objIdx <= objective pop imax objIdx) by tauto.
  unfold r. apply (fold_left_seq_ind
    (fun k (acc : list Individual * list nat) =>
       acc.2 ≡ₚ front /\ Crowded pop acc.1
       /\ forall objIdx, (objIdx < k)%nat ->
         exists imin imax,
           imin ∈ front /\ imax ∈ front
           /\ crowdingDistance (acc.1 !!! imin) = Infinity
           /\ crowdingDistance (acc.1 !!! imax) = Infinity
           /\ forall x, x ∈ front ->
                objective pop imin objIdx <= objective pop x objIdx
                /\ objective pop x objIdx <= objective pop imax objIdx)).
  - simpl. split; [done |]. split; [apply Crowded_refl |]. intros; lia.
  - intros k acc Hk (Hperm & Hc & Hdone).
    destruct (crowdObjective_Crowded acc k) as [E2 Hc2].
    assert (Hc' : Crowded acc.1 (crowdObjective acc k).1).
    { eapply Crowded_trans; [| exact Hc2].
      eapply Crowded_trans; apply Crowded_infinity. }
    split; [| split].
    + rewrite E2. by rewrite (sort_perm _ Hsort).
    + by eapply Crowded_trans.
    + intros objIdx Hobj. destruct (decide (objIdx = k)) as [-> | Hnk].
      * destruct (crowdObjective_extremes acc k) as (imin & imax & H1 & H2 & H3 & H4 & H5).
        { intros x Hx. rewrite (crowded_length _ _ Hc). apply Hvalid. by rewrite <- Hperm. }
        { intros Hnil. rewrite Hnil in Hperm. apply Permutation_nil_l in Hperm. done. }
        exists imin, imax. rewrite <- Hperm. split_and!; try done.
        intros x Hx. pose proof (fun i k => objective_Crowded pop acc.1 i k Hc) as Heq.
        rewrite <- !Heq. apply H5. by rewrite Hperm.
      * destruct (Hdone objIdx) as (imin & imax & H1 & H2 & H3 & H4 & H5); [lia |].
        exists imin, imax. split_and!; try done; by apply (crowded_infinity _ _ Hc').
Qed.

Lemma crowdFront_FrontCrowded (pop : list Individual) (front : list nat) :
  (forall x, x ∈ front -> (x < length pop)%nat) ->
  (forall i, (i < length pop)%nat -> length (objectives (pop !!! i)) = 3%nat) ->
  Crowded pop (crowdFront pop front)
  /\ FrontCrowded (crowdFront pop front) front.
Proof.
  intros Hvalid Hthree. unfold crowdFront, FrontCrowded.
  destruct (decide (length front <= 2)%nat) as [Hle | Hgt].
  - destruct (crowdFront_small pop front Hvalid) as [Hc Hinf].
    split; [done |]. split; [done | lia].
  - assert (Hne : front <> []) by (destruct front; [simpl in Hgt; lia | done]).
    assert (H0 : (front !!! 0%nat < length pop)%nat).
    { apply Hvalid, list_elem_of_lookup_total_2. destruct front; [done | simpl; lia]. }
    rewrite (Hthree _ H0).
    destruct (crowdFront_large pop front 3 Hvalid Hne) as [Hc Hext].
    split; [done |]. split; [lia |]. intros _ objIdx Hk.
    destruct (Hext objIdx Hk) as (imin & imax & H1 & H2 & H3 & H4 & H5).
    exists imin, imax. split_and!; try done.
    intros x Hx. pose proof (fun i k => objective_Crowded pop _ i k Hc) as Hobj.
    rewrite !Hobj. by apply H5.
Qed.

Lemma crowdingDistances_FrontCrowded (fs : list (list nat)) (pop : list Individual) :
  (forall front x, front ∈ fs -> x ∈ front -> (x < length pop)%nat) ->
  (forall i, (i < length pop)%nat -> length (objectives (pop !!! i)) = 3%nat) ->
  Crowded pop (crowdingDistances pop fs)
  /\ forall front, front ∈ fs -> FrontCrowded (crowdingDistances pop fs) front.
Proof.
  revert pop. induction fs as [| front fs IH]; intros pop Hvalid Hthree; simpl.
  - split; [apply Crowded_refl | by intros front ?%elem_of_nil].
  - destruct (crowdFront_FrontCrowded pop front) as [Hc Hf]; [| done |].
    { intros x Hx. eapply Hvalid; [left | done]. }
    destruct (IH (crowdFront pop front)) as [Hc' Hfs].
    { intros fr x Hfr Hx. rewrite (crowded_length _ _ Hc). eapply Hvalid; [by right | done]. }
    { intros i Hi. rewrite (crowded_length _ _ Hc) in Hi.
      destruct (crowded_same _ _ Hc i) as (_ & -> & _). by apply Hthree. }
    split; [by eapply Crowded_trans |].
    intros fr [-> | Hfr]%elem_of_cons; [| by apply Hfs].
    by eapply FrontCrowded_mono.
Qed.

(** ** Ranks and fronts *)

Lemma Fronts_valid (pop : list Individual) (st : Sorting) (front : list nat) (x : nat) :
  Fronts pop st -> front ∈ fronts st -> x ∈ front -> (x < length pop)%nat.
Proof.
  intros Hf Hfront Hx.
  assert (Hin : x ∈ seq 0 (length pop)).
  { rewrite <- (fronts_partition _ _ Hf). apply elem_of_concat. by exists front. }
  apply elem_of_seq in Hin. lia.
Qed.

Lemma rankPopulation_Ranked (pop : list Individual) :
  ThreeObjectives pop ->
  exists pop' fs, rankPopulation pop = Some (pop', fs) /\ Ranked pop pop' fs.
Proof.
  intros Hthree. destruct (peelLoop_Fronts pop Hthree) as (st & Hrun & Hf).
  unfold rankPopulation. rewrite Hrun.
  destruct (crowdingDistances_FrontCrowded (fronts st) (population st))
    as [Hc Hfc].
  { intros front x Hfront Hx. rewrite (fronts_length _ _ Hf). by eapply Fronts_valid. }
  { intros i Hi. rewrite (fronts_length _ _ Hf) in Hi.
    destruct (fronts_same _ _ Hf i) as (_ & -> & _). by apply objectives_three. }
  eexists _, _. split; [done |]. destruct Hf as [F1 F2 F3 F4 F5 F6].
  constructor; try done.
  - intros m front j Hm Hj. destruct (crowded_same _ _ Hc j) as (_ & _ & ->).
    by eapply F3.
  - by rewrite (crowded_length _ _ Hc).
  - intros x. destruct (crowded_same _ _ Hc x) as (-> & -> & _).
    destruct (F6 x) as (-> & -> & _). done.
Qed.

Lemma crowdFront_Crowded (pop : list Individual) (front : list nat) :
  Crowded pop (crowdFront pop front).
Proof.
  unfold crowdFront. case_decide.
  - apply Crowded_fold. intros p x. apply Crowded_infinity.
  - generalize (seq 0 (length (objectives (pop !!! (front !!! 0%nat))))) as ks.
    intros ks.
    enough (Hall : forall acc : list Individual * list nat,
              Crowded acc.1 (fold_left (crowdObjective) ks acc).1)
      by apply (Hall (pop, front)).
    induction ks as [| k ks IH]; intros acc; simpl; [apply Crowded_refl |].
    eapply Crowded_trans; [| apply IH].
    destruct (crowdObjective_Crowded acc k) as [_ Hc].
    eapply Crowded_trans; [| exact Hc].
    eapply Crowded_trans; apply Crowded_infinity.
Qed.

Lemma crowdingDistances_Crowded (pop : list Individual) (fs : list (list nat)) :
  Crowded pop (crowdingDistances pop fs).
Proof. apply Crowded_fold. intros p x. apply crowdFront_Crowded. Qed.

(** C3. Sorting a population of three-objective individuals gives every
    individual one rank: every index lies in exactly one front, the
    members of front [m] (counted from 0) carry rank [m + 1], no front is
    empty, so the ranks in use are 1, 2, ... without a gap, and no rank 1
    individual dominates another one. *)
Theorem nonDominatedSorting_ranks (pop : list Individual) :
  ThreeObjectives pop ->
  exists pop' fs,
    rankPopulation pop = Some (pop', fs)
    /\ nonDominatedSorting pop = Some pop'
    /\ length pop' = length pop
    /\ concat fs ≡ₚ seq 0 (length pop)
    /\ (forall m front, fs !! m = Some front ->
          front <> [] /\ forall j, j ∈ front -> rank (pop' !!! j) = (Z.of_nat m + 1)%Z)
    /\ (forall i, (i < length pop)%nat ->
          (1 <= rank (pop' !!! i) <= Z.of_nat (length fs))%Z)
    /\ (forall r, (1 <= r <= Z.of_nat (length fs))%Z ->
          exists i, (i < length pop)%nat /\ rank (pop' !!! i) = r)
    /\ (forall i j, (i < length pop)%nat -> (j < length pop)%nat ->
          rank (pop' !!! i) = 1%Z -> rank (pop' !!! j) = 1%Z ->
          dominates (pop' !!! i) (pop' !!! j) = false).
Proof.
  intros Hthree. destruct (peelLoop_Fronts pop Hthree) as (st & Hrun & [F1 F2 F3 F4 F5 F6]).
  pose proof (crowdingDistances_Crowded (population st) (fronts st)) as Hc.
  exists (crowdingDistances (population st) (fronts st)), (fronts st).
  assert (Hrank : forall m front j, fronts st !! m = Some front -> j ∈ front ->
     rank (crowdingDistances (population st) (fronts st) !!! j)
     = (Z.of_nat m + 1)%Z).
  { intros m front j Hm Hj. destruct (crowded_same _ _ Hc j) as (_ & _ & ->).
    by eapply F3. }
  assert (Hfront : forall i, (i < length pop)%nat ->
     exists m front, fronts st !! m = Some front /\ i ∈ front).
  { intros i Hi. assert (Hin : i ∈ concat (fronts st)).
    { rewrite F1. apply elem_of_seq. lia. }
    apply elem_of_concat in Hin as (front & Hin & Hf).
    apply list_elem_of_lookup_1 in Hf as [m Hm]. eauto. }
  split; [by unfold rankPopulation; rewrite Hrun |].
  split; [by unfold nonDominatedSorting, rankPopulation; rewrite Hrun |].
  split; [by rewrite (crowded_length _ _ Hc) |].
  split; [done |]. split; [| split; [| split]].
  - intros m front Hm. split; [apply F2; by eapply list_elem_of_lookup_2 |].
    intros j Hj. by eapply Hrank.
  - intros i Hi. destruct (Hfront i Hi) as (m & front & Hm & Hin).
    rewrite (Hrank m front i Hm Hin). apply lookup_lt_Some in Hm. lia.
  - intros r Hr.
    destruct (lookup_lt_is_Some_2 (fronts st) (Z.to_nat (r - 1))) as [front Hm]; [lia |].
    assert (Hne : front <> []) by (apply F2; by eapply list_elem_of_lookup_2).
    destruct front as [| i front]; [done |]. exists i.
    assert (Hi : i ∈ i :: front) by left. split.
    + assert (Hin : i ∈ seq 0 (length pop)).
      { rewrite <- F1. apply elem_of_concat. exists (i :: front).
        split; [done | by eapply list_elem_of_lookup_2]. }
      apply elem_of_seq in Hin. lia.
    + rewrite (Hrank _ _ i Hm Hi). lia.
  - intros i j Hi Hj Hri Hrj.
    destruct (Hfront j Hj) as (m & front & Hm & Hin).
    rewrite (Hrank m front j Hm Hin) in Hrj.
    assert (m = 0%nat) as -> by lia. apply F4 in Hm as ->.
    apply list_elem_of_filter in Hin as [Hz _].
    rewrite (dominatorCount_ndom pop Hthree j Hj) in Hz.
    assert (Hz' : ndom pop (seq 0 (length pop)) j = 0%nat) by lia.
    rewrite (dominates_objectives _ _ (pop !!! i) (pop !!! j)).
    + apply (proj1 (ndom_zero pop _ j) Hz' i). apply elem_of_seq. lia.
    + destruct (crowded_same _ _ Hc i) as (_ & -> & _). by destruct (F6 i) as (_ & -> & _).
    + destruct (crowded_same _ _ Hc j) as (_ & -> & _). by destruct (F6 j) as (_ & -> & _).
Qed.

(** C9. In every front the ranking produces: a front of at most two
    members has infinite crowding distance throughout; in a larger front,
    for each of the three objectives, a member holding the minimum and a
    member holding the maximum of that objective have infinite crowding
    distance.  Where the minimum (maximum) is held by a single member, it
    is that member. *)
Theorem boundary_crowding_distance_infinite (pop : list Individual) :
  ThreeObjectives pop ->
  exists pop' fs,
    rankPopulation pop = Some (pop', fs)
    /\ forall front, front ∈ fs ->
         ((length front <= 2)%nat ->
            forall i, i ∈ front -> crowdingDistance (pop' !!! i) = Infinity)
         /\ ((2 < length front)%nat ->
               forall objIdx, (objIdx < 3)%nat ->
                 (exists imin imax,
                    imin ∈ front /\ imax ∈ front
                    /\ crowdingDistance (pop' !!! imin) = Infinity
                    /\ crowdingDistance (pop' !!! imax) = Infinity
                    /\ forall x, x ∈ front ->
                         objective pop' imin objIdx <= objective pop' x objIdx
                         /\ objective pop' x objIdx <= objective pop' imax objIdx)
                 /\ (forall x, x ∈ front ->
                       (forall y, y ∈ front -> y <> x ->
                          objective pop' x objIdx < objective pop' y objIdx) ->
                       crowdingDistance (pop' !!! x) = Infinity)
                 /\ (forall x, x ∈ front ->
                       (forall y, y ∈ front -> y <> x ->
                          objective pop' y objIdx < objective pop' x objIdx) ->
                       crowdingDistance (pop' !!! x) = Infinity)).
Proof.
  intros Hthree. destruct (rankPopulation_Ranked pop Hthree) as (pop' & fs & Hrun & Hr).
  exists pop', fs. split; [done |]. intros front Hfront.
  destruct (ranked_crowded _ _ _ Hr front Hfront) as [Hsmall Hlarge].
  split; [done |]. intros Hlen objIdx Hk.
  destruct (Hlarge Hlen objIdx Hk) as (imin & imax & H1 & H2 & H3 & H4 & H5).
  split; [by exists imin, imax | split].
  - intros x Hx Huniq. destruct (decide (imin = x)) as [<- | Hne]; [done |].
    specialize (Huniq imin H1 Hne). destruct (H5 x Hx). lra.
  - intros x Hx Huniq. destruct (decide (imax = x)) as [<- | Hne]; [done |].
    specialize (Huniq imax H2 Hne). destruct (H5 x Hx). lra.
Qed.

(** ** The generational loop keeps its invariant *)

Lemma always_forEach_from {A : Type} (I : nat -> A -> Prop)
    (body : A -> nat -> Prog A) (s n : nat) (acc : A) :
  I s acc ->
  (forall k a, (s <= k < s + n)%nat -> I k a -> always (I (S k)) (body a k)) ->
  always (I (s + n)%nat) (forEach (seq s n) body acc).
Proof.
  revert s acc. induction n as [| n IH]; intros s acc Hacc Hbody; simpl.
  - by rewrite Nat.add_0_r.
  - eapply always_bind; [apply Hbody; [lia | exact Hacc] |].
    intros acc' Hacc'. replace (s + S n)%nat with (S s + n)%nat by lia.
    apply IH; [exact Hacc' |]. intros k a Hk. apply Hbody. lia.
Qed.

Lemma always_forEach_seq {A : Type} (I : nat -> A -> Prop)
    (body : A -> nat -> Prog A) (n : nat) (acc : A) :
  I 0%nat acc ->
  (forall k a, (k < n)%nat -> I k a -> always (I (S k)) (body a k)) ->
  always (I n) (forEach (seq 0 n) body acc).
Proof.
  intros H0 Hbody. apply (always_forEach_from I body 0 n acc H0).
  intros k a Hk. apply Hbody. lia.
Qed.

Lemma generateDynamicLoadProfile_returns (p : SpindleParameters) (d lf : Q) :
  always (fun _ => True) (generateDynamicLoadProfile p d lf).
Proof.
  unfold generateDynamicLoadProfile. apply always_forEach; [done |].
  intros acc x _ _ u Hu. done.
Qed.

Lemma evaluateObjectives_try_post (ind : Individual) (d lf : Q) :
  post (Evaluated ind) (fun _ => True) (evaluateObjectives_try ind d lf).
Proof.
  unfold evaluateObjectives_try. eapply post_bind.
  - apply always_post, generateDynamicLoadProfile_returns.
  - intros [| x loadProfile] _; simpl; done.
Qed.

Lemma evaluateObjectives_Evaluated (ind : Individual) (d lf : Q) :
  always (Evaluated ind) (evaluateObjectives ind d lf).
Proof.
  unfold evaluateObjectives, always. simpl.
  eapply post_try_catch; [apply evaluateObjectives_try_post |].
  intros e _. done.
Qed.

Lemma blend_returns (p1 p2 lo hi : Q) : always (fun _ => True) (blend p1 p2 lo hi).
Proof. intros u Hu. done. Qed.

Lemma coin_returns {A : Type} (a b : A) : always (fun _ => True) (coin a b).
Proof. intros u Hu. done. Qed.

Lemma crossover_returns (parent1 parent2 : Individual) :
  always (fun o => rank o = 0%Z /\ crowdingDistance o = Finite 0)
    (crossover parent1 parent2).
Proof.
  unfold crossover.
  do 5 (eapply always_bind; [apply blend_returns | intros ? _]).
  do 5 (eapply always_bind; [apply coin_returns | intros ? _]).
  done.
Qed.

Lemma mutateContinuous_returns (v lo hi : Q) :
  always (fun _ => True) (mutateContinuous v lo hi).
Proof. intros u Hu. simpl. destruct (Qleb mutationProb u); simpl; [done |]. by intros. Qed.

Lemma mutateCategorical_returns (v : string) (choices : list string) :
  always (fun _ => True) (mutateCategorical v choices).
Proof. intros u Hu. simpl. destruct (Qltb u mutationProb); simpl; [| done]. by intros. Qed.

Lemma mutate_returns (ind : Individual) :
  always (fun o => rank o = rank ind /\ crowdingDistance o = crowdingDistance ind
                   /\ objectives o = objectives ind)
    (mutate ind).
Proof.
  unfold mutate.
  do 5 (eapply always_bind; [apply mutateContinuous_returns | intros ? _]).
  do 5 (eapply always_bind; [apply mutateCategorical_returns | intros ? _]).
  done.
Qed.

(** *** Environmental selection *)

Lemma pushFront_spec (combined population : list Individual) (front : list nat) :
  (forall x, x ∈ front -> (x < length combined)%nat) ->
  pushFront combined population front
  = population ++ map (fun i => combined !!! i) front.
Proof.
  revert population. induction front as [| i front IH]; intros population Hvalid; simpl.
  - by rewrite app_nil_r.
  - rewrite decide_True by (apply Hvalid; left).
    rewrite IH by (intros x Hx; apply Hvalid; by right).
    by rewrite <- app_assoc.
Qed.

Lemma pushFront_length (combined population : list Individual) (front : list nat) :
  (forall x, x ∈ front -> (x < length combined)%nat) ->
  length (pushFront combined population front)
  = (length population + length front)%nat.
Proof. intros H. by rewrite pushFront_spec, length_app, length_map. Qed.

Lemma pushFront_elem_of (combined population : list Individual) (front : list nat)
    (ind : Individual) :
  (forall x, x ∈ front -> (x < length combined)%nat) ->
  ind ∈ pushFront combined population front ->
  ind ∈ population \/ exists i, i ∈ front /\ ind = combined !!! i.
Proof.
  intros H. rewrite pushFront_spec by done. rewrite elem_of_app.
  intros [? | (i & -> & ?)%elem_of_map]; [by left | right; eauto].
Qed.

Lemma addWholeFronts_spec (n : nat) (combined : list Individual)
    (fs : list (list nat)) (population : list Individual) :
  (forall front x, front ∈ fs -> x ∈ front -> (x < length combined)%nat) ->
  exists taken,
    fs = taken ++ (addWholeFronts n combined fs population).2
    /\ length (addWholeFronts n combined fs population).1
       = (length population + length (concat taken))%nat
    /\ (forall ind, ind ∈ (addWholeFronts n combined fs population).1 ->
          ind ∈ population
          \/ exists front i, front ∈ taken /\ i ∈ front /\ ind = combined !!! i)
    /\ ((length population <= n)%nat ->
        (length (addWholeFronts n combined fs population).1 <= n)%nat)
    /\ match (addWholeFronts n combined fs population).2 with
       | [] => True
       | front :: _ =>
           (n < length (addWholeFronts n combined fs population).1 + length front)%nat
       end.
Proof.
  revert population. induction fs as [| front fs IH]; intros population Hvalid; simpl.
  - exists []. simpl. split_and!; first [done | lia | (intros; by left)].
  - case_decide as Hfit; simpl.
    + destruct (IH (pushFront combined population front))
        as (taken & E1 & E2 & E3 & E4 & E5).
      { intros fr x Hfr Hx. eapply Hvalid; [by right | done]. }
      assert (Hv : forall x, x ∈ front -> (x < length combined)%nat).
      { intros x Hx. eapply Hvalid; [left | done]. }
      exists (front :: taken). split_and!.
      * simpl. by f_equal.
      * rewrite E2, pushFront_length by done. simpl. rewrite length_app. lia.
      * intros ind [Hin | (fr & i & ? & ? & ?)]%E3.
        -- apply pushFront_elem_of in Hin as [? | (i & ? & ?)]; [by left | | done].
           right. exists front, i. split; [left | done].
        -- right. exists fr, i. split; [by right | done].
      * intros _. apply E4. rewrite pushFront_length by done. lia.
      * done.
    + exists []. simpl. split_and!; first [done | lia | (intros; by left)].
Qed.

Lemma byCrowding_sorted_valid (combined : list Individual) (front : list nat) (x : nat) :
  (forall y, y ∈ front -> (y < length combined)%nat) ->
  x ∈ std_sort (byCrowding combined) front -> (x < length combined)%nat.
Proof. intros Hv Hx. apply Hv. by rewrite <- (sort_perm _ Hsort (byCrowding combined)). Qed.

Lemma selectNextGeneration_spec (n : nat) (combined : list Individual)
    (fs : list (list nat)) :
  concat fs ≡ₚ seq 0 (length combined) -> (n <= length combined)%nat ->
  length (selectNextGeneration n combined fs) = n
  /\ forall ind, ind ∈ selectNextGeneration n combined fs ->
       exists front i, front ∈ fs /\ i ∈ front /\ ind = combined !!! i.
Proof.
  intros Hpart Hn.
  assert (Hvalid : forall front x, front ∈ fs -> x ∈ front -> (x < length combined)%nat).
  { intros front x Hfront Hx. assert (Hin : x ∈ seq 0 (length combined)).
    { rewrite <- Hpart. apply elem_of_concat. by exists front. }
    apply elem_of_seq in Hin. lia. }
  unfold selectNextGeneration.
  destruct (addWholeFronts_spec n combined fs [] Hvalid)
    as (taken & E1 & E2 & E3 & E4 & E5).
  set (r := addWholeFronts n combined fs []) in *. simpl in *.
  specialize (E4 ltac:(lia)).
  assert (Htaken : forall front, front ∈ taken -> front ∈ fs).
  { intros front Hfront. rewrite E1. apply elem_of_app. by left. }
  assert (Hmem : forall ind, ind ∈ r.1 ->
     exists front i, front ∈ fs /\ i ∈ front /\ ind = combined !!! i).
  { intros ind [Hin | (front & i & ? & ? & ?)]%E3; [by apply elem_of_nil in Hin |].
    exists front, i. split; [by apply Htaken | done]. }
  destruct r.2 as [| front rest] eqn:Hrest.
  - split; [| done]. rewrite app_nil_r in E1. subst taken.
    rewrite E2, Hpart, length_seq in *. lia.
  - assert (Hfront : front ∈ fs).
    { rewrite E1. apply elem_of_app. right. left. }
    case_decide as Hlt; [| split; [lia | done]].
    set (sorted := std_sort (byCrowding combined) front).
    assert (Hperm : sorted ≡ₚ front) by apply (sort_perm _ Hsort).
    assert (Hv : forall x, x ∈ take (n - length r.1) sorted -> (x < length combined)%nat).
    { intros x Hx%elem_of_take. destruct Hx as (i & Hx & _).
      apply list_elem_of_lookup_2 in Hx. rewrite Hperm in Hx. by eapply Hvalid. }
    split.
    + rewrite pushFront_length, length_take by done.
      rewrite (Permutation_length Hperm). lia.
    + intros ind [Hin | (i & Hi & ->)]%pushFront_elem_of; [by apply Hmem | | done].
      exists front, i. split; [done |]. split; [| done].
      apply elem_of_take in Hi as (k & Hi & _).
      apply list_elem_of_lookup_2 in Hi. by rewrite Hperm in Hi.
Qed.

(** *** The generational loop *)

Lemma post_and {A : Type} (P P' : A -> Prop) (E : string -> Prop) (p : Prog A) :
  post P E p -> post P' E p -> post (fun a => P a /\ P' a) E p.
Proof.
  induction p as [a | k IH | k IH | what | ]; simpl; auto.
Qed.

Lemma always_Ret {A : Type} (P : A -> Prop) (a : A) : P a -> always P (Ret a).
Proof. done. Qed.

Lemma list_case_nonempty {A B : Type} (l : list A) (t k : B) :
  l <> [] -> match l with [] => t | _ :: _ => k end = k.
Proof. by destruct l. Qed.

Lemma validateInputs_valid (cfg : Config) :
  ValidConfig cfg -> validateInputs cfg = Ret tt.
Proof.
  intros (Hd & [Hl1 Hl2] & Hp & Hg). unfold validateInputs.
  rewrite (proj2 (Qleb_gt (duration cfg) 0.0)) by lra.
  rewrite (proj2 (Qltb_ge (loadFactor cfg) 0.5)) by lra.
  rewrite (proj2 (Qltb_ge 2.0 (loadFactor cfg))) by lra. simpl.
  rewrite (proj2 (Z.ltb_ge _ _) Hp), (proj2 (Z.ltb_ge _ _) Hg). done.
Qed.

Section Loop.

Variable cfg : Config.
Hypothesis Hcfg : ValidConfig cfg.

(** A property of objective vectors that every evaluation under [cfg]
    establishes. *)
Variable Phi : list Q -> Prop.
Hypothesis HPhi : forall ind,
  always (fun ind' => Phi (objectives ind'))
    (evaluateObjectives ind (duration cfg) (loadFactor cfg)).

Local Abbreviation size := (Z.to_nat (populationSize cfg)).

Lemma size_pos : (0 < size)%nat.
Proof. destruct Hcfg as (_ & _ & ? & _). lia. Qed.

Lemma evaluateObjectives_Scored (ind : Individual) :
  always (fun ind' => Evaluated ind ind' /\ Scored Phi ind')
    (evaluateObjectives ind (duration cfg) (loadFactor cfg)).
Proof.
  eapply always_mono; [| apply post_and;
    [apply evaluateObjectives_Evaluated | apply HPhi]].
  intros ind' [He HP]. split; [done |]. split; [apply He | done].
Qed.

Lemma selectParents_elem_of (pop : list Individual) :
  length pop = size ->
  always (fun parents => parents.1 ∈ pop /\ parents.2 ∈ pop) (selectParents cfg pop).
Proof.
  intros Hlen u1 Hu1 u2 Hu2. simpl.
  assert (Hsize : populationSize cfg = Z.of_nat size).
  { destruct Hcfg as (_ & _ & ? & _). lia. }
  rewrite Hsize, Hlen.
  pose proof (truncate_index size u1 Hu1 size_pos).
  pose proof (truncate_index size u2 Hu2 size_pos).
  rewrite decide_False by lia.
  destruct (precedes _ _); simpl; split; apply list_elem_of_lookup_total_2; lia.
Qed.

Lemma breed_Scored (pop : list Individual) :
  length pop = size ->
  always (fun o => Scored Phi o /\ rank o = 0%Z /\ crowdingDistance o = Finite 0)
    (breed cfg pop).
Proof.
  intros Hlen. unfold breed.
  eapply always_bind; [by apply selectParents_elem_of | intros parents _].
  eapply always_bind; [apply crossover_returns | intros o1 [Hr1 Hc1]].
  eapply always_bind; [apply mutate_returns | intros o2 (Hr2 & Hc2 & _)].
  eapply always_mono; [| apply evaluateObjectives_Scored].
  intros o3 [(_ & Hr3 & Hc3 & _) Hs]. split; [done |]. split; congruence.
Qed.

Lemma createOffspring_Good (pop : list Individual) :
  length pop = size ->
  always (fun offspring => Good cfg Phi offspring
            /\ Forall (fun o => rank o = 0%Z /\ crowdingDistance o = Finite 0) offspring)
    (createOffspring cfg pop).
Proof.
  intros Hlen. unfold createOffspring, Good.
  apply (always_forEach_seq
    (fun k offspring => (length offspring = k /\ Forall (Scored Phi) offspring)
       /\ Forall (fun o => rank o = 0%Z /\ crowdingDistance o = Finite 0) offspring)).
  - done.
  - intros k offspring Hk [[Hl Hall] Hfresh].
    eapply always_bind; [by apply breed_Scored | intros o [Hs Hf]].
    apply always_Ret. rewrite length_app, !Forall_app, !Forall_singleton. simpl.
    split; [split; [lia | done] | done].
Qed.

Lemma Good_ThreeObjectives (pop : list Individual) : Good cfg Phi pop -> ThreeObjectives pop.
Proof. intros [_ H]. eapply Forall_impl; [exact H |]. by intros ind [? _]. Qed.

Lemma generation_Generation (pop : list Individual) :
  Good cfg Phi pop -> always (Generation cfg Phi pop) (generation cfg pop).
Proof.
  intros [Hlen Hall]. unfold generation.
  eapply always_bind; [by apply createOffspring_Good |].
  intros offspring [[Hlo Hao] Hfresh]. cbv beta zeta.
  assert (Hlc : length (pop ++ offspring) = (2 * size)%nat).
  { rewrite length_app. lia. }
  pose proof size_pos as Hpos.
  rewrite list_case_nonempty by (intros Hnil; rewrite Hnil in Hlc; simpl in Hlc; lia).
  assert (Hgc : Forall (Scored Phi) (pop ++ offspring)) by by apply Forall_app.
  destruct (rankPopulation_Ranked (pop ++ offspring))
    as (ranked & fs & Hrun & Hr).
  { eapply Forall_impl; [exact Hgc |]. by intros ind [? _]. }
  rewrite Hrun. simpl.
  destruct (selectNextGeneration_spec size ranked fs) as [Hln Hmem].
  { rewrite (ranked_length _ _ _ Hr). apply (ranked_partition _ _ _ Hr). }
  { rewrite (ranked_length _ _ _ Hr). lia. }
  rewrite list_case_nonempty by (intros Hnil; rewrite Hnil in Hln; simpl in Hln; lia).
  apply always_Ret. split; [done |]. exists offspring, ranked, fs. split_and!; try done.
  intros ind (front & i & Hfront & Hi & ->)%Hmem. exists i. split; [| done].
  assert (Hin : i ∈ seq 0 (length (pop ++ offspring))).
  { rewrite <- (ranked_partition _ _ _ Hr). apply elem_of_concat. by exists front. }
  apply elem_of_seq in Hin. lia.
Qed.

Lemma Ranked_Scored (pop ranked : list Individual) (fs : list (list nat)) (i : nat) :
  Forall (Scored Phi) pop -> Ranked pop ranked fs -> (i < length pop)%nat ->
  Scored Phi (ranked !!! i).
Proof.
  intros Hall Hr Hi. unfold Scored.
  destruct (ranked_same _ _ _ Hr i) as [_ ->].
  by apply (Forall_lookup_total_1 _ _ _ Hall).
Qed.

Lemma Generation_Good (pop pop' : list Individual) :
  Good cfg Phi pop -> Generation cfg Phi pop pop' -> Good cfg Phi pop'.
Proof.
  intros [Hlen Hall] (Hl' & offspring & ranked & fs & [Hlo Hao] & _ & Hlc & _ & Hr & _ & Hmem).
  split; [done |]. apply Forall_forall. intros ind (i & Hi & ->)%Hmem.
  apply (Ranked_Scored (pop ++ offspring) ranked fs); [by apply Forall_app | done | lia].
Qed.

Lemma generationLoop_Good (gens : nat) (pop : list Individual) :
  Good cfg Phi pop -> always (Good cfg Phi) (generationLoop gens cfg pop).
Proof.
  revert pop. induction gens as [| gens IH]; intros pop Hpop; simpl;
    [by apply always_Ret |].
  eapply always_bind; [by apply generation_Generation |].
  intros pop' Hgen. apply IH. by eapply Generation_Good.
Qed.

Lemma initializePopulation_Good :
  always (Good cfg Phi) (initializePopulation cfg).
Proof.
  unfold initializePopulation.
  eapply always_bind.
  - apply (always_forEach_seq
      (fun k pop => length pop = size /\ forall i, (i < k)%nat -> Scored Phi (pop !!! i))).
    + split; [apply length_replicate | intros; lia].
    + intros k pop Hk [Hlen Hdone].
      eapply always_bind; [| intros p _].
      { instantiate (1 := fun _ => True). unfold generateRandomParameters.
        do 10 (intros ? ?). done. }
      eapply always_bind; [apply evaluateObjectives_Scored | intros ind [_ Hs]].
      apply always_Ret. split; [by rewrite length_insert |].
      intros i Hi. destruct (decide (i = k)) as [-> | Hne].
      * rewrite list_lookup_total_insert_eq by lia. done.
      * rewrite list_lookup_total_insert_ne by done. apply Hdone. lia.
  - intros pop [Hlen Hdone]. cbv beta.
    assert (Hall : Forall (Scored Phi) pop).
    { apply (@Forall_lookup_total_2 _ _ Individual_inhabited). intros i Hi. apply Hdone. lia. }
    destruct (rankPopulation_Ranked pop) as (ranked & fs & Hrun & Hr).
    { eapply Forall_impl; [exact Hall |]. by intros ind [? _]. }
    unfold nonDominatedSorting. rewrite Hrun. simpl. apply always_Ret.
    split; [by rewrite (ranked_length _ _ _ Hr) |].
    apply (@Forall_lookup_total_2 _ _ Individual_inhabited). intros i Hi. rewrite (ranked_length _ _ _ Hr) in Hi.
    by apply (Ranked_Scored pop ranked fs).
Qed.

Lemma evolve_Good (gens : nat) :
  always (Good cfg Phi) (evolve cfg gens).
Proof.
  unfold evolve. rewrite validateInputs_valid by done. simpl.
  eapply always_bind; [apply initializePopulation_Good |].
  intros pop Hpop. by apply generationLoop_Good.
Qed.

End Loop.

(** ** Population size *)

Lemma evaluateObjectives_any (cfg : Config) (ind : Individual) :
  always (fun ind' => (fun _ : list Q => True) (objectives ind'))
    (evaluateObjectives ind (duration cfg) (loadFactor cfg)).
Proof. eapply always_mono; [| apply evaluateObjectives_Evaluated]. done. Qed.

Lemma Good_any (cfg : Config) (pop : list Individual) :
  length pop = Z.to_nat (populationSize cfg) -> ThreeObjectives pop ->
  Good cfg (fun _ => True) pop.
Proof.
  intros Hlen Hthree. split; [done |]. eapply Forall_impl; [exact Hthree |].
  intros ind Hind. by split.
Qed.

(** C6. Under a valid configuration the population has exactly
    [populationSize] individuals after any number of generations, and
    each generation, started from such a population, first forms a
    combined population of twice that size and then selects exactly
    [populationSize] individuals from it. *)
Theorem population_size_invariant (G : Generator) (w : World G) (cfg : Config) :
  UnitRange G -> ValidConfig cfg ->
  (forall gens, exists pop w',
     run G (evolve cfg gens) w = (Ok pop, w')
     /\ length pop = Z.to_nat (populationSize cfg))
  /\ (forall pop,
        length pop = Z.to_nat (populationSize cfg) -> ThreeObjectives pop ->
        exists pop' w' offspring ranked fs,
          run G (generation cfg pop) w = (Ok pop', w')
          /\ length (pop ++ offspring) = (2 * Z.to_nat (populationSize cfg))%nat
          /\ rankPopulation (pop ++ offspring) = Some (ranked, fs)
          /\ pop' = selectNextGeneration (Z.to_nat (populationSize cfg)) ranked fs
          /\ length pop' = Z.to_nat (populationSize cfg)).
Proof.
  intros HG Hcfg. split.
  - intros gens.
    destruct (run_always G _ _ w HG
                (evolve_Good cfg Hcfg _
                   (evaluateObjectives_any cfg) gens))
      as (pop & w' & Hrun & [Hlen _]).
    by exists pop, w'.
  - intros pop Hlen Hthree.
    destruct (run_always G _ _ w HG
                (generation_Generation cfg Hcfg _
                   (evaluateObjectives_any cfg) pop (Good_any cfg pop Hlen Hthree)))
      as (pop' & w' & Hrun & Hl' & offspring & ranked & fs
          & _ & _ & Hlc & Hrank & _ & Hsel & _).
    by exists pop', w', offspring, ranked, fs.
Qed.

(** ** Evaluation failures *)

Lemma run_try_catch (G : Generator) {A : Type} (p : Prog A) (handler : string -> Prog A)
    (w : World G) :
  run G (try_catch p handler) w
  = match run G p w with
    | (Raised what, w1) => run G (handler what) w1
    | r => r
    end.
Proof.
  revert w. induction p as [a | k IH | k IH | what | ]; intros w; simpl; try done.
  destruct (next G (rng w)) as [u s]. apply IH.
Qed.

Lemma optimizeSpindleArrangement_returns (cfg : Config) (P : list Individual -> Prop) :
  always P (evolve cfg (Z.to_nat (generations cfg))) ->
  always (fun outcome => exists population,
            P population
            /\ outcome = ParetoFront (filter (fun ind => rank ind = 1%Z) population))
    (optimizeSpindleArrangement cfg).
Proof.
  intros Hev. unfold optimizeSpindleArrangement, always.
  eapply post_try_catch.
  - eapply post_bind; [exact Hev |]. intros population HP. simpl. eauto.
  - intros e [].
Qed.

(** ** Durations below one time step *)

Lemma truncate_small (x : Q) : 0 <= x < 1 -> truncate x = 0%Z.
Proof.
  unfold Qle, Qlt, truncate. simpl. intros [H0 H1]. apply Z.quot_small. lia.
Qed.

Lemma generateDynamicLoadProfile_short (p : SpindleParameters) (d lf : Q) :
  0 < d < 0.1 -> generateDynamicLoadProfile p d lf = Ret [].
Proof.
  intros Hd. unfold generateDynamicLoadProfile, static_cast_int.
  rewrite truncate_small; [done |]. split.
  - apply Qle_shift_div_l; lra.
  - apply Qlt_shift_div_r; lra.
Qed.

Lemma evaluateObjectives_short (ind : Individual) (d lf : Q) :
  0 < d < 0.1 ->
  evaluateObjectives ind d lf
  = Oracle (Ret (setObjectives worstCaseObjectives ind)).
Proof.
  intros Hd. unfold evaluateObjectives, evaluateObjectives_try.
  by rewrite generateDynamicLoadProfile_short.
Qed.

Lemma filter_all {A : Type} (P : A -> Prop) `{!forall x, Decision (P x)} (l : list A) :
  (forall x, x ∈ l -> P x) -> filter P l = l.
Proof.
  induction l as [| x l IH]; intros Hl; [done |].
  rewrite filter_cons_True by (apply Hl; left).
  f_equal. apply IH. intros y Hy. apply Hl. by right.
Qed.

(** When no individual differs from another in its objectives, the whole
    population is the first front. *)
Lemma Ranked_equal_objectives (pop ranked : list Individual) (fs : list (list nat)) :
  (forall i j, (i < length pop)%nat -> (j < length pop)%nat ->
     objectives (pop !!! i) = objectives (pop !!! j)) ->
  Ranked pop ranked fs ->
  forall i, (i < length pop)%nat -> rank (ranked !!! i) = 1%Z.
Proof.
  intros Heq Hr i Hi.
  assert (Hdom : forall a b, (a < length pop)%nat -> (b < length pop)%nat ->
            dom pop a b = false).
  { intros a b Ha Hb. unfold dom.
    rewrite (dominates_objectives _ _ (pop !!! a) (pop !!! a)); [| done | by apply Heq].
    apply dominates_irrefl. }
  assert (Hfirst : firstFront pop = seq 0 (length pop)).
  { unfold firstFront. apply filter_all. intros j Hj%elem_of_seq.
    unfold dominatorCount. rewrite (proj2 (length_zero_iff_nil _)); [done |].
    apply elem_of_nil_inv. intros k (Hk & Hin)%list_elem_of_filter.
    apply elem_of_seq in Hin. destruct Hk as (_ & _ & Hk).
    rewrite Hdom in Hk by lia. done. }
  assert (Hin : i ∈ concat fs).
  { rewrite (ranked_partition _ _ _ Hr). apply elem_of_seq. lia. }
  destruct fs as [| front fs]; [by apply elem_of_nil in Hin |].
  pose proof (ranked_first _ _ _ Hr front eq_refl) as ->.
  rewrite (ranked_rank _ _ _ Hr 0 (firstFront pop) i eq_refl); [done |].
  rewrite Hfirst. apply elem_of_seq. lia.
Qed.

Lemma Generation_sentinel (cfg : Config) (pop pop' : list Individual) :
  Good cfg (fun o => o = worstCaseObjectives) pop ->
  Generation cfg (fun o => o = worstCaseObjectives) pop pop' ->
  forall ind, ind ∈ pop' -> rank ind = 1%Z.
Proof.
  intros [Hlen Hall] (Hl' & offspring & ranked & fs & [Hlo Hao] & _ & Hlc & _ & Hr & _ & Hmem).
  intros ind (i & Hi & ->)%Hmem.
  apply (Ranked_equal_objectives (pop ++ offspring) ranked fs); [| done | lia].
  assert (Hc : Forall (Scored (fun o => o = worstCaseObjectives)) (pop ++ offspring))
    by by apply Forall_app.
  intros a b Ha Hb.
  destruct (Forall_lookup_total_1 _ _ a Hc Ha) as [_ ->].
  by destruct (Forall_lookup_total_1 _ _ b Hc Hb) as [_ ->].
Qed.

Lemma generationLoop_sentinel (cfg : Config) (gens : nat) (pop : list Individual) :
  ValidConfig cfg ->
  (forall ind, always (fun ind' => objectives ind' = worstCaseObjectives)
     (evaluateObjectives ind (duration cfg) (loadFactor cfg))) ->
  Good cfg (fun o => o = worstCaseObjectives) pop ->
  always (fun pop' => Good cfg (fun o => o = worstCaseObjectives) pop'
            /\ forall ind, ind ∈ pop' -> rank ind = 1%Z)
    (generationLoop (S gens) cfg pop).
Proof.
  intros Hcfg Heval. revert pop. induction gens as [| gens IH]; intros pop Hpop.
  - simpl. eapply always_bind;
      [exact (generation_Generation cfg Hcfg
                (fun o => o = worstCaseObjectives) Heval pop Hpop) |].
    intros pop' Hgen. apply always_Ret. split.
    + exact (Generation_Good cfg _ pop pop' Hpop Hgen).
    + by eapply Generation_sentinel.
  - change (generationLoop (S (S gens)) cfg pop)
      with (bind (generation cfg pop)
              (fun population => generationLoop (S gens) cfg population)).
    eapply always_bind;
      [exact (generation_Generation cfg Hcfg
                (fun o => o = worstCaseObjectives) Heval pop Hpop) |].
    intros pop' Hgen. apply IH. exact (Generation_Good cfg _ pop pop' Hpop Hgen).
Qed.

(** C10. Under a valid configuration whose duration is below the 0.1 s
    time step, the load profile is empty, every evaluation yields the
    worst-case objectives, every population of the run consists of
    [populationSize] such individuals, and the run completes with a
    Pareto front that is the whole last population. *)
Theorem short_duration_all_sentinel (G : Generator) (w : World G) (cfg : Config) :
  UnitRange G -> ValidConfig cfg -> duration cfg < 0.1 ->
  (forall p, generateDynamicLoadProfile p (duration cfg) (loadFactor cfg) = Ret [])
  /\ (forall ind,
        evaluateObjectives ind (duration cfg) (loadFactor cfg)
        = Oracle (Ret (setObjectives worstCaseObjectives ind)))
  /\ (forall gens, exists pop w',
        run G (evolve cfg gens) w = (Ok pop, w')
        /\ length pop = Z.to_nat (populationSize cfg)
        /\ forall ind, ind ∈ pop -> objectives ind = worstCaseObjectives)
  /\ (exists solutions w',
        run G (optimizeSpindleArrangement cfg) w
        = (Ok (ParetoFront solutions), w')
        /\ length solutions = Z.to_nat (populationSize cfg)
        /\ forall ind, ind ∈ solutions -> objectives ind = worstCaseObjectives).
Proof.
  intros HG Hcfg Hshort.
  assert (Hd : 0 < duration cfg < 0.1) by (destruct Hcfg; lra).
  assert (Heval : forall ind, always (fun ind' => objectives ind' = worstCaseObjectives)
     (evaluateObjectives ind (duration cfg) (loadFactor cfg))).
  { intros ind. rewrite evaluateObjectives_short by done. done. }
  split_and!.
  - intros p. by apply generateDynamicLoadProfile_short.
  - intros ind. by apply evaluateObjectives_short.
  - intros gens.
    destruct (run_always G _ _ w HG
                (evolve_Good cfg Hcfg
                   (fun o => o = worstCaseObjectives) Heval gens))
      as (pop & w' & Hrun & Hlen & Hall).
    exists pop, w'. split_and!; try done.
    intros ind Hind. rewrite Forall_forall in Hall. by destruct (Hall ind Hind).
  - assert (Hgens : exists g, Z.to_nat (generations cfg) = S g).
    { destruct Hcfg as (_ & _ & _ & ?). exists (Z.to_nat (generations cfg) - 1)%nat. lia. }
    destruct Hgens as [g Hg].
    assert (Hev : always (fun pop' => Good cfg (fun o => o = worstCaseObjectives) pop'
                            /\ forall ind, ind ∈ pop' -> rank ind = 1%Z)
                    (evolve cfg (Z.to_nat (generations cfg)))).
    { rewrite Hg. unfold evolve. rewrite validateInputs_valid by done.
      change (bind (Ret tt) ?f) with (f tt). cbv beta.
      eapply always_bind;
        [exact (initializePopulation_Good cfg
                  (fun o => o = worstCaseObjectives) Heval) |].
      intros pop Hpop. by apply generationLoop_sentinel. }
    destruct (run_always G _ _ w HG (optimizeSpindleArrangement_returns cfg _ Hev))
      as (outcome & w' & Hrun & population & [[Hlen Hall] Hrank] & ->).
    rewrite filter_all in Hrun by done.
    exists population, w'. split_and!; try done.
    intros ind Hind. rewrite Forall_forall in Hall. by destruct (Hall ind Hind).
Qed.

(** ** Programs are functions of their draws *)

(** Every program of the embedding gives the same result on two
    generators that deliver the same draws: the only source of
    randomness a program has is the generator it is run on. *)

Lemma run_SameDraws (G1 G2 : Generator) (R : Rng G1 -> Rng G2 -> Prop) {A : Type}
    (p : Prog A) (w1 : World G1) (w2 : World G2) :
  SameDraws G1 G2 R -> R (rng w1) (rng w2) ->
  fst (run G1 p w1) = fst (run G2 p w2)
  /\ R (rng (snd (run G1 p w1))) (rng (snd (run G2 p w2))).
Proof.
  intros HR. revert w1 w2.
  induction p as [a | k IH | k IH | what | ]; intros w1 w2 Hw; simpl; try done.
  - destruct (HR _ _ Hw) as [Hu Hs].
    destruct (next G1 (rng w1)) as [u1 s1], (next G2 (rng w2)) as [u2 s2].
    simpl in *. subst u2. by apply IH.
  - by apply IH.
Qed.

(** ** Parent selection *)

Lemma run_bind (G : Generator) {A B : Type} (p : Prog A) (f : A -> Prog B) (w : World G) :
  run G (bind p f) w
  = match run G p w with
    | (Ok a, w1) => run G (f a) w1
    | (Raised what, w1) => (Raised what, w1)
    | (Stuck, w1) => (Stuck, w1)
    end.
Proof.
  revert w. induction p as [a | k IH | k IH | what | ]; intros w; simpl; try done.
  destruct (next G (rng w)) as [u s]. apply IH.
Qed.

Lemma xgtb_asym (a b : xdouble) : xgtb a b = true -> xgtb b a = false.
Proof.
  destruct a as [x |], b as [y |]; simpl; try done.
  rewrite Qltb_lt, Qltb_ge. lra.
Qed.

Lemma precedes_asym (a b : Individual) : precedes a b = true -> precedes b a = false.
Proof.
  unfold precedes. intros [Hlt | [Heq Hgt]%andb_true_iff]%orb_true_iff.
  - apply Z.ltb_lt in Hlt. apply orb_false_iff. split; [apply Z.ltb_ge; lia |].
    apply andb_false_iff. left. apply Z.eqb_neq. lia.
  - apply Z.eqb_eq in Heq. apply orb_false_iff. split; [apply Z.ltb_ge; lia |].
    apply andb_false_iff. right. by apply xgtb_asym.
Qed.

(** ** A failed evaluation *)

(** C4. [evaluateObjectives] always hands back the individual with a
    three-element objective vector and never lets an exception out.  The
    one failure its [try] block raises is the empty load profile, which
    is what a duration below one time step produces; whenever the block
    raises, the objectives are the worst-case vector
    [{1e10, -1e-10, 1e10}] and the individual is otherwise untouched.  A
    run under a valid configuration ends with a Pareto front, never with
    a failure, also when every evaluation fails. *)
Theorem evaluation_failure_gives_sentinel
    (G : Generator) (w : World G) (ind : Individual) (d lf : Q) :
  UnitRange G ->
  (exists ind' w',
     run G (evaluateObjectives ind d lf) w = (Ok ind', w')
     /\ length (objectives ind') = 3%nat /\ params ind' = params ind)
  /\ (forall what w',
        run G (evaluateObjectives_try ind d lf)
          (mkWorld (rng w) (S (oracleCalls w))) = (Raised what, w') ->
        what = "Empty load profile generated"%string
        /\ run G (evaluateObjectives ind d lf) w
           = (Ok (setObjectives worstCaseObjectives ind), w'))
  /\ (0 < d < 0.1 ->
      run G (evaluateObjectives_try ind d lf) (mkWorld (rng w) (S (oracleCalls w)))
      = (Raised "Empty load profile generated", mkWorld (rng w) (S (oracleCalls w))))
  /\ (forall cfg, ValidConfig cfg ->
        exists solutions w',
          run G (optimizeSpindleArrangement cfg) w
          = (Ok (ParetoFront solutions), w')).
Proof.
  intros HG. split_and!.
  - destruct (run_always G _ _ w HG (evaluateObjectives_Evaluated ind d lf))
      as (ind' & w' & Hrun & Hp & _ & _ & Hlen).
    by exists ind', w'.
  - intros what w' Hraise. split.
    + unfold evaluateObjectives_try in Hraise. rewrite run_bind in Hraise.
      destruct (run_always G _ _ (mkWorld (rng w) (S (oracleCalls w))) HG
                  (generateDynamicLoadProfile_returns (params ind) d lf))
        as (profile & w1 & Hrun & _).
      rewrite Hrun in Hraise. destruct profile as [| x profile]; simpl in Hraise.
      * by injection Hraise as <- _.
      * discriminate Hraise.
    + unfold evaluateObjectives. simpl. rewrite run_try_catch, Hraise. done.
  - intros Hd. unfold evaluateObjectives_try.
    by rewrite generateDynamicLoadProfile_short.
  - intros cfg Hcfg.
    destruct (run_always G _ _ w HG
                (optimizeSpindleArrangement_returns cfg _
                   (evolve_Good cfg Hcfg _
                      (evaluateObjectives_any cfg) _)))
      as (outcome & w' & Hrun & population & _ & ->).
    eauto.
Qed.

(* ================================================================== *)
(** * Further properties *)

(** ** Parameter checks *)

Lemma validateParameters_Valid_iff (p : SpindleParameters) :
  validateParameters p = "Valid"
  <-> 0.5 <= powerRating p <= 50
      /\ (1000 <= maxSpeed p <= 30000)%Z
      /\ 50 <= wheelDiameter p <= 1000
      /\ 100 <= bearingPreload p <= 2000
      /\ 0.0001 <= alignmentTolerance p <= 0.01.
Proof.
  unfold validateParameters.
  destruct (Qltb (powerRating p) 0.5) eqn:E1;
    [apply Qltb_lt in E1 | apply Qltb_ge in E1]; simpl;
    [split; [discriminate | lra] |].
  destruct (Qltb 50.0 (powerRating p)) eqn:E2;
    [apply Qltb_lt in E2 | apply Qltb_ge in E2]; simpl;
    [split; [discriminate | lra] |].
  destruct (maxSpeed p <? 1000)%Z eqn:E3;
    [apply Z.ltb_lt in E3 | apply Z.ltb_ge in E3]; simpl;
    [split; [discriminate | lia] |].
  destruct (30000 <? maxSpeed p)%Z eqn:E4;
    [apply Z.ltb_lt in E4 | apply Z.ltb_ge in E4]; simpl;
    [split; [discriminate | lia] |].
  destruct (Qltb (wheelDiameter p) 50) eqn:E5;
    [apply Qltb_lt in E5 | apply Qltb_ge in E5]; simpl;
    [split; [discriminate | lra] |].
  destruct (Qltb 1000 (wheelDiameter p)) eqn:E6;
    [apply Qltb_lt in E6 | apply Qltb_ge in E6]; simpl;
    [split; [discriminate | lra] |].
  destruct (Qltb (bearingPreload p) 100) eqn:E7;
    [apply Qltb_lt in E7 | apply Qltb_ge in E7]; simpl;
    [split; [discriminate | lra] |].
  destruct (Qltb 2000 (bearingPreload p)) eqn:E8;
    [apply Qltb_lt in E8 | apply Qltb_ge in E8]; simpl;
    [split; [discriminate | lra] |].
  destruct (Qltb (alignmentTolerance p) 0.0001) eqn:E9;
    [apply Qltb_lt in E9 | apply Qltb_ge in E9]; simpl;
    [split; [discriminate | lra] |].
  destruct (Qltb 0.01 (alignmentTolerance p)) eqn:E10;
    [apply Qltb_lt in E10 | apply Qltb_ge in E10]; simpl;
    [split; [discriminate | lra] |].
  split; [intros _ | done]. split_and!; first [lra | lia].
Qed.

(** X1. [validateParameters] answers "Valid" exactly when the five
    numeric fields are within their bounds; the categorical fields are
    never looked at, so two parameter sets with the same numeric fields
    get the same answer. *)
Theorem validateParameters_checks_numeric_bounds (p : SpindleParameters) :
  (validateParameters p = "Valid"
   <-> 0.5 <= powerRating p <= 50
       /\ (1000 <= maxSpeed p <= 30000)%Z
       /\ 50 <= wheelDiameter p <= 1000
       /\ 100 <= bearingPreload p <= 2000
       /\ 0.0001 <= alignmentTolerance p <= 0.01)
  /\ (forall q,
        powerRating q == powerRating p -> maxSpeed q = maxSpeed p ->
        wheelDiameter q == wheelDiameter p -> bearingPreload q == bearingPreload p ->
        alignmentTolerance q == alignmentTolerance p ->
        validateParameters q = validateParameters p).
Proof.
  split.
  - apply validateParameters_Valid_iff.
  - intros q H1 H2 H3 H4 H5. unfold validateParameters. rewrite H2.
    assert (Hlt : forall a b c d, a == b -> c == d -> Qltb a c = Qltb b d).
    { intros a b c d Hab Hcd. destruct (Qltb b d) eqn:E.
      - apply Qltb_lt. apply Qltb_lt in E. lra.
      - apply Qltb_ge. apply Qltb_ge in E. lra. }
    rewrite (Hlt (powerRating q) (powerRating p) 0.5 0.5 H1 (Qeq_refl _)).
    rewrite (Hlt 50.0 50.0 (powerRating q) (powerRating p) (Qeq_refl _) H1).
    rewrite (Hlt (wheelDiameter q) (wheelDiameter p) 50 50 H3 (Qeq_refl _)).
    rewrite (Hlt 1000 1000 (wheelDiameter q) (wheelDiameter p) (Qeq_refl _) H3).
    rewrite (Hlt (bearingPreload q) (bearingPreload p) 100 100 H4 (Qeq_refl _)).
    rewrite (Hlt 2000 2000 (bearingPreload q) (bearingPreload p) (Qeq_refl _) H4).
    rewrite (Hlt (alignmentTolerance q) (alignmentTolerance p) 0.0001 0.0001 H5 (Qeq_refl _)).
    rewrite (Hlt 0.01 0.01 (alignmentTolerance q) (alignmentTolerance p) (Qeq_refl _) H5).
    reflexivity.
Qed.


(** ** Random individuals *)

Lemma generateRandomParameters_parameter_space :
  always ParameterSpace generateRandomParameters.
Proof.
  unfold generateRandomParameters.
  do 10 (eapply always_bind; [apply always_dist | intros ? ?; cbv beta in *]).
  apply always_Ret. constructor; simpl;
    try lra;
    try (apply pick_elem_of; [assumption | discriminate]).
  apply (truncate_bounds 1000 30000). unfold inject_Z. lra.
Qed.

(** X2. [generateRandomParameters] always returns, makes exactly ten
    draws and none of them inside the oracle, and its result lies in the
    parameter space: the five numeric fields within their bounds, which
    [validateParameters] accepts, and every categorical field a member of
    its enumeration. *)
Theorem generateRandomParameters_in_parameter_space (G : Generator) (w : World G) :
  UnitRange G ->
  exists p,
    run G generateRandomParameters w
    = (Ok p, mkWorld (Nat.iter 10 (fun s => snd (next G s)) (rng w)) (oracleCalls w))
    /\ ParameterSpace p
    /\ validateParameters p = "Valid".
Proof.
  intros HG.
  destruct (run_always G ParameterSpace generateRandomParameters w HG
              generateRandomParameters_parameter_space) as (p & w' & Hrun & Hp).
  exists p. split_and!; [| exact Hp |].
  - rewrite Hrun. f_equal.
    assert (Hw : snd (run G generateRandomParameters w)
                 = mkWorld (Nat.iter 10 (fun s => snd (next G s)) (rng w)) (oracleCalls w)).
    { unfold generateRandomParameters. simpl.
      repeat match goal with
             | |- context [next G ?s] =>
                 lazymatch s with
                 | context [next] => fail
                 | _ => destruct (next G s) as [? ?]; simpl
                 end
             end.
      reflexivity. }
    rewrite Hrun in Hw. exact Hw.
  - apply validateParameters_Valid_iff. destruct Hp. done.
Qed.


(** ** Dominance and ranks *)

Lemma Forall2_Qle_strict (a b : list Q) :
  Forall2 Qle a b ->
  (~ Forall2 Qle b a
   <-> exists i x y, a !! i = Some x /\ b !! i = Some y /\ x < y).
Proof.
  induction 1 as [| x y a b Hxy Hab IH].
  - split; [intros H; destruct H; constructor |].
    intros (i & x & y & Hx & _). by rewrite lookup_nil in Hx.
  - split.
    + intros Hn. destruct (Qlt_le_dec x y) as [Hlt | Hle].
      * by exists 0%nat, x, y.
      * assert (Hn' : ~ Forall2 Qle b a).
        { intros Hba. apply Hn. by constructor. }
        apply IH in Hn' as (i & x' & y' & Hx & Hy & Hlt).
        by exists (S i), x', y'.
    + intros (i & x' & y' & Hx & Hy & Hlt) Hba.
      apply Forall2_cons_1 in Hba as [Hyx Hba].
      destruct i as [| i]; simpl in *.
      * injection Hx as ->. injection Hy as ->. lra.
      * apply IH; [| exact Hba]. by exists i, x', y'.
Qed.

(** X3. On objective vectors of one length, [dominates a b] holds exactly
    when [a] is no worse than [b] in every objective and strictly better
    in at least one; it is irreflexive, asymmetric and transitive, so
    two individuals with equal objectives never dominate each other. *)
Theorem dominates_strict_partial_order (a b c : Individual) :
  length (objectives a) = length (objectives b) ->
  length (objectives b) = length (objectives c) ->
  (dominates a b = true
   <-> Forall2 Qle (objectives a) (objectives b)
       /\ exists i x y, objectives a !! i = Some x /\ objectives b !! i = Some y /\ x < y)
  /\ dominates a a = false
  /\ (dominates a b = true -> dominates b a = false)
  /\ (dominates a b = true -> dominates b c = true -> dominates a c = true)
  /\ (objectives a = objectives b -> dominates a b = false).
Proof.
  intros Hab Hbc. split_and!.
  - rewrite dominates_spec by done. split.
    + intros [H1 H2]. split; [done |]. by apply Forall2_Qle_strict.
    + intros [H1 H2]. split; [done |]. by apply Forall2_Qle_strict.
  - apply dominates_irrefl.
  - by apply dominates_asym.
  - by apply dominates_trans.
  - intros Heq. rewrite (dominates_objectives a b a a) by done. apply dominates_irrefl.
Qed.

Lemma ndom_pos (pop : list Individual) (l : list nat) (j : nat) :
  (0 < ndom pop l j)%nat -> exists i, i ∈ l /\ dom pop i j = true.
Proof.
  unfold ndom. intros H.
  destruct (filter (fun i => dom pop i j = true) l) as [| i l'] eqn:E; [simpl in H; lia |].
  assert (Hi : i ∈ filter (fun i => dom pop i j = true) l) by (rewrite E; left).
  apply list_elem_of_filter in Hi as [Hd Hi]. eauto.
Qed.

Lemma concat_take_S {A : Type} (ls : list (list A)) (k : nat) (l : list A) :
  ls !! k = Some l -> concat (take (S k) ls) = concat (take k ls) ++ l.
Proof.
  intros Hk. rewrite (take_S_r _ _ _ Hk), concat_app. simpl. by rewrite app_nil_r.
Qed.

Lemma Layered_start (pop : list Individual) :
  ThreeObjectives pop -> Layered pop (fronts (scanPopulation pop)).
Proof.
  intros Hthree m front j Hm Hj.
  pose proof (scanPopulation_Peeled pop Hthree) as Hst.
  assert (m = 0%nat) as ->.
  { apply lookup_lt_Some in Hm. pose proof (peeled_index _ _ _ Hst). lia. }
  split; [| lia]. intros i Hi Hd. exfalso.
  apply (peeled_first _ _ _ Hst) in Hm as ->.
  assert (Hjn : (j < length pop)%nat).
  { apply list_elem_of_filter in Hj as [_ Hj]. apply elem_of_seq in Hj. lia. }
  apply list_elem_of_filter in Hj as [Hz _].
  rewrite (dominatorCount_ndom pop Hthree j Hjn) in Hz.
  assert (Hz' : ndom pop (seq 0 (length pop)) j = 0%nat) by lia.
  rewrite (proj1 (ndom_zero pop _ j) Hz' i) in Hd; [done |].
  apply elem_of_seq. lia.
Qed.

Lemma peelFront_fronts (frontIdx : nat) (st : Sorting) (front : list nat) :
  fronts (peelFront frontIdx st front).1 = fronts st.
Proof.
  rewrite peelFront_flat.
  generalize (concat (map (fun i => dominatedBy st !!! i) front)).
  intros js. change (fronts st) with (fronts (st, @nil nat).1).
  generalize (st, @nil nat). induction js as [| j js IH]; intros acc; [done |].
  simpl. rewrite IH. unfold releaseStep. by case_decide.
Qed.

Lemma peelFront_Layered (pop : list Individual) (k : nat) (st : Sorting) (front : list nat) :
  ThreeObjectives pop -> Peeled pop k st -> fronts st !! k = Some front ->
  Layered pop (fronts st) ->
  Layered pop (fronts (afterFront (peelFront k st front))).
Proof.
  intros Hthree Hst Hk Hlay.
  destruct (peelFront_Peeled pop k st front Hthree Hst Hk) as (Hst1 & Hcat & Hlenf).
  destruct (afterFront_fields (peelFront k st front)) as (_ & Hfs & _ & _).
  set (new := (peelFront k st front).2) in *.
  set (st1 := afterFront (peelFront k st front)) in *.
  assert (Hfs1 : fronts st1 = fronts st ++ wrap new).
  { rewrite Hfs. by rewrite peelFront_fronts. }
  assert (Hlen : length (fronts st) = S k).
  { rewrite Hfs1, length_app in Hlenf. lia. }
  intros m front' j Hm Hj. rewrite Hfs1 in Hm.
  destruct (decide (m < length (fronts st))%nat) as [Hlt | Hge].
  - rewrite lookup_app_l in Hm by done.
    destruct (Hlay m front' j Hm Hj) as [H1 H2]. split.
    + intros i Hi Hd. rewrite Hfs1, take_app_le by lia. by apply H1.
    + intros Hpos. destruct (H2 Hpos) as (f' & i & Hf' & Hi & Hd).
      exists f', i. rewrite Hfs1, lookup_app_l by lia. done.
  - rewrite lookup_app_r in Hm by lia.
    assert (Hnew : new <> [] /\ m = S k /\ front' = new).
    { destruct new as [| x new'] eqn:Enew; simpl in Hm.
      - by rewrite lookup_nil in Hm.
      - destruct (m - length (fronts st))%nat as [| d] eqn:Ed; simpl in Hm.
        + injection Hm as <-. split; [done |]. split; [lia | done].
        + by rewrite lookup_nil in Hm. }
    destruct Hnew as (Hne & -> & ->).
    assert (Hjn : (j < length pop)%nat).
    { apply (peeled_bound _ _ _ Hst1). rewrite Hcat. apply elem_of_app. by right. }
    assert (Hj1 : j ∈ concat (fronts st1)).
    { rewrite Hcat. apply elem_of_app. by right. }
    assert (Htake : concat (take (S k) (fronts st1)) = concat (fronts st)).
    { rewrite Hfs1, take_app_le by lia. by rewrite take_ge by lia. }
    assert (Hall : ndom pop (concat (fronts st)) j = ndom pop (seq 0 (length pop)) j).
    { pose proof (proj1 (peeled_zero _ _ _ Hst1 j Hjn) Hj1) as Hz.
      rewrite (peeled_count _ _ _ Hst1 j Hjn), Htake in Hz.
      pose proof (ndom_le pop (concat (fronts st)) j (peeled_nodup _ _ _ Hst)
                    (peeled_bound _ _ _ Hst)).
      lia. }
    split.
    + intros i Hi Hd. rewrite Htake.
      apply (proj1 (ndom_all pop (concat (fronts st)) j (peeled_nodup _ _ _ Hst)
                      (peeled_bound _ _ _ Hst)) Hall i Hi Hd).
    + intros _. replace (S k - 1)%nat with k by lia.
      assert (Hnotin : j ∉ concat (fronts st)).
      { pose proof (peeled_nodup _ _ _ Hst1) as Hnd. rewrite Hcat in Hnd.
        apply NoDup_app in Hnd as (_ & Hdis & _). intros Hin. by apply (Hdis j). }
      assert (Hcount : dominationCount st !!! j <> 0%Z).
      { intros Hz. apply Hnotin. by apply (peeled_zero _ _ _ Hst j Hjn). }
      rewrite (peeled_count _ _ _ Hst j Hjn) in Hcount.
      assert (Hsplit : concat (fronts st) = concat (take k (fronts st)) ++ front).
      { rewrite <- (concat_take_S _ _ _ Hk). by rewrite take_ge by lia. }
      rewrite Hsplit, ndom_app in Hall.
      destruct (ndom_pos pop front j) as (i & Hi & Hd); [lia |].
      exists front, i. rewrite Hfs1, lookup_app_l by lia. done.
Qed.

Lemma peelLoop_Layered (pop : list Individual) :
  ThreeObjectives pop ->
  forall budget k st st',
    Peeled pop k st -> Layered pop (fronts st) ->
    peelLoop budget k st = Some st' -> Layered pop (fronts st').
Proof.
  intros Hthree. induction budget as [| budget IH]; intros k st st' Hst Hlay Hrun.
  - simpl in Hrun. destruct (fronts st !! k) as [[| i front] |] eqn:Hk.
    + by injection Hrun as <-.
    + done.
    + by injection Hrun as <-.
  - simpl in Hrun. destruct (fronts st !! k) as [[| i front] |] eqn:Hk.
    + by injection Hrun as <-.
    + fold (afterFront (peelFront k st (i :: front))) in Hrun.
      destruct (peelFront_Peeled pop k st (i :: front) Hthree Hst Hk) as (Hst1 & _ & _).
      apply (IH _ _ _ Hst1); [| done]. by apply peelFront_Layered.
    + by injection Hrun as <-.
Qed.

(** X4. The ranks follow dominance.  After sorting, an individual that
    dominates another has the strictly lower rank, and an individual of
    rank [r > 1] is dominated by one of rank [r - 1]: the rank is one
    more than the length of the longest chain of dominators. *)
Theorem ranks_follow_dominance (pop : list Individual) :
  ThreeObjectives pop ->
  exists pop' fs,
    rankPopulation pop = Some (pop', fs)
    /\ (forall i j, (i < length pop)%nat -> (j < length pop)%nat ->
          dominates (pop' !!! i) (pop' !!! j) = true ->
          (rank (pop' !!! i) < rank (pop' !!! j))%Z)
    /\ (forall j, (j < length pop)%nat -> (1 < rank (pop' !!! j))%Z ->
          exists i, (i < length pop)%nat
                    /\ rank (pop' !!! i) = (rank (pop' !!! j) - 1)%Z
                    /\ dominates (pop' !!! i) (pop' !!! j) = true).
Proof.
  intros Hthree. destruct (peelLoop_Fronts pop Hthree) as (st & Hrun & Hf).
  pose proof (peelLoop_Layered pop Hthree _ _ _ _ (scanPopulation_Peeled pop Hthree)
                (Layered_start pop Hthree) Hrun) as Hlay.
  pose proof Hf as [F1 F2 F3 F4 F5 F6].
  pose proof (crowdingDistances_Crowded (population st) (fronts st)) as Hc.
  exists (crowdingDistances (population st) (fronts st)), (fronts st).
  assert (Hrank : forall m front j, fronts st !! m = Some front -> j ∈ front ->
     rank (crowdingDistances (population st) (fronts st) !!! j)
     = (Z.of_nat m + 1)%Z).
  { intros m front j Hm Hj. destruct (crowded_same _ _ Hc j) as (_ & _ & ->).
    by eapply F3. }
  assert (Hfront : forall i, (i < length pop)%nat ->
     exists m front, fronts st !! m = Some front /\ i ∈ front).
  { intros i Hi. assert (Hin : i ∈ concat (fronts st)).
    { rewrite F1. apply elem_of_seq. lia. }
    apply elem_of_concat in Hin as (front & Hin & Hfr).
    apply list_elem_of_lookup_1 in Hfr as [m Hm]. eauto. }
  assert (Hdom : forall i j,
     dominates (crowdingDistances (population st) (fronts st) !!! i)
       (crowdingDistances (population st) (fronts st) !!! j) = dom pop i j).
  { intros i j. unfold dom. apply dominates_objectives.
    - destruct (crowded_same _ _ Hc i) as (_ & -> & _). by destruct (F6 i) as (_ & -> & _).
    - destruct (crowded_same _ _ Hc j) as (_ & -> & _). by destruct (F6 j) as (_ & -> & _). }
  split; [by unfold rankPopulation; rewrite Hrun |]. split.
  - intros i j Hi Hj Hd. rewrite Hdom in Hd.
    destruct (Hfront j Hj) as (m & front & Hm & Hin).
    destruct (Hlay m front j Hm Hin) as [H1 _].
    specialize (H1 i Hi Hd).
    apply elem_of_concat in H1 as (front' & Hi' & Hfr').
    apply list_elem_of_lookup_1 in Hfr' as [m' Hm'].
    apply lookup_take_Some in Hm' as [Hm' Hlt].
    rewrite (Hrank m front j Hm Hin), (Hrank m' front' i Hm' Hi'). lia.
  - intros j Hj Hr.
    destruct (Hfront j Hj) as (m & front & Hm & Hin).
    rewrite (Hrank m front j Hm Hin) in *.
    destruct (Hlay m front j Hm Hin) as [_ H2].
    destruct H2 as (front' & i & Hm' & Hi' & Hd); [lia |].
    exists i. split_and!.
    + eapply Fronts_valid; [exact Hf | | exact Hi']. by eapply list_elem_of_lookup_2.
    + rewrite (Hrank _ front' i Hm' Hi'). lia.
    + by rewrite Hdom.
Qed.


(** ** Counting the entries into the oracle *)

Lemma calls_bind {A B : Type} (P : A -> Prop) (n m : nat) (p : Prog A) (f : A -> Prog B) :
  always P p -> calls n p -> (forall a, P a -> calls m (f a)) ->
  calls (n + m) (bind p f).
Proof.
  intros Hp Hn Hf. revert n Hn.
  induction p as [a | k IH | k IH | what |]; intros n Hn; simpl in *.
  - subst n. by apply Hf.
  - intros u Hu. apply IH; [by apply Hp | by apply Hn].
  - destruct n as [| n]; [done |]. simpl. by apply IH.
  - destruct Hp.
  - done.
Qed.

Lemma calls_try_catch {A : Type} (n : nat) (p : Prog A) (handler : string -> Prog A) :
  calls n p -> (forall e, calls 0 (handler e)) -> calls n (try_catch p handler).
Proof.
  intros Hn Hh. revert n Hn.
  induction p as [a | k IH | k IH | what |]; intros n Hn; simpl in *.
  - done.
  - intros u Hu. apply IH. by apply Hn.
  - destruct n as [| n]; [done |]. by apply IH.
  - subst n. apply Hh.
  - done.
Qed.

Lemma calls_forEach_from {A : Type} (I : nat -> A -> Prop) (c : nat)
    (body : A -> nat -> Prog A) (s n : nat) (acc : A) :
  I s acc ->
  (forall k a, (s <= k < s + n)%nat -> I k a ->
     always (I (S k)) (body a k) /\ calls c (body a k)) ->
  calls (n * c) (forEach (seq s n) body acc).
Proof.
  revert s acc. induction n as [| n IH]; intros s acc Hacc Hbody; simpl; [done |].
  destruct (Hbody s acc) as [Ha Hc]; [lia | done |].
  eapply calls_bind; [exact Ha | exact Hc |].
  intros acc' Hacc'. apply IH; [exact Hacc' |]. intros k a Hk. apply Hbody. lia.
Qed.

Lemma run_calls (G : Generator) {A : Type} (P : A -> Prop) (n : nat)
    (p : Prog A) (w : World G) :
  UnitRange G -> always P p -> calls n p ->
  exists a w', run G p w = (Ok a, w') /\ P a
               /\ oracleCalls w' = (oracleCalls w + n)%nat.
Proof.
  intros HG. revert n w.
  induction p as [a | k IH | k IH | what |]; intros n w Hp Hn; simpl in *.
  - subst n. exists a, w. split_and!; [done | done | lia].
  - pose proof (HG (rng w)) as Hu. destruct (next G (rng w)) as [u s]. simpl in Hu.
    destruct (IH u n (mkWorld s (oracleCalls w)) (Hp u Hu) (Hn u Hu))
      as (a & w' & Hrun & Ha & Hc).
    by exists a, w'.
  - destruct n as [| n]; [done |].
    destruct (IH n (mkWorld (rng w) (S (oracleCalls w))) Hp Hn)
      as (a & w' & Hrun & Ha & Hc).
    exists a, w'. split_and!; [done | done |]. simpl in Hc. lia.
  - destruct Hp.
  - destruct Hp.
Qed.

(** ** The load profile and the objective ranges *)

Lemma std_max_ge_l (a b : Q) : a <= std_max a b.
Proof. unfold std_max. destruct (Qltb a b) eqn:E; [apply Qltb_lt in E | ]; lra. Qed.

Lemma std_min_le_r (a b : Q) : std_min a b <= b.
Proof. unfold std_min. destruct (Qltb b a) eqn:E; [| apply Qltb_ge in E]; lra. Qed.

Lemma std_min_le_l (a b : Q) : std_min a b <= a.
Proof. unfold std_min. destruct (Qltb b a) eqn:E; [apply Qltb_lt in E |]; lra. Qed.

Lemma truncate_nonpos (x : Q) : x <= 0 -> (truncate x <= 0)%Z.
Proof.
  intros Hx. unfold truncate.
  assert (Hn : (Qnum x <= 0)%Z).
  { unfold Qle in Hx. simpl in Hx. lia. }
  replace (Qnum x) with (- - Qnum x)%Z by lia.
  rewrite Z.quot_opp_l by done.
  pose proof (Z.quot_pos (- Qnum x) (Z.pos (Qden x))). lia.
Qed.

Lemma truncate_ge_1 (x : Q) : 1 <= x -> (1 <= truncate x)%Z.
Proof.
  unfold Qle, truncate. simpl. intros H. apply Z.quot_le_lower_bound; lia.
Qed.

Lemma truncate_floor (x : Q) :
  0 <= x -> inject_Z (truncate x) <= x /\ x < inject_Z (truncate x) + 1.
Proof.
  destruct x as [n d]. unfold Qle, Qlt, truncate, inject_Z. simpl. intros Hn.
  rewrite ?Z.mul_1_r in *.
  pose proof (Z.quot_rem' n (Z.pos d)) as Hqr.
  pose proof (Z.rem_bound_pos n (Z.pos d) ltac:(lia) ltac:(lia)) as Hr.
  nia.
Qed.

Lemma static_cast_int_truncate (x : Q) :
  (INT_MIN <= truncate x <= INT_MAX)%Z -> static_cast_int x = truncate x.
Proof.
  intros [Hlo Hhi]. unfold static_cast_int. cbv zeta.
  apply Z.leb_le in Hlo. apply Z.leb_le in Hhi. by rewrite Hlo, Hhi.
Qed.

(** Durations of up to a thousand seconds, the most [main] lets through,
    give a step count far inside the range of [int]. *)
Lemma steps_in_range (d : Q) :
  -1000 <= d <= 1000 -> static_cast_int (d / 0.1) = truncate (d / 0.1).
Proof.
  intros Hd. apply static_cast_int_truncate.
  assert (H : inject_Z (-10000) <= d / 0.1 <= inject_Z 10000).
  { unfold inject_Z. split; [apply Qle_shift_div_l | apply Qle_shift_div_r]; lra. }
  apply truncate_bounds in H. unfold INT_MIN, INT_MAX. lia.
Qed.

Lemma generateDynamicLoadProfile_profile (p : SpindleParameters) (d lf : Q) :
  always (fun profile => length profile = Z.to_nat (static_cast_int (d / 0.1))
                         /\ Forall (fun l => 0 <= l) profile)
    (generateDynamicLoadProfile p d lf).
Proof.
  unfold generateDynamicLoadProfile. cbv zeta.
  apply (always_forEach_seq
           (fun k profile => length profile = k /\ Forall (fun l => 0 <= l) profile)).
  - done.
  - intros k profile Hk [Hlen Hall] u Hu. simpl.
    rewrite length_app, Forall_app, Forall_singleton. simpl.
    split; [lia |]. split; [done |].
    match goal with |- _ <= std_max ?a ?b => pose proof (std_max_ge_l a b) end. lra.
Qed.

Lemma generateDynamicLoadProfile_calls (p : SpindleParameters) (d lf : Q) :
  calls 0 (generateDynamicLoadProfile p d lf).
Proof.
  unfold generateDynamicLoadProfile. cbv zeta.
  generalize (@nil Q). generalize (seq 0 (Z.to_nat (static_cast_int (d / 0.1)))).
  induction l as [| x l IH]; intros acc; simpl; [done |].
  intros u Hu. apply IH.
Qed.

Lemma run_loadSteps (G : Generator) (baseLoad timeStep : Q) (l : list nat)
    (acc : list Q) (w : World G) :
  snd (run G (forEach l (loadStep baseLoad timeStep) acc) w)
  = mkWorld (afterDraws G (length l) (rng w)) (oracleCalls w).
Proof.
  revert acc w. induction l as [| x l IH]; intros acc w.
  - by destruct w.
  - cbn [forEach length]. unfold afterDraws. rewrite Nat.iter_succ_r.
    unfold loadStep at 1. simpl. destruct (next G (rng w)) as [u s]. simpl.
    exact (IH _ (mkWorld s (oracleCalls w))).
Qed.

(** X5. [generateDynamicLoadProfile] on a duration of at most a thousand
    seconds either way, the range [main] lets through and far inside what
    the [int] step count can hold.  It always returns, no entry of the
    profile is negative, and the generator is advanced by exactly one draw
    per entry, outside the oracle.  A duration below one time step
    (negative ones included) gives the empty profile, a duration of one
    time step or more a profile that is not empty.  The number of entries
    is the truncated quotient [duration / 0.1]; the code divides doubles,
    whose rounding can move the count by one against the exact quotient,
    and the bound stated leaves room for that. *)
Theorem generateDynamicLoadProfile_one_draw_per_step
    (G : Generator) (w : World G) (p : SpindleParameters) (d lf : Q) :
  UnitRange G -> -1000 <= d <= 1000 ->
  exists profile,
    run G (generateDynamicLoadProfile p d lf) w
    = (Ok profile, mkWorld (afterDraws G (length profile) (rng w)) (oracleCalls w))
    /\ Forall (fun l => 0 <= l) profile
    /\ (d < 0.1 -> profile = [])
    /\ (0.1 <= d ->
        profile <> []
        /\ d / 0.1 - 2 < inject_Z (Z.of_nat (length profile)) <= d / 0.1 + 1).
Proof.
  intros HG Hrange.
  destruct (run_always G _ (generateDynamicLoadProfile p d lf) w HG
              (generateDynamicLoadProfile_profile p d lf))
    as (profile & w' & Hrun & Hlen & Hall).
  exists profile.
  pose proof (run_loadSteps G (estimateLoad p * lf) 0.1
                (seq 0 (Z.to_nat (static_cast_int (d / 0.1)))) [] w) as Hw.
  change (forEach _ _ _) with (generateDynamicLoadProfile p d lf) in Hw.
  rewrite Hrun, length_seq, <- Hlen in Hw. simpl in Hw. subst w'.
  rewrite steps_in_range in Hlen by done.
  split_and!; try done.
  - intros Hd. apply length_zero_iff_nil. rewrite Hlen.
    destruct (Qlt_le_dec d 0) as [Hneg | Hpos].
    + assert (Hq : (truncate (d / 0.1) <= 0)%Z); [| lia].
      apply truncate_nonpos. apply Qle_shift_div_r; lra.
    + rewrite truncate_small; [done |]. split.
      * apply Qle_shift_div_l; lra.
      * apply Qlt_shift_div_r; lra.
  - intros Hd.
    assert (Hq : 1 <= d / 0.1) by (apply Qle_shift_div_l; lra).
    pose proof (truncate_ge_1 _ Hq) as Hone.
    destruct (truncate_floor (d / 0.1)) as [Hlo Hhi]; [lra |].
    split.
    + intros ->. simpl in Hlen. lia.
    + rewrite Hlen, Z2Nat.id by lia.
      set (q := d / 0.1) in *. set (t := inject_Z (truncate q)) in *. clearbody q t.
      split; lra.
Qed.


Lemma calculateBearingL10Life_floor (p : SpindleParameters) (loadProfile : list Q) :
  1000 <= calculateBearingL10Life p loadProfile.
Proof.
  unfold calculateBearingL10Life. cbv zeta.
  match goal with |- _ <= std_max ?a ?b => pose proof (std_max_ge_l a b) end. lra.
Qed.

Lemma calculateWheelWear_cap (p : SpindleParameters) (loadProfile : list Q) (d : Q) :
  calculateWheelWear p loadProfile d <= wheelDiameter p * 0.2.
Proof. unfold calculateWheelWear. cbv zeta. apply std_min_le_r. Qed.

Lemma calculateWearInducedVibration_cap (p : SpindleParameters) (wear : Q) :
  calculateWearInducedVibration p wear <= 2.
Proof.
  unfold calculateWearInducedVibration. cbv zeta.
  match goal with |- std_min ?a ?b <= _ => pose proof (std_min_le_r a b) end. lra.
Qed.

Lemma maxSpeed_bounds (p : SpindleParameters) :
  ParameterSpace p -> 1000 <= inject_Z (maxSpeed p) <= 30000.
Proof.
  intros [_ [H1 H2] _ _ _ _ _ _ _ _].
  rewrite Zle_Qle in H1, H2. unfold inject_Z in *. lra.
Qed.

Lemma estimateVibration_bounds (p : SpindleParameters) :
  ParameterSpace p -> 0.036 <= estimateVibration p <= 2.16.
Proof.
  intros Hp. pose proof (maxSpeed_bounds p Hp) as Hs. unfold estimateVibration. cbv zeta.
  assert (Hsf : 0.1 <= inject_Z (maxSpeed p) / 10000.0 <= 3).
  { split; [apply Qle_shift_div_l | apply Qle_shift_div_r]; lra. }
  set (sf := inject_Z (maxSpeed p) / 10000.0) in *. clearbody sf.
  destruct (String.eqb (bearingType p) "Hybrid Ceramic"),
    (Qltb 0.002 (alignmentTolerance p)), (String.eqb (toolInterface p) "HSK"); lra.
Qed.

Lemma estimateTemperatureRise_bounds (p : SpindleParameters) :
  ParameterSpace p -> 18.9 <= estimateTemperatureRise p <= 45.
Proof.
  intros Hp. pose proof (maxSpeed_bounds p Hp) as Hs. pose proof (ps_preload p Hp) as Hl.
  unfold estimateTemperatureRise. cbv zeta.
  assert (Hsf : 0.1 <= inject_Z (maxSpeed p) / 10000.0 <= 3).
  { split; [apply Qle_shift_div_l | apply Qle_shift_div_r]; lra. }
  assert (Hpf : 0.2 <= bearingPreload p / 500.0 <= 4).
  { split; [apply Qle_shift_div_l | apply Qle_shift_div_r]; lra. }
  set (sf := inject_Z (maxSpeed p) / 10000.0) in *. clearbody sf.
  set (pf := bearingPreload p / 500.0) in *. clearbody pf.
  destruct (String.eqb (coolingType p) "Liquid"); lra.
Qed.

Lemma worst_case_big : 1e10 == 10000000000.
Proof. reflexivity. Qed.

Lemma worst_case_tiny : -1e-10 == - (1 # 10000000000).
Proof. reflexivity. Qed.

Lemma InRange_dominates (ind' ind : Individual) :
  InRange ind' -> dominates ind' (setObjectives worstCaseObjectives ind) = true.
Proof.
  intros (v & l & t & Ho & Hv & Hl & Ht). unfold dominates. rewrite Ho. simpl.
  pose proof worst_case_big as Hbig. pose proof worst_case_tiny as Htiny.
  set (B := 1e10) in *. set (T := -1e-10) in *. clearbody B T.
  rewrite (proj2 (Qltb_ge B v)) by lra.
  rewrite (proj2 (Qltb_ge T l)) by lra.
  rewrite (proj2 (Qltb_ge B t)) by lra.
  rewrite (proj2 (Qltb_lt t B)) by lra.
  reflexivity.
Qed.

Lemma evaluateObjectives_try_InRange (ind : Individual) (d lf : Q) :
  ParameterSpace (params ind) ->
  post (fun ind' => Evaluated ind ind' /\ InRange ind') (fun _ => True)
    (evaluateObjectives_try ind d lf).
Proof.
  intros Hp. unfold evaluateObjectives_try. eapply post_bind.
  - apply always_post, generateDynamicLoadProfile_returns.
  - intros [| x loadProfile] _; simpl; [done |]. split; [done |].
    eexists _, _, _. split; [reflexivity |].
    pose proof (estimateVibration_bounds _ Hp).
    pose proof (estimateTemperatureRise_bounds _ Hp).
    pose proof (calculateBearingL10Life_floor (params ind) (x :: loadProfile)).
    pose proof (calculateWearInducedVibration_cap (params ind)
                  (calculateWheelWear (params ind) (x :: loadProfile) d)).
    split_and!; lra.
Qed.

Lemma evaluateObjectives_InRange (ind : Individual) (d lf : Q) :
  ParameterSpace (params ind) ->
  always (fun ind' => Evaluated ind ind'
                      /\ (objectives ind' = worstCaseObjectives \/ InRange ind'))
    (evaluateObjectives ind d lf).
Proof.
  intros Hp. unfold evaluateObjectives, always. simpl.
  eapply post_try_catch.
  - eapply post_mono; [| | apply (evaluateObjectives_try_InRange ind d lf Hp)].
    + intros ind' [He Hr]. split; [exact He | by right].
    + intros e He. exact He.
  - intros e _. simpl. split; [done | by left].
Qed.

Lemma evaluateObjectives_calls (ind : Individual) (d lf : Q) :
  calls 1 (evaluateObjectives ind d lf).
Proof.
  unfold evaluateObjectives. simpl. apply calls_try_catch; [| done].
  unfold evaluateObjectives_try.
  apply (calls_bind (fun _ => True) 0 0);
    [apply generateDynamicLoadProfile_returns | apply generateDynamicLoadProfile_calls |].
  intros [| x loadProfile] _; done.
Qed.

(** X6. Evaluating an individual whose parameters lie in the parameter
    space enters the oracle once and changes the objectives only.  They
    are either the worst-case vector or a vector with a total vibration
    of at most 4.16 mm/s, a bearing life of at least 1000 hours and a
    temperature rise between 18.9 and 45 degrees, and such a vector
    dominates the worst-case one: an evaluation that failed never beats
    one that went through. *)
Theorem evaluated_objectives_beat_worst_case
    (G : Generator) (w : World G) (ind : Individual) (d lf : Q) :
  UnitRange G -> ParameterSpace (params ind) ->
  exists ind' w',
    run G (evaluateObjectives ind d lf) w = (Ok ind', w')
    /\ oracleCalls w' = S (oracleCalls w)
    /\ params ind' = params ind /\ rank ind' = rank ind
    /\ crowdingDistance ind' = crowdingDistance ind
    /\ (objectives ind' = worstCaseObjectives
        \/ (exists v l t,
              objectives ind' = [v; l; t]
              /\ v <= 4.16 /\ l <= -1000 /\ 18.9 <= t <= 45)
           /\ dominates ind' (setObjectives worstCaseObjectives ind) = true
           /\ dominates (setObjectives worstCaseObjectives ind) ind' = false).
Proof.
  intros HG Hp.
  destruct (run_calls G _ 1 (evaluateObjectives ind d lf) w HG
              (evaluateObjectives_InRange ind d lf Hp) (evaluateObjectives_calls ind d lf))
    as (ind' & w' & Hrun & [(He1 & He2 & He3 & He4) Ho] & Hc).
  exists ind', w'. split_and!; try done; [lia |].
  destruct Ho as [Ho | Hr]; [by left | right].
  split; [exact Hr |]. split; [by apply InRange_dominates |].
  apply dominates_asym; [| by apply InRange_dominates].
  destruct Hr as (v & l & t & -> & _). done.
Qed.


(** ** Crossover and mutation *)

Lemma blend_Blended (p1 p2 lo hi : Q) :
  lo <= p1 <= hi -> lo <= p2 <= hi ->
  always (fun v => Blended p1 p2 v) (blend p1 p2 lo hi).
Proof.
  intros H1 H2 u Hu.
  change (Blended p1 p2
            (std_max lo
               (std_min hi
                  (std_min p1 p2 - 0.5 * Qabs (p1 - p2)
                   + u * (std_max p1 p2 + 0.5 * Qabs (p1 - p2)
                          - (std_min p1 p2 - 0.5 * Qabs (p1 - p2))))))).
  unfold Blended.
  pose proof (Qabs_nonneg (p1 - p2)) as Hd.
  set (d := Qabs (p1 - p2)) in *. clearbody d.
  assert (Hm : lo <= std_min p1 p2 <= hi /\ lo <= std_max p1 p2 <= hi
               /\ std_min p1 p2 <= std_max p1 p2).
  { unfold std_min, std_max, Qltb. repeat destruct Qlt_le_dec; lra. }
  set (m := std_min p1 p2) in *. set (M := std_max p1 p2) in *. clearbody m M.
  assert (Hx : m - 0.5 * d <= m - 0.5 * d + u * (M + 0.5 * d - (m - 0.5 * d))
               <= M + 0.5 * d) by (split; nra).
  set (x := m - 0.5 * d + u * (M + 0.5 * d - (m - 0.5 * d))) in *. clearbody x.
  unfold std_max, std_min, Qltb. repeat destruct Qlt_le_dec; lra.
Qed.

Lemma Blended_same (a x : Q) : Blended a a x -> x == a.
Proof.
  unfold Blended. intros H.
  assert (Hd : Qabs (a - a) == 0).
  { apply Qle_antisym; [| apply Qabs_nonneg]. apply Qabs_Qle_condition. lra. }
  set (d := Qabs (a - a)) in *. clearbody d.
  unfold std_min, std_max, Qltb in H. repeat destruct Qlt_le_dec; lra.
Qed.

Lemma truncate_Qeq (x : Q) (z : Z) : x == inject_Z z -> truncate x = z.
Proof.
  unfold Qeq, truncate. simpl. intros H.
  rewrite Z.mul_1_r in H. rewrite H. apply Z.quot_mul. done.
Qed.

Lemma crossover_Recombined (parent1 parent2 : Individual) :
  ParameterSpace (params parent1) -> ParameterSpace (params parent2) ->
  always (fun o => Recombined (params parent1) (params parent2) (params o)
                   /\ objectives o = [])
    (crossover parent1 parent2).
Proof.
  intros Hp1 Hp2. pose proof (maxSpeed_bounds _ Hp1). pose proof (maxSpeed_bounds _ Hp2).
  destruct Hp1, Hp2. unfold crossover.
  next_field (blend_Blended (powerRating (params parent1))
                (powerRating (params parent2)) 0.5 50.0); [lra.. |].
  next_field (blend_Blended (inject_Z (maxSpeed (params parent1)))
                (inject_Z (maxSpeed (params parent2))) 1000 30000); [lra.. |].
  next_field (blend_Blended (wheelDiameter (params parent1))
                (wheelDiameter (params parent2)) 50.0 1000.0); [lra.. |].
  next_field (blend_Blended (bearingPreload (params parent1))
                (bearingPreload (params parent2)) 100.0 2000.0); [lra.. |].
  next_field (blend_Blended (alignmentTolerance (params parent1))
                (alignmentTolerance (params parent2)) 0.0001 0.01); [lra.. |].
  next_field (coin_either (spindleType (params parent1)) (spindleType (params parent2))).
  next_field (coin_either (bearingType (params parent1)) (bearingType (params parent2))).
  next_field (coin_either (coolingType (params parent1)) (coolingType (params parent2))).
  next_field (coin_either (lubricationType (params parent1))
                (lubricationType (params parent2))).
  next_field (coin_either (toolInterface (params parent1)) (toolInterface (params parent2))).
  simpl. split; [| done]. constructor; simpl; try assumption. eauto.
Qed.

Lemma run_crossover_world (G : Generator) (parent1 parent2 : Individual) (w : World G) :
  snd (run G (crossover parent1 parent2) w)
  = mkWorld (afterDraws G 10 (rng w)) (oracleCalls w).
Proof.
  unfold crossover, blend, coin, afterDraws. simpl.
  repeat match goal with
         | |- context [next G ?s] =>
             lazymatch s with
             | context [next] => fail
             | _ => destruct (next G s) as [? ?]; simpl
             end
         end.
  reflexivity.
Qed.

(** X7. [crossover] makes exactly ten draws and returns a fresh
    individual: rank 0, crowding distance 0, no objectives yet.  Each
    continuous field lies between the parents' values widened by half
    their distance on either side (the speed truncated afterwards), each
    categorical field is one of the parents'; crossing an individual with
    itself, which the selection allows, yields its parameters again. *)
Theorem crossover_recombines_parents
    (G : Generator) (w : World G) (parent1 parent2 : Individual) :
  UnitRange G ->
  ParameterSpace (params parent1) -> ParameterSpace (params parent2) ->
  exists o,
    run G (crossover parent1 parent2) w
    = (Ok o, mkWorld (afterDraws G 10 (rng w)) (oracleCalls w))
    /\ rank o = 0%Z /\ crowdingDistance o = Finite 0 /\ objectives o = []
    /\ Recombined (params parent1) (params parent2) (params o)
    /\ (params parent1 = params parent2 -> SameParameters (params o) (params parent1)).
Proof using Type.
  intros HG Hp1 Hp2.
  pose proof (post_and (fun o => rank o = 0%Z /\ crowdingDistance o = Finite 0)
                (fun o => Recombined (params parent1) (params parent2) (params o)
                          /\ objectives o = [])
                (fun _ => False) (crossover parent1 parent2)
                (crossover_returns parent1 parent2)
                (crossover_Recombined parent1 parent2 Hp1 Hp2)) as Hpost.
  destruct (run_always G _ (crossover parent1 parent2) w HG Hpost)
    as (o & w' & Hrun & (Hr & Hc) & Hrec & Ho).
  exists o. pose proof (run_crossover_world G parent1 parent2 w) as Hw.
  rewrite Hrun in Hw. simpl in Hw. subst w'. split_and!; try done.
  intros Heq. rewrite <- Heq in Hrec. destruct Hrec as [R1 [v [R2 R2']] R3 R4 R5 R6 R7 R8 R9 R10].
  constructor; try (by apply Blended_same);
    try (by destruct R6); try (by destruct R7); try (by destruct R8);
    try (by destruct R9); try (by destruct R10).
  rewrite R2'. apply truncate_Qeq. by apply Blended_same.
Qed.


Lemma run_mutateContinuous_quiet (G : Generator) (v lo hi : Q) (w : World G) :
  0.1 <= fst (next G (rng w)) ->
  run G (mutateContinuous v lo hi) w
  = (Ok v, mkWorld (snd (next G (rng w))) (oracleCalls w)).
Proof.
  intros Hu. unfold mutateContinuous. simpl.
  destruct (next G (rng w)) as [u s]. simpl in *.
  by rewrite (proj2 (Qleb_le mutationProb u) Hu).
Qed.

Lemma run_mutateCategorical_quiet (G : Generator) (v : string) (choices : list string)
    (w : World G) :
  0.1 <= fst (next G (rng w)) ->
  run G (mutateCategorical v choices) w
  = (Ok v, mkWorld (snd (next G (rng w))) (oracleCalls w)).
Proof.
  intros Hu. unfold mutateCategorical. simpl.
  destruct (next G (rng w)) as [u s]. simpl in *.
  by rewrite (proj2 (Qltb_ge u mutationProb) Hu).
Qed.

Lemma run_mutate_quiet (G : Generator) (ind : Individual) (w : World G) :
  (forall s, 0.1 <= fst (next G s)) ->
  run G (mutate ind) w = (Ok ind, mkWorld (afterDraws G 10 (rng w)) (oracleCalls w)).
Proof.
  intros Hquiet. unfold mutate. cbv zeta.
  do 5 (rewrite run_bind, run_mutateContinuous_quiet by apply Hquiet; cbn [rng oracleCalls]).
  do 5 (rewrite run_bind, run_mutateCategorical_quiet by apply Hquiet; cbn [rng oracleCalls]).
  cbn [run]. rewrite truncate_inject_Z. destruct ind as [[] ? ? ?]. reflexivity.
Qed.

Lemma mutateContinuous_calls (v lo hi : Q) : calls 0 (mutateContinuous v lo hi).
Proof.
  unfold mutateContinuous. simpl. intros u Hu.
  destruct (Qleb mutationProb u); simpl; [done |]. intros u' Hu'. done.
Qed.

Lemma mutateCategorical_calls (v : string) (choices : list string) :
  calls 0 (mutateCategorical v choices).
Proof.
  unfold mutateCategorical. simpl. intros u Hu.
  destruct (Qltb u mutationProb); simpl; [| done]. intros u' Hu'. done.
Qed.

Lemma mutate_calls (ind : Individual) : calls 0 (mutate ind).
Proof.
  unfold mutate. cbv zeta.
  do 5 (apply (calls_bind (fun _ => True) 0 0);
        [apply mutateContinuous_returns | apply mutateContinuous_calls | intros ? _]).
  do 5 (apply (calls_bind (fun _ => True) 0 0);
        [apply mutateCategorical_returns | apply mutateCategorical_calls | intros ? _]).
  done.
Qed.

(** X8. [mutate] never touches the objectives, the rank or the crowding
    distance, so the objectives of a mutated individual are stale until
    it is evaluated again; and when none of its draws falls below the
    mutation probability 0.1, it makes ten draws and hands the individual
    back unchanged. *)
Theorem mutate_changes_parameters_only (G : Generator) (w : World G) (ind : Individual) :
  UnitRange G ->
  (exists o w',
     run G (mutate ind) w = (Ok o, w')
     /\ objectives o = objectives ind /\ rank o = rank ind
     /\ crowdingDistance o = crowdingDistance ind
     /\ oracleCalls w' = oracleCalls w)
  /\ ((forall s, 0.1 <= fst (next G s)) ->
      run G (mutate ind) w
      = (Ok ind, mkWorld (afterDraws G 10 (rng w)) (oracleCalls w))).
Proof.
  intros HG. split; [| intros Hquiet; by apply run_mutate_quiet].
  destruct (run_calls G _ 0 (mutate ind) w HG (mutate_returns ind) (mutate_calls ind))
    as (o & w' & Hrun & (Hr & Hc & Ho) & Hn).
  exists o, w'. split_and!; try done. lia.
Qed.


(** ** The evaluation budget and the parameter space over a whole run *)

Lemma spec_bind {A B : Type} (P : A -> Prop) (R : B -> Prop) (n m : nat)
    (p : Prog A) (f : A -> Prog B) :
  spec P n p -> (forall a, P a -> spec R m (f a)) -> spec R (n + m) (bind p f).
Proof.
  intros [Ha Hc] Hf. split.
  - eapply always_bind; [exact Ha |]. intros a HP. apply (Hf a HP).
  - eapply calls_bind; [exact Ha | exact Hc |]. intros a HP. apply (Hf a HP).
Qed.

Lemma spec_Ret {A : Type} (P : A -> Prop) (a : A) : P a -> spec P 0 (Ret a).
Proof. intros HP. split; [by apply always_Ret | done]. Qed.

Lemma spec_mono {A : Type} (P P' : A -> Prop) (n n' : nat) (p : Prog A) :
  (forall a, P a -> P' a) -> n = n' -> spec P n p -> spec P' n' p.
Proof. intros HP <- [Ha Hc]. split; [by eapply always_mono | done]. Qed.

Lemma spec_forEach_seq {A : Type} (I : nat -> A -> Prop) (c : nat)
    (body : A -> nat -> Prog A) (n : nat) (acc : A) :
  I 0%nat acc ->
  (forall k a, (k < n)%nat -> I k a -> spec (I (S k)) c (body a k)) ->
  spec (I n) (n * c) (forEach (seq 0 n) body acc).
Proof.
  intros Hacc Hbody. split.
  - apply always_forEach_seq; [done |]. intros k a Hk Ha. by apply Hbody.
  - apply (calls_forEach_from I c body 0 n acc Hacc).
    intros k a Hk Ha. apply Hbody; [lia | done].
Qed.

Lemma run_spec (G : Generator) {A : Type} (P : A -> Prop) (n : nat)
    (p : Prog A) (w : World G) :
  UnitRange G -> spec P n p ->
  exists a w', run G p w = (Ok a, w') /\ P a
               /\ oracleCalls w' = (oracleCalls w + n)%nat.
Proof. intros HG [Ha Hc]. by apply run_calls. Qed.

Lemma generateRandomParameters_calls : calls 0 generateRandomParameters.
Proof. unfold generateRandomParameters. simpl. do 10 (intros ? ?). done. Qed.

Lemma crossover_calls (parent1 parent2 : Individual) : calls 0 (crossover parent1 parent2).
Proof. unfold crossover, blend, coin. simpl. do 10 (intros ? ?). done. Qed.

Lemma selectParents_calls (cfg : Config) (pop : list Individual) :
  calls 0 (selectParents cfg pop).
Proof.
  unfold selectParents. simpl. intros u1 H1 u2 H2.
  case_decide; [done |]. by destruct (precedes _ _).
Qed.

Section Budget.

Variable cfg : Config.
Hypothesis Hcfg : ValidConfig cfg.


(** A property of objective vectors that every evaluation of an
    individual inside the parameter space establishes under [cfg]. *)
Variable Phi : list Q -> Prop.
Hypothesis HPhi : forall ind, ParameterSpace (params ind) ->
  always (fun ind' => Phi (objectives ind'))
    (evaluateObjectives ind (duration cfg) (loadFactor cfg)).

Local Abbreviation size := (Z.to_nat (populationSize cfg)).

Lemma evaluateObjectives_Sound (ind : Individual) :
  ParameterSpace (params ind) ->
  spec (fun ind' => Sound Phi ind' /\ rank ind' = rank ind
                    /\ crowdingDistance ind' = crowdingDistance ind)
    1 (evaluateObjectives ind (duration cfg) (loadFactor cfg)).
Proof.
  intros Hp. split; [| apply evaluateObjectives_calls].
  eapply always_mono; [| apply post_and;
    [apply evaluateObjectives_Evaluated | apply (HPhi ind Hp)]].
  intros ind' [(He1 & He2 & He3 & He4) HP]. split; [| done].
  split; [by rewrite He1 | done].
Qed.

Lemma breed_Sound (pop : list Individual) :
  Sized cfg Phi pop ->
  spec (fun o => Sound Phi o /\ rank o = 0%Z /\ crowdingDistance o = Finite 0)
    1 (breed cfg pop).
Proof.
  intros [Hlen Hall]. unfold breed.
  apply (spec_bind (fun parents => parents.1 ∈ pop /\ parents.2 ∈ pop) _ 0 1).
  { split; [by apply selectParents_elem_of | apply selectParents_calls]. }
  intros parents [H1 H2].
  rewrite Forall_forall in Hall.
  apply (spec_bind (fun o => ParameterSpace (params o)
                             /\ rank o = 0%Z /\ crowdingDistance o = Finite 0) _ 0 1).
  { split; [| apply crossover_calls].
    eapply always_mono; [| apply post_and;
      [apply (crossover_parameter_space parents.1 parents.2);
         [apply (Hall _ H1) | apply (Hall _ H2)]
      | apply crossover_returns]].
    intros o [Hp [Hr Hc]]. done. }
  intros o1 (Hp1 & Hr1 & Hc1).
  apply (spec_bind (fun o => ParameterSpace (params o)
                             /\ rank o = 0%Z /\ crowdingDistance o = Finite 0) _ 0 1).
  { split; [| apply mutate_calls].
    eapply always_mono; [| apply post_and;
      [apply (mutate_parameter_space o1 Hp1) | apply mutate_returns]].
    intros o [Hp (Hr & Hc & _)]. split; [done |]. split; congruence. }
  intros o2 (Hp2 & Hr2 & Hc2).
  eapply spec_mono; [| reflexivity | apply (evaluateObjectives_Sound o2 Hp2)].
  intros o3 (Hs & Hr3 & Hc3). split; [done |]. split; congruence.
Qed.

Lemma createOffspring_Sound (pop : list Individual) :
  Sized cfg Phi pop ->
  spec (fun offspring => Sized cfg Phi offspring) size (createOffspring cfg pop).
Proof.
  intros Hpop. unfold createOffspring, Sized.
  eapply spec_mono; [| | apply (spec_forEach_seq
    (fun k offspring => length offspring = k /\ Forall (Sound Phi) offspring) 1)].
  - intros offspring H. exact H.
  - lia.
  - done.
  - intros k offspring Hk [Hl Hall].
    apply (spec_bind (fun o => Sound Phi o /\ rank o = 0%Z /\ crowdingDistance o = Finite 0)
             _ 1 0); [by apply breed_Sound |].
    intros o [Hs _]. apply spec_Ret.
    rewrite length_app, Forall_app, Forall_singleton. simpl. split; [lia | done].
Qed.

Lemma Ranked_Sound (pop ranked : list Individual) (fs : list (list nat)) (i : nat) :
  Forall (Sound Phi) pop -> Ranked pop ranked fs -> (i < length pop)%nat ->
  Sound Phi (ranked !!! i).
Proof.
  intros Hall Hr Hi. unfold Sound.
  destruct (ranked_same _ _ _ Hr i) as [-> ->].
  by apply (Forall_lookup_total_1 _ _ _ Hall).
Qed.

Lemma Sound_ThreeObjectives (pop : list Individual) : Forall (Sound Phi) pop -> ThreeObjectives pop.
Proof. intros H. eapply Forall_impl; [exact H |]. by intros ind (_ & ? & _). Qed.

Lemma generation_Sound (pop : list Individual) :
  Sized cfg Phi pop -> spec (Sized cfg Phi) size (generation cfg pop).
Proof.
  intros Hpop. pose proof Hpop as [Hlen Hall]. unfold generation.
  eapply spec_mono; [| | apply (spec_bind (Sized cfg Phi) (Sized cfg Phi) size 0)];
    [intros a Ha; exact Ha | lia | by apply createOffspring_Sound |].
  intros offspring [Hlo Hao]. cbv beta zeta.
  assert (Hlc : length (pop ++ offspring) = (2 * size)%nat).
  { rewrite length_app. lia. }
  assert (Hpos : (0 < size)%nat) by (destruct Hcfg as (_ & _ & ? & _); lia).
  rewrite list_case_nonempty by (intros Hnil; rewrite Hnil in Hlc; simpl in Hlc; lia).
  assert (Hgc : Forall (Sound Phi) (pop ++ offspring)) by by apply Forall_app.
  destruct (rankPopulation_Ranked (pop ++ offspring) (Sound_ThreeObjectives _ Hgc))
    as (ranked & fs & Hrun & Hr).
  rewrite Hrun. simpl.
  destruct (selectNextGeneration_spec size ranked fs) as [Hln Hmem].
  { rewrite (ranked_length _ _ _ Hr). apply (ranked_partition _ _ _ Hr). }
  { rewrite (ranked_length _ _ _ Hr). lia. }
  rewrite list_case_nonempty by (intros Hnil; rewrite Hnil in Hln; simpl in Hln; lia).
  apply spec_Ret. split; [done |]. apply Forall_forall.
  intros ind (front & i & Hfront & Hi & ->)%Hmem.
  apply (Ranked_Sound (pop ++ offspring) ranked fs); [done | done |].
  assert (Hin : i ∈ seq 0 (length (pop ++ offspring))).
  { rewrite <- (ranked_partition _ _ _ Hr). apply elem_of_concat. by exists front. }
  apply elem_of_seq in Hin. lia.
Qed.

Lemma generationLoop_Sound (gens : nat) (pop : list Individual) :
  Sized cfg Phi pop -> spec (Sized cfg Phi) (gens * size) (generationLoop gens cfg pop).
Proof.
  revert pop. induction gens as [| gens IH]; intros pop Hpop; simpl;
    [by apply spec_Ret |].
  apply (spec_bind (Sized cfg Phi) (Sized cfg Phi) size (gens * size));
    [by apply generation_Sound | exact IH].
Qed.

Lemma initializePopulation_Sound : spec (Sized cfg Phi) size (initializePopulation cfg).
Proof.
  unfold initializePopulation. cbv zeta.
  eapply spec_mono; [| | apply (spec_bind
    (fun pop => length pop = size /\ forall i, (i < size)%nat -> Sound Phi (pop !!! i))
    (Sized cfg Phi) (size * 1) 0)]; [intros a Ha; exact Ha | lia | |].
  - apply (spec_forEach_seq
      (fun k pop => length pop = size /\ forall i, (i < k)%nat -> Sound Phi (pop !!! i)) 1).
    + split; [apply length_replicate | intros; lia].
    + intros k pop Hk [Hlen Hdone].
      apply (spec_bind ParameterSpace _ 0 1).
      { split; [apply generateRandomParameters_parameter_space
               | apply generateRandomParameters_calls]. }
      intros p Hp.
      apply (spec_bind (fun ind => Sound Phi ind) _ 1 0).
      { eapply spec_mono; [| reflexivity | apply evaluateObjectives_Sound; exact Hp].
        by intros ind' [Hs _]. }
      intros ind Hs. apply spec_Ret. split; [by rewrite length_insert |].
      intros i Hi. destruct (decide (i = k)) as [-> | Hne].
      * rewrite list_lookup_total_insert_eq by lia. done.
      * rewrite list_lookup_total_insert_ne by done. apply Hdone. lia.
  - intros pop [Hlen Hdone].
    assert (Hall : Forall (Sound Phi) pop).
    { apply (@Forall_lookup_total_2 _ _ Individual_inhabited). intros i Hi. apply Hdone. lia. }
    destruct (rankPopulation_Ranked pop (Sound_ThreeObjectives _ Hall))
      as (ranked & fs & Hrun & Hr).
    unfold nonDominatedSorting. rewrite Hrun. simpl. apply spec_Ret.
    split; [by rewrite (ranked_length _ _ _ Hr) |].
    apply (@Forall_lookup_total_2 _ _ Individual_inhabited). intros i Hi.
    rewrite (ranked_length _ _ _ Hr) in Hi.
    by apply (Ranked_Sound pop ranked fs).
Qed.

Lemma evolve_Sound (gens : nat) :
  spec (Sized cfg Phi) (S gens * size) (evolve cfg gens).
Proof.
  unfold evolve. rewrite validateInputs_valid by done. simpl.
  apply (spec_bind (Sized cfg Phi) (Sized cfg Phi) size (gens * size));
    [apply initializePopulation_Sound |].
  intros pop Hpop. by apply generationLoop_Sound.
Qed.

End Budget.


Lemma optimizeSpindleArrangement_Sound (cfg : Config) (Phi : list Q -> Prop) :
  ValidConfig cfg ->
  (forall ind, ParameterSpace (params ind) ->
     always (fun ind' => Phi (objectives ind'))
       (evaluateObjectives ind (duration cfg) (loadFactor cfg))) ->
  spec (fun outcome => exists population,
          Sized cfg Phi population
          /\ outcome = ParetoFront (filter (fun ind => rank ind = 1%Z) population))
    (S (Z.to_nat (generations cfg)) * Z.to_nat (populationSize cfg))
    (optimizeSpindleArrangement cfg).
Proof.
  intros Hcfg HPhi.
  destruct (evolve_Sound cfg Hcfg Phi HPhi (Z.to_nat (generations cfg))) as [Ha Hc].
  split; [by apply optimizeSpindleArrangement_returns |].
  unfold optimizeSpindleArrangement. apply calls_try_catch; [| done].
  rewrite <- (Nat.add_0_r (S _ * _)).
  eapply calls_bind; [exact Ha | exact Hc | done].
Qed.

(** X9. The evaluation budget.  Under a valid configuration the run up
    to generation [gens] enters the objective oracle exactly
    [(gens + 1) * populationSize] times: once per individual of the first
    population and once per offspring; a whole call makes
    [(generations + 1) * populationSize] evaluations. *)
Theorem evaluation_budget (G : Generator) (w : World G) (cfg : Config) :
  UnitRange G -> ValidConfig cfg ->
  (forall gens, exists pop w',
     run G (evolve cfg gens) w = (Ok pop, w')
     /\ oracleCalls w'
        = (oracleCalls w + (gens + 1) * Z.to_nat (populationSize cfg))%nat)
  /\ (exists solutions w',
        run G (optimizeSpindleArrangement cfg) w = (Ok (ParetoFront solutions), w')
        /\ Z.of_nat (oracleCalls w')
           = (Z.of_nat (oracleCalls w)
              + (generations cfg + 1) * populationSize cfg)%Z).
Proof.
  intros HG Hcfg. split.
  - intros gens.
    destruct (run_spec G _ _ (evolve cfg gens) w HG (evolve_Sound cfg Hcfg (fun _ => True)
                                 (fun ind _ => evaluateObjectives_any cfg ind) gens))
      as (pop & w' & Hrun & _ & Hn).
    exists pop, w'. split; [done |]. rewrite Hn. f_equal. f_equal. lia.
  - destruct (run_spec G _ _ (optimizeSpindleArrangement cfg) w HG
                (optimizeSpindleArrangement_Sound cfg (fun _ => True) Hcfg
                   (fun ind _ => evaluateObjectives_any cfg ind)))
      as (outcome & w' & Hrun & (population & _ & ->) & Hn).
    eexists _, w'. split; [done |]. rewrite Hn.
    destruct Hcfg as (_ & _ & Hp & Hg). nia.
Qed.

(** X10. The parameter-space invariant holds over the whole run: under a
    valid configuration every individual of every population, and every
    solution reported, has parameters inside the parameter space, which
    [validateParameters] accepts, and three objectives. *)
Theorem run_stays_in_parameter_space (G : Generator) (w : World G) (cfg : Config) :
  UnitRange G -> ValidConfig cfg ->
  (forall gens, exists pop w',
     run G (evolve cfg gens) w = (Ok pop, w')
     /\ forall ind, ind ∈ pop ->
          ParameterSpace (params ind) /\ validateParameters (params ind) = "Valid"
          /\ length (objectives ind) = 3%nat)
  /\ (exists solutions w',
        run G (optimizeSpindleArrangement cfg) w = (Ok (ParetoFront solutions), w')
        /\ forall ind, ind ∈ solutions ->
             ParameterSpace (params ind) /\ validateParameters (params ind) = "Valid"
             /\ length (objectives ind) = 3%nat).
Proof.
  intros HG Hcfg.
  assert (Hsound : forall ind, Sound (fun _ => True) ind ->
     ParameterSpace (params ind) /\ validateParameters (params ind) = "Valid"
     /\ length (objectives ind) = 3%nat).
  { intros ind (Hp & Ho & _). split_and!; [done | | done].
    apply validateParameters_Valid_iff. destruct Hp. done. }
  split.
  - intros gens.
    destruct (run_spec G _ _ (evolve cfg gens) w HG (evolve_Sound cfg Hcfg (fun _ => True)
                                 (fun ind _ => evaluateObjectives_any cfg ind) gens))
      as (pop & w' & Hrun & [_ Hall] & _).
    exists pop, w'. split; [done |]. rewrite Forall_forall in Hall.
    intros ind Hin. by apply Hsound, Hall.
  - destruct (run_spec G _ _ (optimizeSpindleArrangement cfg) w HG
                (optimizeSpindleArrangement_Sound cfg (fun _ => True) Hcfg
                   (fun ind _ => evaluateObjectives_any cfg ind)))
      as (outcome & w' & Hrun & (population & [_ Hall] & ->) & _).
    eexists _, w'. split; [done |]. rewrite Forall_forall in Hall.
    intros ind [_ Hin]%list_elem_of_filter. by apply Hsound, Hall.
Qed.


(** ** Environmental selection *)

Lemma xgtb_irrefl (a : xdouble) : xgtb a a = false.
Proof. destruct a as [x |]; simpl; [| done]. apply Qltb_ge. lra. Qed.

Lemma xgtb_trans (a b c : xdouble) :
  xgtb a b = true -> xgtb b c = true -> xgtb a c = true.
Proof.
  destruct a as [x |], b as [y |], c as [z |]; simpl; try done.
  rewrite !Qltb_lt. lra.
Qed.

Lemma xgtb_incomp (a b c : xdouble) :
  xgtb a b = false -> xgtb b c = false -> xgtb a c = false.
Proof.
  destruct a as [x |], b as [y |], c as [z |]; simpl; try done.
  rewrite !Qltb_ge. lra.
Qed.

Lemma byCrowding_StrictWeakOn (combined : list Individual) (l : list nat) :
  (forall x, x ∈ l -> (x < length combined)%nat) -> StrictWeakOn (byCrowding combined) l.
Proof.
  intros Hl.
  assert (Hby : forall a b, a ∈ l -> b ∈ l ->
     byCrowding combined a b
     = xgtb (crowdingDistance (combined !!! a)) (crowdingDistance (combined !!! b))).
  { intros a b Ha%Hl Hb%Hl. unfold byCrowding. rewrite decide_False by lia. done. }
  constructor.
  - intros a Ha. rewrite Hby by done. apply xgtb_irrefl.
  - intros a b c Ha Hb Hc. rewrite !Hby by done. apply xgtb_trans.
  - intros a b c Ha Hb Hc. rewrite !Hby by done. apply xgtb_incomp.
Qed.

Lemma addWholeFronts_exact (n : nat) (combined : list Individual)
    (fs : list (list nat)) (population : list Individual) :
  (forall front x, front ∈ fs -> x ∈ front -> (x < length combined)%nat) ->
  exists taken,
    fs = taken ++ (addWholeFronts n combined fs population).2
    /\ (addWholeFronts n combined fs population).1
       = population ++ map (fun i => combined !!! i) (concat taken).
Proof.
  revert population. induction fs as [| front fs IH]; intros population Hvalid; simpl.
  - exists []. simpl. by rewrite app_nil_r.
  - case_decide as Hfit; simpl.
    + destruct (IH (pushFront combined population front)) as (taken & E1 & E2).
      { intros fr x Hfr Hx. eapply Hvalid; [by right | done]. }
      exists (front :: taken). split; [simpl; by f_equal |].
      rewrite E2, pushFront_spec.
      * simpl. by rewrite map_app, app_assoc.
      * intros x Hx. eapply Hvalid; [left | done].
    + exists []. simpl. by rewrite app_nil_r.
Qed.

(** What [selectNextGeneration] selects, by index: whole fronts [taken],
    then the first entries of the next front sorted by descending
    crowding distance. *)
Lemma selectNextGeneration_exact (n : nat) (combined : list Individual)
    (fs : list (list nat)) :
  concat fs ≡ₚ seq 0 (length combined) -> (n <= length combined)%nat ->
  exists taken rest sel,
    fs = taken ++ rest
    /\ selectNextGeneration n combined fs
       = map (fun i => combined !!! i) (concat taken ++ sel)
    /\ length (concat taken ++ sel) = n
    /\ match rest with
       | [] => sel = []
       | front :: _ =>
           sel = take (n - length (concat taken)) (std_sort (byCrowding combined) front)
       end.
Proof.
  intros Hpart Hn.
  assert (Hvalid : forall front x, front ∈ fs -> x ∈ front -> (x < length combined)%nat).
  { intros front x Hfront Hx. assert (Hin : x ∈ seq 0 (length combined)).
    { rewrite <- Hpart. apply elem_of_concat. by exists front. }
    apply elem_of_seq in Hin. lia. }
  destruct (selectNextGeneration_spec n combined fs Hpart Hn) as [Hlen _].
  unfold selectNextGeneration in *.
  destruct (addWholeFronts_exact n combined fs [] Hvalid) as (taken & E1 & E2).
  set (r := addWholeFronts n combined fs []) in *. simpl in E2.
  assert (Hl1 : length r.1 = length (concat taken)) by (by rewrite E2, length_map).
  cbv zeta in Hlen.
  destruct r.2 as [| front rest] eqn:Hrest.
  - exists taken, [], []. cbn iota in Hlen. rewrite !app_nil_r.
    rewrite app_nil_r in E1. split_and!; try done. lia.
  - assert (Hfront : front ∈ fs).
    { rewrite E1. apply elem_of_app. right. left. }
    exists taken, (front :: rest),
      (take (n - length (concat taken)) (std_sort (byCrowding combined) front)).
    case_decide as Hlt.
    + assert (Hv : forall x,
         x ∈ take (n - length r.1) (std_sort (byCrowding combined) front) ->
         (x < length combined)%nat).
      { intros x Hx%elem_of_take. destruct Hx as (i & Hx & _).
        apply list_elem_of_lookup_2 in Hx.
        rewrite (sort_perm _ Hsort) in Hx. by eapply Hvalid. }
      rewrite pushFront_spec in * by done.
      rewrite E2, Hl1 in *. rewrite map_app. split_and!; try done.
      rewrite length_app, !length_map in Hlen. by rewrite length_app.
    + replace (n - length (concat taken))%nat with 0%nat by lia.
      rewrite take_0, app_nil_r. split_and!; try done. lia.
Qed.

(** X11. Environmental selection prefers the lower rank and, within the
    rank that does not fit as a whole, the larger crowding distance.  From
    a ranked population of at least [n] individuals it keeps exactly [n],
    each picked once; whoever has a lower rank than a survivor survives
    as well; and an individual left out has no larger crowding distance
    than any survivor of its rank. *)
Theorem selection_prefers_rank_then_crowding (combined : list Individual) (n : nat) :
  ThreeObjectives combined -> (n <= length combined)%nat ->
  exists ranked fs sel,
    rankPopulation combined = Some (ranked, fs)
    /\ selectNextGeneration n ranked fs = map (fun i => ranked !!! i) sel
    /\ NoDup sel /\ length sel = n
    /\ (forall i, i ∈ sel -> (i < length combined)%nat)
    /\ (forall i j, i ∈ sel -> (j < length combined)%nat ->
          (rank (ranked !!! j) < rank (ranked !!! i))%Z -> j ∈ sel)
    /\ (forall i j, i ∈ sel -> (j < length combined)%nat -> j ∉ sel ->
          rank (ranked !!! j) = rank (ranked !!! i) ->
          xgtb (crowdingDistance (ranked !!! j)) (crowdingDistance (ranked !!! i)) = false).
Proof.
  intros Hthree Hn.
  destruct (rankPopulation_Ranked combined Hthree) as (ranked & fs & Hrun & Hr).
  pose proof Hr as [R1 R2 R3 R4 R5 R6 R7].
  destruct (selectNextGeneration_exact n ranked fs) as (taken & rest & sel & E1 & E2 & E3 & E4);
    [by rewrite R5 | by rewrite R5 |].
  exists ranked, fs, (concat taken ++ sel). split; [done |]. split; [done |].
  assert (Hnd : NoDup (concat fs)).
  { rewrite R1. apply NoDup_seq. }
  assert (Hbound : forall x, x ∈ concat fs -> (x < length combined)%nat).
  { intros x Hx. rewrite R1 in Hx. apply elem_of_seq in Hx. lia. }
  assert (Hfront : forall j, (j < length combined)%nat ->
     exists m front, fs !! m = Some front /\ j ∈ front).
  { intros j Hj. assert (Hin : j ∈ concat fs) by (rewrite R1; apply elem_of_seq; lia).
    apply elem_of_concat in Hin as (front & Hin & Hf).
    apply list_elem_of_lookup_1 in Hf as [m Hm]. eauto. }
  assert (Htaken : forall i, i ∈ concat taken ->
     exists m front, (m < length taken)%nat /\ fs !! m = Some front /\ i ∈ front).
  { intros i (front & Hi & Hf)%elem_of_concat.
    apply list_elem_of_lookup_1 in Hf as [m Hm].
    exists m, front. split; [by apply lookup_lt_Some in Hm |].
    split; [| done]. rewrite E1. by apply lookup_app_l_Some. }
  assert (Hsel : forall i, i ∈ sel ->
     exists front rest' pos,
       rest = front :: rest' /\ fs !! length taken = Some front /\ i ∈ front
       /\ (pos < n - length (concat taken))%nat
       /\ std_sort (byCrowding ranked) front !! pos = Some i).
  { intros i Hi. destruct rest as [| front rest']; [subst sel; by apply elem_of_nil in Hi |].
    subst sel. apply elem_of_take in Hi as (pos & Hpos & Hlt).
    exists front, rest', pos. split; [done |].
    split; [rewrite E1; by rewrite list_lookup_middle |].
    split; [| done]. apply list_elem_of_lookup_2 in Hpos.
    by rewrite (sort_perm _ Hsort) in Hpos. }
  assert (Hin_taken : forall m front j, (m < length taken)%nat ->
     fs !! m = Some front -> j ∈ front -> j ∈ concat taken).
  { intros m front j Hm Hf Hj. apply elem_of_concat. exists front. split; [done |].
    rewrite E1, lookup_app_l in Hf by done. by eapply list_elem_of_lookup_2. }
  assert (Hindex : forall i, i ∈ concat taken ++ sel ->
     exists m front, (m <= length taken)%nat /\ fs !! m = Some front /\ i ∈ front).
  { intros i [Hi | Hi]%elem_of_app.
    - destruct (Htaken i Hi) as (m & front & Hm & Hf & Hif).
      exists m, front. split; [lia | done].
    - destruct (Hsel i Hi) as (front & rest' & pos & _ & Hf & Hif & _).
      exists (length taken), front. done. }
  assert (Hunique : forall j m front m' front',
     fs !! m = Some front -> j ∈ front -> fs !! m' = Some front' -> j ∈ front' -> m = m').
  { intros j m front m' front' Hm Hj Hm' Hj'.
    pose proof (R3 m front j Hm Hj). pose proof (R3 m' front' j Hm' Hj'). lia. }
  split_and!.
  - apply NoDup_app. split_and!.
    + rewrite E1, concat_app in Hnd. by apply NoDup_app in Hnd as (? & _ & _).
    + intros i Hi Hi'.
      destruct (Htaken i Hi) as (m & front & Hm & Hf & Hif).
      destruct (Hsel i Hi') as (front' & rest' & pos & _ & Hf' & Hif' & _).
      pose proof (Hunique i _ _ _ _ Hf Hif Hf' Hif'). lia.
    + destruct rest as [| front rest']; [subst sel; constructor |].
      subst sel. eapply sublist_NoDup; [| apply sublist_take].
      rewrite (sort_perm _ Hsort).
      rewrite E1, concat_app in Hnd. apply NoDup_app in Hnd as (_ & _ & Hnd).
      simpl in Hnd. by apply NoDup_app in Hnd as (? & _ & _).
  - done.
  - intros i Hi. destruct (Hindex i Hi) as (m & front & _ & Hf & Hif).
    apply Hbound, elem_of_concat. exists front. split; [done |].
    by eapply list_elem_of_lookup_2.
  - intros i j Hi Hj Hlt.
    destruct (Hindex i Hi) as (m & front & Hm & Hf & Hif).
    destruct (Hfront j Hj) as (m' & front' & Hf' & Hjf').
    rewrite (R3 _ _ _ Hf Hif), (R3 _ _ _ Hf' Hjf') in Hlt.
    apply elem_of_app. left. apply (Hin_taken m' front' j); [lia | done | done].
  - intros i j Hi Hj Hnot Heq.
    destruct (Hfront j Hj) as (m' & front' & Hf' & Hjf').
    assert (Hm' : ~ (m' < length taken)%nat).
    { intros Hlt. apply Hnot, elem_of_app. left. by apply (Hin_taken m' front' j). }
    apply elem_of_app in Hi as [Hi | Hi].
    { destruct (Htaken i Hi) as (m & front & Hm & Hf & Hif).
      rewrite (R3 _ _ _ Hf Hif), (R3 _ _ _ Hf' Hjf') in Heq. lia. }
    destruct (Hsel i Hi) as (front & rest' & pos & Erest & Hf & Hif & Hpos & Hlook).
    rewrite (R3 _ _ _ Hf Hif), (R3 _ _ _ Hf' Hjf') in Heq.
    assert (m' = length taken) as -> by lia.
    rewrite Hf in Hf'. injection Hf' as <-.
    assert (Hv : forall x, x ∈ front -> (x < length ranked)%nat).
    { intros x Hx. rewrite R5. apply Hbound, elem_of_concat. exists front.
      split; [done |]. by eapply list_elem_of_lookup_2. }
    set (sorted := std_sort (byCrowding ranked) front) in *.
    assert (Hjs : j ∈ sorted) by (unfold sorted; by rewrite (sort_perm _ Hsort)).
    apply list_elem_of_lookup_1 in Hjs as [pos' Hlook'].
    assert (Hge : (n - length (concat taken) <= pos')%nat).
    { destruct (decide (pos' < n - length (concat taken))%nat) as [Hlt |]; [| lia].
      exfalso. apply Hnot, elem_of_app. right. rewrite Erest in E4. subst sel.
      apply elem_of_take. eauto. }
    pose proof (sort_sorted _ Hsort (byCrowding ranked) front
                  (byCrowding_StrictWeakOn ranked front Hv)) as Hsorted.
    pose proof (StronglySorted_lookup _ _ Hsorted pos pos' ltac:(lia)
                  ltac:(by apply lookup_lt_Some in Hlook')) as Hcmp.
    fold sorted in Hcmp.
    rewrite (list_lookup_total_correct _ _ _ Hlook),
            (list_lookup_total_correct _ _ _ Hlook') in Hcmp.
    unfold byCrowding in Hcmp. rewrite decide_False in Hcmp; [done |].
    pose proof (Hv i Hif). pose proof (Hv j Hjf'). lia.
Qed.


(** ** The Pareto front that is reported *)

Lemma firstFront_not_dominated (pop : list Individual) (i j : nat) :
  ThreeObjectives pop -> i ∈ firstFront pop -> (j < length pop)%nat ->
  dom pop j i = false.
Proof.
  intros Hthree Hi Hj.
  apply list_elem_of_filter in Hi as [Hz Hi]. apply elem_of_seq in Hi.
  rewrite (dominatorCount_ndom pop Hthree i) in Hz by lia.
  assert (Hz' : ndom pop (seq 0 (length pop)) i = 0%nat) by lia.
  apply (proj1 (ndom_zero pop _ i) Hz' j). apply elem_of_seq. lia.
Qed.

Lemma Generation_pareto (cfg : Config) (pop pop' : list Individual) :
  ValidConfig cfg ->
  Good cfg (fun _ => True) pop -> Generation cfg (fun _ => True) pop pop' ->
  filter (fun ind => rank ind = 1%Z) pop' <> []
  /\ forall ind a, ind ∈ pop' -> a ∈ filter (fun ind => rank ind = 1%Z) pop' ->
       dominates ind a = false.
Proof.
  intros Hcfg Hpop (Hl' & offspring & ranked & fs & Hoff & _ & Hlc & _ & Hr & -> & Hmem).
  pose proof Hr as [R1 R2 R3 R4 R5 R6 R7].
  set (size := Z.to_nat (populationSize cfg)) in *.
  assert (Hpos : (0 < size)%nat) by (destruct Hcfg as (_ & _ & ? & _); unfold size; lia).
  assert (Hthree : ThreeObjectives (pop ++ offspring)).
  { apply Forall_app. split.
    - eapply Forall_impl; [apply Hpop |]. by intros ind [? _].
    - eapply Forall_impl; [apply Hoff |]. by intros ind [? _]. }
  destruct (selectNextGeneration_exact size ranked fs)
    as (taken & rest & sel & E1 & E2 & E3 & E4); [by rewrite R5 | rewrite R5; lia |].
  assert (Hfs : exists front0 fs', fs = front0 :: fs').
  { destruct fs as [| front0 fs']; [| eauto].
    simpl in R1. symmetry in R1. apply Permutation_nil_r in R1.
    apply (f_equal length) in R1. rewrite length_seq in R1. simpl in R1. lia. }
  destruct Hfs as (front0 & fs' & ->).
  assert (Hne0 : front0 <> []) by (apply R2; left).
  pose proof (R4 front0 eq_refl) as Hfirst.
  assert (Hrank0 : forall i, i ∈ front0 -> rank (ranked !!! i) = 1%Z).
  { intros i Hi. apply (R3 0%nat front0 i eq_refl Hi). }
  assert (Hdom : forall i j,
     dominates (ranked !!! j) (ranked !!! i) = dom (pop ++ offspring) j i).
  { intros i j. unfold dom. apply dominates_objectives.
    - by destruct (R6 j) as [_ ->].
    - by destruct (R6 i) as [_ ->]. }
  assert (Hbound : forall x, x ∈ concat (front0 :: fs') ->
            (x < length (pop ++ offspring))%nat).
  { intros x Hx. rewrite R1 in Hx. apply elem_of_seq in Hx. lia. }
  split.
  - assert (Hex : exists i, i ∈ front0 /\ i ∈ concat taken ++ sel).
    { destruct taken as [| front taken'].
      - simpl in E1. subst rest. simpl in *. subst sel.
        pose proof (sort_perm _ Hsort (byCrowding ranked) front0) as Hperm.
        destruct (std_sort (byCrowding ranked) front0) as [| i sorted] eqn:Es.
        { apply Permutation_nil_l in Hperm. by subst front0. }
        exists i. split.
        + rewrite <- Hperm. left.
        + replace (size - 0)%nat with (S (size - 1)) by lia. left.
      - simpl in E1. injection E1 as <- _.
        destruct front0 as [| i front0']; [done |].
        exists i. split; [left |]. simpl. left. }
    destruct Hex as (i & Hi0 & Hisel).
    assert (Hin : ranked !!! i ∈ filter (fun ind => rank ind = 1%Z)
                    (selectNextGeneration size ranked (front0 :: fs'))).
    { apply list_elem_of_filter. split; [by apply Hrank0 |].
      rewrite E2. apply list_elem_of_fmap. by exists i. }
    intros Hnil. rewrite Hnil in Hin. by apply elem_of_nil in Hin.
  - intros ind a Hind [Ha1 Ha]%list_elem_of_filter.
    destruct (selectNextGeneration_spec size ranked (front0 :: fs')) as [_ Hsel];
      [by rewrite R5 | rewrite R5; lia |].
    destruct (Hsel ind Hind) as (frontj & j & Hfj & Hj & ->).
    destruct (Hsel a Ha) as (fronti & i & Hfi & Hi & ->).
    apply list_elem_of_lookup_1 in Hfi as [m Hm].
    rewrite (R3 m fronti i Hm Hi) in Ha1. assert (m = 0%nat) as -> by lia.
    simpl in Hm. injection Hm as <-.
    rewrite Hdom. apply firstFront_not_dominated; [done | by rewrite <- Hfirst |].
    apply Hbound, elem_of_concat. by exists frontj.
Qed.

Lemma generationLoop_last (cfg : Config) (gens : nat) (pop : list Individual) :
  ValidConfig cfg -> Good cfg (fun _ => True) pop ->
  always (fun pop' => exists pop0,
            Good cfg (fun _ => True) pop0 /\ Generation cfg (fun _ => True) pop0 pop')
    (generationLoop (S gens) cfg pop).
Proof.
  intros Hcfg. revert pop. induction gens as [| gens IH]; intros pop Hpop.
  - simpl. eapply always_bind;
      [exact (generation_Generation cfg Hcfg _ (evaluateObjectives_any cfg) pop Hpop) |].
    intros pop' Hgen. apply always_Ret. by exists pop.
  - change (generationLoop (S (S gens)) cfg pop)
      with (bind (generation cfg pop)
              (fun population => generationLoop (S gens) cfg population)).
    eapply always_bind;
      [exact (generation_Generation cfg Hcfg _ (evaluateObjectives_any cfg) pop Hpop) |].
    intros pop' Hgen. apply IH. exact (Generation_Good cfg _ pop pop' Hpop Hgen).
Qed.

(** X12. The Pareto front that is reported.  Under a valid configuration
    the population after any generation holds at least one individual of
    rank 1, and no individual of that population dominates an individual
    of rank 1; so the reported front is never empty and its solutions do
    not dominate one another. *)
Theorem pareto_front_nonempty_and_nondominated
    (G : Generator) (w : World G) (cfg : Config) :
  UnitRange G -> ValidConfig cfg ->
  (forall gens, exists pop w',
     run G (evolve cfg (S gens)) w = (Ok pop, w')
     /\ filter (fun ind => rank ind = 1%Z) pop <> []
     /\ forall ind a, ind ∈ pop -> a ∈ pop -> rank a = 1%Z -> dominates ind a = false)
  /\ (exists solutions w',
        run G (optimizeSpindleArrangement cfg) w = (Ok (ParetoFront solutions), w')
        /\ solutions <> []
        /\ forall a b, a ∈ solutions -> b ∈ solutions -> dominates a b = false).
Proof.
  intros HG Hcfg.
  assert (Hev : forall gens,
    always (fun pop => filter (fun ind => rank ind = 1%Z) pop <> []
              /\ forall ind a, ind ∈ pop ->
                   a ∈ filter (fun ind => rank ind = 1%Z) pop -> dominates ind a = false)
      (evolve cfg (S gens))).
  { intros gens. unfold evolve. rewrite validateInputs_valid by done.
    change (bind (Ret tt) ?f) with (f tt). cbv beta.
    eapply always_bind;
      [exact (initializePopulation_Good cfg _ (evaluateObjectives_any cfg)) |].
    intros pop Hpop. eapply always_mono; [| by apply generationLoop_last].
    intros pop' (pop0 & Hpop0 & Hgen). by apply (Generation_pareto cfg pop0 pop'). }
  split.
  - intros gens. destruct (run_always G _ _ w HG (Hev gens)) as (pop & w' & Hrun & Hne & Hnd).
    exists pop, w'. split_and!; try done.
    intros ind a Hind Ha Hr. apply Hnd; [done |]. by apply list_elem_of_filter.
  - assert (Hg : Z.to_nat (generations cfg) = S (Z.to_nat (generations cfg) - 1)).
    { destruct Hcfg as (_ & _ & _ & ?). lia. }
    pose proof (Hev (Z.to_nat (generations cfg) - 1)%nat) as Hlast. rewrite <- Hg in Hlast.
    destruct (run_always G _ _ w HG (optimizeSpindleArrangement_returns cfg _ Hlast))
      as (outcome & w' & Hrun & pop & [Hne Hnd] & ->).
    eexists _, w'. split_and!; try done.
    intros a b [_ Ha]%list_elem_of_filter Hb. by apply Hnd.
Qed.


(** ** Shaft fatigue *)

Lemma clamp_unit_mono (x y : Q) :
  x <= y -> std_max 0.0 (std_min 1.0 x) <= std_max 0.0 (std_min 1.0 y).
Proof. intros H. unfold std_max, std_min, Qltb. repeat destruct Qlt_le_dec; lra. Qed.

(** X13. [calculateSpindleFatigueLife] is a fraction: it lies between 0
    and 1 whatever the load profile and whatever [std::log10] and
    [std::pow] return, it is 1 for an empty profile, and it does not
    depend on the spindle parameters.  As long as [std::pow] with base 10
    is positive, one more load entry never lengthens the life. *)
Theorem calculateSpindleFatigueLife_is_a_fraction
    (p : SpindleParameters) (loadProfile : list Q) :
  0 <= calculateSpindleFatigueLife p loadProfile <= 1
  /\ calculateSpindleFatigueLife p [] == 1
  /\ (forall q, calculateSpindleFatigueLife q loadProfile
                = calculateSpindleFatigueLife p loadProfile)
  /\ ((forall y, 0 < std_pow 10 y) ->
      forall load,
        calculateSpindleFatigueLife p (loadProfile ++ [load])
        <= calculateSpindleFatigueLife p loadProfile).
Proof.
  split; [| split; [| split]].
  - unfold calculateSpindleFatigueLife. cbv zeta.
    match goal with |- _ <= std_max ?a (std_min ?b ?x) <= _ =>
      pose proof (clamp_bounds a b x) end. lra.
  - unfold calculateSpindleFatigueLife. cbv zeta. simpl fold_left.
    unfold std_max, std_min, Qltb. repeat destruct Qlt_le_dec; lra.
  - reflexivity.
  - intros Hpow load0. unfold calculateSpindleFatigueLife. cbv zeta.
    rewrite fold_left_app. simpl fold_left. apply clamp_unit_mono.
    set (D := fold_left _ loadProfile 0.0). unfold fatigueStep. cbv zeta.
    match goal with |- context [1.0 / std_pow 10 ?y] =>
      pose proof (Hpow y) as Hy; set (N := std_pow 10 y) in *; clearbody N end.
    assert (0 < 1.0 / N) by (apply Qlt_shift_div_l; lra).
    lra.
Qed.

(** ** The maintenance predictor *)














(** ** Load-dependent estimates and verdicts *)

(** X16. The estimates that take the load extend the ones that do not:
    at load 0 they agree; the temperature rise grows by 2 degrees per
    1000 N whatever the parameters, and the vibration is the no-load
    vibration scaled by [1 + load / 2000], so inside the parameter space
    neither estimate decreases when the load grows. *)
Theorem load_estimates_extend_the_static_ones (p : SpindleParameters) (load1 load2 : Q) :
  estimateTemperatureRise_load p 0 == estimateTemperatureRise p
  /\ estimateVibration_load p 0 == estimateVibration p
  /\ estimateTemperatureRise_load p load1
     == estimateTemperatureRise p + 2 * (load1 / 1000)
  /\ estimateVibration_load p load1 == estimateVibration p * (1 + load1 / 2000)
  /\ (load1 <= load2 ->
      estimateTemperatureRise_load p load1 <= estimateTemperatureRise_load p load2)
  /\ (ParameterSpace p -> load1 <= load2 ->
      estimateVibration_load p load1 <= estimateVibration_load p load2).
Proof.
  assert (Ht : forall l, estimateTemperatureRise_load p l
                         == estimateTemperatureRise p + 2 * (l / 1000)).
  { intros l. unfold estimateTemperatureRise_load, estimateTemperatureRise. cbv zeta.
    destruct (String.eqb (coolingType p) "Liquid"); field. }
  assert (Hv : forall l, estimateVibration_load p l
                         == estimateVibration p * (1 + l / 2000)).
  { intros l. unfold estimateVibration_load, estimateVibration. cbv zeta.
    destruct (String.eqb (bearingType p) "Hybrid Ceramic"),
      (Qltb 0.002 (alignmentTolerance p)), (String.eqb (toolInterface p) "HSK"); field. }
  split_and!.
  - rewrite Ht. field.
  - rewrite Hv. field.
  - apply Ht.
  - apply Hv.
  - intros Hle. rewrite !Ht.
    assert (load1 / 1000 <= load2 / 1000).
    { apply Qle_shift_div_l; [lra |]. field_simplify. lra. }
    lra.
  - intros Hp Hle. rewrite !Hv.
    pose proof (estimateVibration_bounds p Hp) as Hb.
    assert (load1 / 2000 <= load2 / 2000).
    { apply Qle_shift_div_l; [lra |]. field_simplify. lra. }
    nra.
Qed.

(** X17. The verdicts inside the parameter space.  [evaluateSpindleType]
    answers that the type may not be optimal exactly for a motorized
    spindle at 15000 RPM or less and for a belt-driven one above 8000
    RPM; [evaluateBearingPerformance] calls for a review exactly for
    hybrid ceramic bearings at 10000 RPM or less. *)
Theorem verdicts_in_parameter_space (p : SpindleParameters) :
  ParameterSpace p ->
  (evaluateSpindleType p = "Spindle type may not be optimal for specified parameters"
   <-> (spindleType p = "Motorized" /\ (maxSpeed p <= 15000)%Z)
       \/ (spindleType p = "Belt-Driven" /\ (8000 < maxSpeed p)%Z))
  /\ (evaluateBearingPerformance p = "Bearing type may need review for optimal performance"
      <-> bearingType p = "Hybrid Ceramic" /\ (maxSpeed p <= 10000)%Z).
Proof.
  intros [_ _ _ _ _ Hs Hb _ _ _].
  unfold spindleTypes, bearingTypes in *.
  repeat rewrite elem_of_cons in Hs. repeat rewrite elem_of_cons in Hb.
  assert (Hnil : forall s : string, s ∈ @nil string -> False)
    by (intros s Hin; by apply elem_of_nil in Hin).
  split.
  - unfold evaluateSpindleType.
    destruct Hs as [Hs | [Hs | [Hs | Hs]]]; [| | | by apply Hnil in Hs];
      rewrite Hs; simpl;
      destruct (Z.leb_spec (maxSpeed p) 8000), (Z.ltb_spec 15000 (maxSpeed p)); simpl;
      (split;
       [ intros Hv;
         first [discriminate Hv | left; split; [reflexivity | lia]
               | right; split; [reflexivity | lia]]
       | intros Hv; try reflexivity; exfalso;
         decompose [and or] Hv; first [congruence | lia] ]).
  - unfold evaluateBearingPerformance.
    destruct Hb as [Hb | [Hb | Hb]]; [| | by apply Hnil in Hb];
      rewrite Hb; simpl;
      destruct (Z.ltb_spec 10000 (maxSpeed p)); simpl;
      (split;
       [ intros Hv; first [discriminate Hv | split; [reflexivity | lia]]
       | intros Hv; try reflexivity; exfalso;
         decompose [and or] Hv; first [congruence | lia] ]).
Qed.


(** ** Evaluations fail only below one time step *)

Lemma worst_case_not_in_range : ~ ObjectivesInRange worstCaseObjectives.
Proof.
  intros (v & l & t & Ho & _ & Hl & _). unfold worstCaseObjectives in Ho.
  injection Ho as _ <- _. pose proof worst_case_tiny as Htiny.
  set (T := -1e-10) in *. clearbody T. lra.
Qed.

Lemma evaluateObjectives_succeeds (ind : Individual) (d lf : Q) :
  0.1 <= d <= 1000 -> ParameterSpace (params ind) ->
  always (fun ind' => ObjectivesInRange (objectives ind')) (evaluateObjectives ind d lf).
Proof.
  intros Hd Hp. unfold evaluateObjectives, always. simpl.
  eapply post_try_catch with (E := fun _ => False); [| intros e []].
  unfold evaluateObjectives_try. eapply post_bind.
  - apply always_post, generateDynamicLoadProfile_profile.
  - intros [| x loadProfile] [Hlen _]; cbv beta.
    + exfalso. simpl in Hlen. rewrite steps_in_range in Hlen by lra.
      assert (1 <= truncate (d / 0.1))%Z; [| lia].
      apply truncate_ge_1. apply Qle_shift_div_l; lra.
    + simpl. eexists _, _, _. split; [reflexivity |].
      pose proof (estimateVibration_bounds _ Hp).
      pose proof (estimateTemperatureRise_bounds _ Hp).
      pose proof (calculateBearingL10Life_floor (params ind) (x :: loadProfile)).
      pose proof (calculateWearInducedVibration_cap (params ind)
                    (calculateWheelWear (params ind) (x :: loadProfile) d)).
      split_and!; lra.
Qed.

(** X18. Evaluations fail only below one time step.  With a duration
    between 0.1 s and 1000 s, the range [main] lets through, the load
    profile is never empty, so under a valid configuration no evaluation
    falls back to the worst-case vector: every individual of every
    population, and every solution reported, carries objectives within
    the ranges of the formulas. *)
Theorem evaluations_succeed_from_one_step_on
    (G : Generator) (w : World G) (cfg : Config) :
  UnitRange G -> ValidConfig cfg -> 0.1 <= duration cfg <= 1000 ->
  (forall gens, exists pop w',
     run G (evolve cfg gens) w = (Ok pop, w')
     /\ forall ind, ind ∈ pop ->
          ObjectivesInRange (objectives ind) /\ objectives ind <> worstCaseObjectives)
  /\ (exists solutions w',
        run G (optimizeSpindleArrangement cfg) w = (Ok (ParetoFront solutions), w')
        /\ forall ind, ind ∈ solutions ->
             ObjectivesInRange (objectives ind)
             /\ objectives ind <> worstCaseObjectives).
Proof.
  intros HG Hcfg Hd.
  assert (HPhi : forall ind, ParameterSpace (params ind) ->
     always (fun ind' => ObjectivesInRange (objectives ind'))
       (evaluateObjectives ind (duration cfg) (loadFactor cfg))).
  { intros ind Hp. by apply evaluateObjectives_succeeds. }
  assert (Hsound : forall ind, Sound ObjectivesInRange ind ->
     ObjectivesInRange (objectives ind) /\ objectives ind <> worstCaseObjectives).
  { intros ind (_ & _ & Hr). split; [done |]. intros Heq. rewrite Heq in Hr.
    by apply worst_case_not_in_range. }
  split.
  - intros gens.
    destruct (run_spec G _ _ (evolve cfg gens) w HG
                (evolve_Sound cfg Hcfg ObjectivesInRange HPhi gens))
      as (pop & w' & Hrun & [_ Hall] & _).
    exists pop, w'. split; [done |]. rewrite Forall_forall in Hall.
    intros ind Hin. by apply Hsound, Hall.
  - destruct (run_spec G _ _ (optimizeSpindleArrangement cfg) w HG
                (optimizeSpindleArrangement_Sound cfg ObjectivesInRange Hcfg HPhi))
      as (outcome & w' & Hrun & (population & [_ Hall] & ->) & _).
    eexists _, w'. split; [done |]. rewrite Forall_forall in Hall.
    intros ind [_ Hin]%list_elem_of_filter. by apply Hsound, Hall.
Qed.


(** ** The crowding distance only grows *)

Lemma Grown_refl (pop : list Individual) : Grown pop pop.
Proof. split; [apply Crowded_refl | intros x; apply xgtb_irrefl]. Qed.

Lemma Grown_trans (p1 p2 p3 : list Individual) :
  Grown p1 p2 -> Grown p2 p3 -> Grown p1 p3.
Proof.
  intros [A1 A2] [B1 B2]. split; [by eapply Crowded_trans |].
  intros x. by eapply xgtb_incomp.
Qed.

Lemma Grown_alter (f : Individual -> Individual) (i : nat) (pop : list Individual) :
  (forall ind, sameButCrowding (f ind) ind
               /\ (crowdingDistance ind = Infinity -> crowdingDistance (f ind) = Infinity)) ->
  ((i < length pop)%nat ->
   xgtb (crowdingDistance (pop !!! i)) (crowdingDistance (f (pop !!! i))) = false) ->
  Grown pop (alter f i pop).
Proof.
  intros Hf Hle. split; [by apply Crowded_alter |].
  intros x. rewrite list_lookup_total_alter. case_decide as Hx; [| apply xgtb_irrefl].
  destruct Hx as [-> Hx]. by apply Hle.
Qed.

Lemma Grown_infinity (i : nat) (pop : list Individual) :
  Grown pop (alter (setCrowdingDistance Infinity) i pop).
Proof.
  apply Grown_alter; [by intros ind |]. intros _. simpl.
  by destruct (crowdingDistance (pop !!! i)).
Qed.

Lemma Grown_fold {B : Type} (f : list Individual -> B -> list Individual)
    (l : list B) (pop0 p : list Individual) :
  Grown pop0 p ->
  (forall p' x, x ∈ l -> Grown pop0 p' -> Grown p' (f p' x)) ->
  Grown pop0 (fold_left f l p).
Proof.
  revert p. induction l as [| x l IH]; intros p Hp Hf; simpl; [done |].
  apply IH.
  - eapply Grown_trans; [exact Hp |]. apply Hf; [left | done].
  - intros p' y Hy. apply Hf. by right.
Qed.

Lemma xadd_grows (d : xdouble) (q : Q) : 0 <= q -> xgtb d (xadd d q) = false.
Proof. intros Hq. destruct d as [x |]; simpl; [| done]. apply Qltb_ge. lra. Qed.

Lemma tiny_positive : 0 < 1e-10.
Proof. reflexivity. Qed.

Lemma crowdObjective_Grown (acc : list Individual * list nat) (objIdx : nat) :
  (forall x, x ∈ acc.2 -> (x < length acc.1)%nat) ->
  Grown acc.1 (crowdObjective acc objIdx).1.
Proof.
  intros Hvalid. unfold crowdObjective.
  set (sorted := std_sort (byObjective acc.1 objIdx) acc.2).
  pose proof (sort_perm _ Hsort (byObjective acc.1 objIdx) acc.2) as Hperm.
  fold sorted in Hperm.
  assert (Hin : forall x, x ∈ sorted -> (x < length acc.1)%nat).
  { intros x Hx. apply Hvalid. by rewrite <- Hperm. }
  pose proof (sort_sorted _ Hsort (byObjective acc.1 objIdx) acc.2
                (byObjective_StrictWeakOn _ _ _ Hvalid)) as Hsorted.
  fold sorted in Hsorted.
  assert (Hord : forall i j, (i <= j)%nat -> (j < length sorted)%nat ->
     objective acc.1 (sorted !!! i) objIdx <= objective acc.1 (sorted !!! j) objIdx).
  { intros i j Hij Hj. destruct (decide (i = j)) as [-> | Hne]; [apply Qle_refl |].
    apply byObjective_valid.
    - apply Hin, list_elem_of_lookup_total_2. lia.
    - apply Hin, list_elem_of_lookup_total_2. lia.
    - apply (StronglySorted_lookup _ _ Hsorted i j); lia. }
  set (first := sorted !!! 0%nat).
  set (last := sorted !!! (length sorted - 1)%nat).
  set (pop1 := alter (setCrowdingDistance Infinity) last
                 (alter (setCrowdingDistance Infinity) first acc.1)).
  assert (H1 : Grown acc.1 pop1).
  { eapply Grown_trans; apply Grown_infinity. }
  cbv zeta. fold sorted. fold first. fold last. fold pop1.
  set (objRange := objective pop1 last objIdx - objective pop1 first objIdx).
  destruct (Qltb (Qabs objRange) 1e-10) eqn:Hsmall; cbn [fst]; [exact H1 |].
  apply Qltb_ge in Hsmall.
  assert (Hrange : 0 < objRange).
  { assert (Hnn : 0 <= objRange).
    { unfold objRange. rewrite !(objective_Crowded acc.1 pop1) by apply H1.
      destruct (decide (0 < length sorted)%nat) as [Hpos | Hzero].
      - pose proof (Hord 0%nat (length sorted - 1)%nat ltac:(lia) ltac:(lia)).
        fold first last in H. lra.
      - unfold first, last. replace (length sorted - 1)%nat with 0%nat by lia. lra. }
    rewrite Qabs_pos in Hsmall by done. pose proof tiny_positive. lra. }
  apply Grown_fold; [exact H1 |].
  intros p i Hi Hp. apply elem_of_seq in Hi.
  unfold accumulateStep. case_decide as Hguard; [| apply Grown_refl].
  apply Grown_alter.
  - intros ind. split; [done |]. simpl. by intros ->.
  - intros _. simpl. apply xadd_grows.
    rewrite !(objective_Crowded acc.1 p) by apply Hp.
    pose proof (Hord (i - 1)%nat (i + 1)%nat ltac:(lia) ltac:(lia)) as Hle.
    apply Qle_shift_div_l; [done |]. lra.
Qed.

Lemma crowdFront_Grown (pop : list Individual) (front : list nat) :
  (forall x, x ∈ front -> (x < length pop)%nat) -> Grown pop (crowdFront pop front).
Proof.
  intros Hvalid. unfold crowdFront. case_decide as Hsmall.
  - apply Grown_fold; [apply Grown_refl |]. intros p x _ _. apply Grown_infinity.
  - generalize (seq 0 (length (objectives (pop !!! (front !!! 0%nat))))).
    intros objs.
    assert (H : forall acc : list Individual * list nat,
      Grown pop acc.1 -> (forall x, x ∈ acc.2 -> (x < length pop)%nat) ->
      Grown pop (fold_left crowdObjective objs acc).1).
    { induction objs as [| k objs IH]; intros acc Hacc Hv; simpl; [done |].
      assert (Hv' : forall x, x ∈ acc.2 -> (x < length acc.1)%nat).
      { intros x Hx. rewrite (crowded_length _ _ (grown_crowded _ _ Hacc)). by apply Hv. }
      apply IH.
      - eapply Grown_trans; [exact Hacc |]. by apply crowdObjective_Grown.
      - intros x Hx. apply Hv.
        destruct (crowdObjective_Crowded acc k) as [E _]. rewrite E in Hx.
        by rewrite (sort_perm _ Hsort) in Hx. }
    apply (H (pop, front)); [apply Grown_refl | done].
Qed.

Lemma crowdingDistances_Grown (fs : list (list nat)) (pop : list Individual) :
  (forall front x, front ∈ fs -> x ∈ front -> (x < length pop)%nat) ->
  Grown pop (crowdingDistances pop fs).
Proof.
  intros Hvalid. unfold crowdingDistances. apply Grown_fold; [apply Grown_refl |].
  intros p front Hfront Hp. apply crowdFront_Grown.
  intros x Hx. rewrite (crowded_length _ _ (grown_crowded _ _ Hp)). by eapply Hvalid.
Qed.

(** X19. Ranking never lowers a crowding distance.  The parameters and
    the objectives of every individual are left as they are, a crowding
    distance that was infinite stays infinite, and a finite one is only
    ever added to: what an individual brings along from the previous
    ranking is a floor for what it has afterwards. *)
Theorem ranking_never_lowers_crowding_distance (pop : list Individual) :
  ThreeObjectives pop ->
  exists pop' fs,
    rankPopulation pop = Some (pop', fs)
    /\ forall i,
         params (pop' !!! i) = params (pop !!! i)
         /\ objectives (pop' !!! i) = objectives (pop !!! i)
         /\ xgtb (crowdingDistance (pop !!! i)) (crowdingDistance (pop' !!! i)) = false
         /\ (crowdingDistance (pop !!! i) = Infinity ->
             crowdingDistance (pop' !!! i) = Infinity).
Proof.
  intros Hthree. destruct (peelLoop_Fronts pop Hthree) as (st & Hrun & Hf).
  destruct (crowdingDistances_Grown (fronts st) (population st)) as [Hc Hle].
  { intros front x Hfront Hx. rewrite (fronts_length _ _ Hf). by eapply Fronts_valid. }
  exists (crowdingDistances (population st) (fronts st)), (fronts st).
  split; [by unfold rankPopulation; rewrite Hrun |].
  intros i. destruct (crowded_same _ _ Hc i) as (Hp & Ho & _).
  destruct (fronts_same _ _ Hf i) as (Hp' & Ho' & Hc').
  split_and!.
  - congruence.
  - congruence.
  - rewrite <- Hc'. apply Hle.
  - intros Hinf. apply (crowded_infinity _ _ Hc). congruence.
Qed.

End Simulation.

(** ** Instances for the examples *)

Lemma lcg_unit_range : UnitRange lcg.
Proof.
  intros s. simpl. unfold Qle, Qlt. simpl.
  pose proof (Z.mod_pos_bound (s * 48271 + 11) 2147483647). lia.
Qed.

Local Open Scope Q_scope.

(** ** Insertion sort meets the contract of [std::sort] *)

Lemma insert_sorted_perm (comp : nat -> nat -> bool) (x : nat) (l : list nat) :
  insert_sorted comp x l ≡ₚ x :: l.
Proof.
  induction l as [| y l IH]; simpl; [done |].
  destruct (comp x y); [done |]. rewrite IH. apply Permutation_swap.
Qed.

Lemma insertion_sort_perm (comp : nat -> nat -> bool) (l : list nat) :
  insertion_sort comp l ≡ₚ l.
Proof.
  induction l as [| x l IH]; simpl; [done |].
  unfold insertion_sort in *. simpl. by rewrite insert_sorted_perm, IH.
Qed.

Lemma insert_sorted_sorted (comp : nat -> nat -> bool) (u : list nat) (x : nat)
    (l : list nat) :
  StrictWeakOn comp u -> x ∈ u -> (forall y, y ∈ l -> y ∈ u) ->
  StronglySorted (fun a b => comp b a = false) l ->
  StronglySorted (fun a b => comp b a = false) (insert_sorted comp x l).
Proof.
  intros [Hirr Htr _] Hx Hl Hs.
  induction Hs as [| y l Hs IH Hall]; simpl.
  - repeat constructor.
  - assert (Hy : y ∈ u) by (apply Hl; left).
    assert (Hl' : forall z, z ∈ l -> z ∈ u) by (intros z Hz; apply Hl; by right).
    rewrite List.Forall_forall in Hall.
    destruct (comp x y) eqn:Hxy.
    + constructor; [by constructor; [| apply List.Forall_forall] |].
      constructor.
      * destruct (comp y x) eqn:Hyx; [| done].
        pose proof (Hirr x Hx) as Hxx.
        by rewrite (Htr x y x Hx Hy Hx Hxy Hyx) in Hxx.
      * apply List.Forall_forall. intros z Hz.
        destruct (comp z x) eqn:Hzx; [| done].
        assert (Hzu : z ∈ u) by (apply Hl', list_elem_of_In, Hz).
        pose proof (Hall z Hz) as Hzy.
        by rewrite (Htr z x y Hzu Hx Hy Hzx Hxy) in Hzy.
    + constructor; [by apply IH |].
      apply List.Forall_forall. intros z Hz.
      apply list_elem_of_In in Hz. rewrite insert_sorted_perm in Hz.
      apply elem_of_cons in Hz as [-> | Hz]; [done |].
      apply Hall. by apply list_elem_of_In.
Qed.

Lemma insertion_sort_laws : SortLaws insertion_sort.
Proof.
  constructor; [apply insertion_sort_perm |].
  intros comp l Hswo.
  enough (H : forall k, (forall y, y ∈ k -> y ∈ l) ->
            StronglySorted (fun a b => comp b a = false) (insertion_sort comp k))
    by by apply H.
  induction k as [| x k IH]; intros Hk; [constructor |].
  change (insertion_sort comp (x :: k))
    with (insert_sorted comp x (insertion_sort comp k)).
  apply (insert_sorted_sorted comp l); [done | apply Hk; left | |].
  - intros y Hy. rewrite insertion_sort_perm in Hy. apply Hk. by right.
  - apply IH. intros y Hy. apply Hk. by right.
Qed.

(** ** The examples *)

Lemma sampleParameters_in_space : ParameterSpace sampleParameters.
Proof.
  constructor; simpl; try lra; try lia;
    unfold spindleTypes, bearingTypes, coolingTypes, lubricationTypes, toolInterfaces;
    rewrite !elem_of_cons; auto.
Qed.

Lemma tenConfig_valid : ValidConfig tenConfig.
Proof. unfold ValidConfig. simpl. split_and!; first [lra | lia]. Qed.

Lemma shortConfig_valid : ValidConfig shortConfig.
Proof. unfold ValidConfig. simpl. split_and!; first [lra | lia]. Qed.


(** C2. The crowding distance is accumulated onto the value an individual
    already carries.  The three survivors of a first ranking are ranked
    again together with one dominated newcomer: objectives and fronts are
    those of the same four individuals ranked afresh, but the middle
    survivor ends with the distance 4, its old 2 plus the new 2, where
    the fresh ranking gives 2. *)
Theorem crowding_distance_carries_over :
  exists survivors ranked fs ranked0 fs0 a b,
    nonDominatedSorting insertion_sort threeSpread = Some survivors
    /\ rankPopulation insertion_sort (survivors ++ [dominatedOffspring]) = Some (ranked, fs)
    /\ rankPopulation insertion_sort (threeSpread ++ [dominatedOffspring])
       = Some (ranked0, fs0)
    /\ map objectives (survivors ++ [dominatedOffspring])
       = map objectives (threeSpread ++ [dominatedOffspring])
    /\ fs = fs0
    /\ crowdingDistance (ranked !!! 1%nat) = Finite a /\ a == 4
    /\ crowdingDistance (ranked0 !!! 1%nat) = Finite b /\ b == 2.
Proof.
  do 7 eexists. split_and!.
  - vm_compute. reflexivity.
  - vm_compute. reflexivity.
  - vm_compute. reflexivity.
  - vm_compute. reflexivity.
  - reflexivity.
  - vm_compute. reflexivity.
  - vm_compute. reflexivity.
  - vm_compute. reflexivity.
  - vm_compute. reflexivity.
Qed.

(** C8. The selection of lines 769-788 is no tournament.  It draws two
    individuals, compares them by rank and crowding distance as a
    tournament would, and then hands both to [crossover]: the comparison
    decides the order of the arguments and eliminates nobody.  With the
    draws 0, 0.95, 0.5, 0.55 over ten individuals of ranks 1 to 10, two
    tournaments consume all four draws and pick the individuals of rank
    1 and rank 6; the code consumes two draws and makes the individual
    of rank 10, which loses its comparison, the second parent.  At these
    draws the products [u * 10] are 0, 9.5, 5 and 5.5, whose truncation
    is the same whether or not the product is first rounded to a
    double. *)
Lemma selectParents_not_two_tournaments :
  let w := mkWorld (G := scripted) [0; 0.95; 0.5; 0.55] 0 in
  run scripted (selectParents tenConfig rankedTen) w
  = (Ok (setRank 1 newIndividual, setRank 10 newIndividual),
     mkWorld (G := scripted) [0.5; 0.55] 0)
  /\ run scripted (selectParents_spec tenConfig rankedTen) w
     = (Ok (setRank 1 newIndividual, setRank 6 newIndividual),
        mkWorld (G := scripted) [] 0)
  /\ run scripted (selectParents tenConfig rankedTen) w
     <> run scripted (selectParents_spec tenConfig rankedTen) w
  /\ precedes (setRank 1 newIndividual) (setRank 10 newIndividual) = true
  /\ precedes (setRank 10 newIndividual) (setRank 1 newIndividual) = false.
Proof.
  cbv zeta. split_and!.
  - vm_compute. reflexivity.
  - vm_compute. reflexivity.
  - vm_compute. intros H. discriminate H.
  - reflexivity.
  - reflexivity.
Qed.

(** ** The theorems at concrete inputs *)

Lemma nonDominatedSorting_ranks_witness :
  ThreeObjectives (threeSpread ++ [dominatedOffspring])
  /\ exists pop' fs,
       rankPopulation insertion_sort (threeSpread ++ [dominatedOffspring]) = Some (pop', fs)
       /\ concat fs ≡ₚ seq 0 (length (threeSpread ++ [dominatedOffspring]))
       /\ forall m front, fs !! m = Some front ->
            front <> [] /\ forall j, j ∈ front -> rank (pop' !!! j) = (Z.of_nat m + 1)%Z.
Proof.
  assert (H3 : ThreeObjectives (threeSpread ++ [dominatedOffspring])).
  { unfold ThreeObjectives. repeat constructor. }
  split; [exact H3 |].
  destruct (nonDominatedSorting_ranks insertion_sort _ H3)
    as (pop' & fs & Hrank & _ & _ & Hperm & Hfront & _).
  exists pop', fs. split; [exact Hrank |]. split; [exact Hperm | exact Hfront].
Defined.

Lemma evaluation_failure_gives_sentinel_witness :
  let ind := setParams sampleParameters newIndividual in
  let w := mkWorld (G := lcg) 1%Z 0 in
  let w1 := mkWorld (G := lcg) 1%Z 1 in
  UnitRange lcg /\ 0 < 0.05 < 0.1 /\ ValidConfig shortConfig
  /\ run lcg (evaluateObjectives_try flat_sin ind 0.05 1) w1
     = (Raised "Empty load profile generated", w1)
  /\ run lcg (evaluateObjectives flat_sin ind 0.05 1) w
     = (Ok (setObjectives worstCaseObjectives ind), w1)
  /\ exists solutions w',
       run lcg (optimizeSpindleArrangement flat_sin linear_pow insertion_sort shortConfig) w
       = (Ok (ParetoFront solutions), w').
Proof.
  cbv zeta.
  assert (Hd : 0 < 0.05 < 0.1) by (split; reflexivity).
  split; [exact lcg_unit_range |]. split; [exact Hd |]. split; [exact shortConfig_valid |].
  destruct (evaluation_failure_gives_sentinel flat_sin linear_pow insertion_sort
              insertion_sort_laws lcg (mkWorld (G := lcg) 1%Z 0)
              (setParams sampleParameters newIndividual) 0.05 1 lcg_unit_range)
    as (_ & Hraise & Hshort & Hrun).
  split; [exact (Hshort Hd) |].
  split; [exact (proj2 (Hraise _ _ (Hshort Hd))) |].
  exact (Hrun shortConfig shortConfig_valid).
Defined.

Lemma crossover_mutate_preserve_parameter_space_witness :
  let parent := setParams sampleParameters newIndividual in
  UnitRange lcg /\ ParameterSpace (params parent)
  /\ exists o w',
       run lcg (crossover parent parent) (mkWorld (G := lcg) 1%Z 0) = (Ok o, w')
       /\ ParameterSpace (params o).
Proof.
  cbv zeta. split; [exact lcg_unit_range |]. split; [exact sampleParameters_in_space |].
  exact (proj1 (crossover_mutate_preserve_parameter_space linear_pow lcg
                  (mkWorld (G := lcg) 1%Z 0)
                  (setParams sampleParameters newIndividual)
                  (setParams sampleParameters newIndividual)
                  lcg_unit_range sampleParameters_in_space sampleParameters_in_space)).
Defined.

Lemma population_size_invariant_witness :
  UnitRange lcg /\ ValidConfig tenConfig
  /\ forall gens, exists pop w',
       run lcg (evolve flat_sin linear_pow insertion_sort tenConfig gens)
         (mkWorld (G := lcg) 1%Z 0) = (Ok pop, w')
       /\ length pop = 10%nat.
Proof.
  split; [exact lcg_unit_range |]. split; [exact tenConfig_valid |].
  exact (proj1 (population_size_invariant flat_sin linear_pow insertion_sort
                  insertion_sort_laws lcg (mkWorld (G := lcg) 1%Z 0) tenConfig
                  lcg_unit_range tenConfig_valid)).
Defined.

Lemma invalid_inputs_rejected_witness :
  duration zeroDurationConfig <= 0
  /\ exists what,
       what ∈ ["Duration must be positive";
               "Load factor must be between 0.5 and 2.0";
               "Population size must be at least 10 and generations at least 1"]
       /\ forall (G : Generator) (w : World G),
            run G (optimizeSpindleArrangement flat_sin linear_pow insertion_sort
                     zeroDurationConfig) w
            = (Ok (Failed ("Error: Optimization failed - " ++ what ++ newline)%string), w).
Proof.
  assert (Hd : duration zeroDurationConfig <= 0) by (simpl; lra).
  split; [exact Hd |].
  destruct (invalid_inputs_rejected flat_sin linear_pow insertion_sort
              zeroDurationConfig (or_introl Hd)) as (what & Hin & _ & Hrun).
  exists what. split; [exact Hin | exact Hrun].
Defined.

Lemma boundary_crowding_distance_infinite_witness :
  SortLaws insertion_sort /\ ThreeObjectives (threeSpread ++ [dominatedOffspring])
  /\ exists pop' fs,
       rankPopulation insertion_sort (threeSpread ++ [dominatedOffspring]) = Some (pop', fs)
       /\ forall front, front ∈ fs -> (length front <= 2)%nat ->
            forall i, i ∈ front -> crowdingDistance (pop' !!! i) = Infinity.
Proof.
  assert (H3 : ThreeObjectives (threeSpread ++ [dominatedOffspring])).
  { unfold ThreeObjectives. repeat constructor. }
  split; [exact insertion_sort_laws |]. split; [exact H3 |].
  destruct (boundary_crowding_distance_infinite insertion_sort insertion_sort_laws _ H3)
    as (pop' & fs & Hrank & Hfronts).
  exists pop', fs. split; [exact Hrank |].
  intros front Hfront. exact (proj1 (Hfronts front Hfront)).
Defined.

Lemma short_duration_all_sentinel_witness :
  UnitRange lcg /\ ValidConfig shortConfig /\ duration shortConfig < 0.1
  /\ exists solutions w',
       run lcg (optimizeSpindleArrangement flat_sin linear_pow insertion_sort shortConfig)
         (mkWorld (G := lcg) 1%Z 0)
       = (Ok (ParetoFront solutions), w')
       /\ length solutions = 10%nat
       /\ forall ind, ind ∈ solutions -> objectives ind = worstCaseObjectives.
Proof.
  assert (Hd : duration shortConfig < 0.1) by (simpl; lra).
  split; [exact lcg_unit_range |]. split; [exact shortConfig_valid |]. split; [exact Hd |].
  exact (proj2 (proj2 (proj2
           (short_duration_all_sentinel flat_sin linear_pow insertion_sort
              insertion_sort_laws lcg (mkWorld (G := lcg) 1%Z 0) shortConfig
              lcg_unit_range shortConfig_valid Hd)))).
Defined.


(** ** Insertion sort on pairs meets the contract of [std::sort] *)







(** ** Further examples *)

Lemma threeSpread_offspring_ThreeObjectives :
  ThreeObjectives (threeSpread ++ [dominatedOffspring]).
Proof. unfold ThreeObjectives. repeat constructor. Qed.

Lemma tenConfig_one_step : 0.1 <= duration tenConfig <= 1000.
Proof. simpl. lra. Qed.

Lemma generateRandomParameters_in_parameter_space_witness :
  UnitRange lcg
  /\ exists p,
       fst (run lcg generateRandomParameters (mkWorld (G := lcg) 1%Z 0)) = Ok p
       /\ ParameterSpace p /\ validateParameters p = "Valid"%string.
Proof.
  split; [exact lcg_unit_range |].
  destruct (generateRandomParameters_in_parameter_space lcg (mkWorld (G := lcg) 1%Z 0)
              lcg_unit_range) as (p & Hrun & Hp & Hv).
  exists p. rewrite Hrun. split; [reflexivity |]. split; [exact Hp | exact Hv].
Defined.

Lemma dominates_strict_partial_order_witness :
  let a := setObjectives [1; 3; 0] newIndividual in
  let b := dominatedOffspring in
  let c := setObjectives [5; 5; 2] newIndividual in
  length (objectives a) = length (objectives b)
  /\ length (objectives b) = length (objectives c)
  /\ dominates a a = false
  /\ (dominates a b = true -> dominates b c = true -> dominates a c = true).
Proof.
  cbv zeta. split; [reflexivity |]. split; [reflexivity |].
  destruct (dominates_strict_partial_order (setObjectives [1; 3; 0] newIndividual)
              dominatedOffspring (setObjectives [5; 5; 2] newIndividual)
              eq_refl eq_refl) as (_ & Hirr & _ & Htrans & _).
  split; [exact Hirr | exact Htrans].
Defined.

Lemma ranks_follow_dominance_witness :
  ThreeObjectives (threeSpread ++ [dominatedOffspring])
  /\ exists pop' fs,
       rankPopulation insertion_sort (threeSpread ++ [dominatedOffspring]) = Some (pop', fs)
       /\ forall i j, (i < 4)%nat -> (j < 4)%nat ->
            dominates (pop' !!! i) (pop' !!! j) = true ->
            (rank (pop' !!! i) < rank (pop' !!! j))%Z.
Proof.
  split; [exact threeSpread_offspring_ThreeObjectives |].
  destruct (ranks_follow_dominance insertion_sort _ threeSpread_offspring_ThreeObjectives)
    as (pop' & fs & Hrank & Hdom & _).
  exists pop', fs. split; [exact Hrank | exact Hdom].
Defined.

Lemma generateDynamicLoadProfile_one_draw_per_step_witness :
  UnitRange lcg /\ -1000 <= 1 <= 1000
  /\ exists profile,
       fst (run lcg (generateDynamicLoadProfile flat_sin sampleParameters 1 1)
              (mkWorld (G := lcg) 1%Z 0)) = Ok profile
       /\ Forall (fun l => 0 <= l) profile
       /\ profile <> [].
Proof.
  assert (Hd : -1000 <= 1 <= 1000) by (split; discriminate).
  split; [exact lcg_unit_range |]. split; [exact Hd |].
  destruct (generateDynamicLoadProfile_one_draw_per_step flat_sin lcg
              (mkWorld (G := lcg) 1%Z 0) sampleParameters 1 1 lcg_unit_range Hd)
    as (profile & Hrun & Hall & _ & Hlong).
  exists profile. rewrite Hrun. split; [reflexivity |]. split; [exact Hall |].
  assert (Hone : 0.1 <= 1) by discriminate.
  exact (proj1 (Hlong Hone)).
Defined.

Lemma evaluated_objectives_beat_worst_case_witness :
  let ind := setParams sampleParameters newIndividual in
  UnitRange lcg /\ ParameterSpace (params ind)
  /\ exists ind' w',
       run lcg (evaluateObjectives flat_sin ind 1 1) (mkWorld (G := lcg) 1%Z 0)
       = (Ok ind', w')
       /\ oracleCalls w' = 1%nat /\ params ind' = params ind.
Proof.
  cbv zeta. split; [exact lcg_unit_range |]. split; [exact sampleParameters_in_space |].
  destruct (evaluated_objectives_beat_worst_case flat_sin lcg (mkWorld (G := lcg) 1%Z 0)
              (setParams sampleParameters newIndividual) 1 1
              lcg_unit_range sampleParameters_in_space)
    as (ind' & w' & Hrun & Hcalls & Hparams & _).
  exists ind', w'. split; [exact Hrun |]. split; [exact Hcalls | exact Hparams].
Defined.

Lemma crossover_recombines_parents_witness :
  let parent := setParams sampleParameters newIndividual in
  UnitRange lcg /\ ParameterSpace (params parent)
  /\ exists o,
       fst (run lcg (crossover parent parent) (mkWorld (G := lcg) 1%Z 0)) = Ok o
       /\ Recombined (params parent) (params parent) (params o)
       /\ SameParameters (params o) (params parent).
Proof.
  cbv zeta. split; [exact lcg_unit_range |]. split; [exact sampleParameters_in_space |].
  destruct (crossover_recombines_parents lcg (mkWorld (G := lcg) 1%Z 0)
              (setParams sampleParameters newIndividual)
              (setParams sampleParameters newIndividual)
              lcg_unit_range sampleParameters_in_space sampleParameters_in_space)
    as (o & Hrun & _ & _ & _ & Hrec & Hsame).
  exists o. rewrite Hrun. split; [reflexivity |]. split; [exact Hrec | exact (Hsame eq_refl)].
Defined.

Lemma mutate_changes_parameters_only_witness :
  let ind := setObjectives [1; 3; 0] (setParams sampleParameters newIndividual) in
  UnitRange lcg
  /\ exists o w',
       run lcg (mutate linear_pow ind) (mkWorld (G := lcg) 1%Z 0) = (Ok o, w')
       /\ objectives o = [1; 3; 0] /\ oracleCalls w' = 0%nat.
Proof.
  cbv zeta. split; [exact lcg_unit_range |].
  destruct (proj1 (mutate_changes_parameters_only linear_pow lcg (mkWorld (G := lcg) 1%Z 0)
                     (setObjectives [1; 3; 0] (setParams sampleParameters newIndividual))
                     lcg_unit_range))
    as (o & w' & Hrun & Hobj & _ & _ & Hcalls).
  exists o, w'. split; [exact Hrun |]. split; [exact Hobj | exact Hcalls].
Defined.

Lemma evaluation_budget_witness :
  SortLaws insertion_sort /\ UnitRange lcg /\ ValidConfig tenConfig
  /\ forall gens, exists pop w',
       run lcg (evolve flat_sin linear_pow insertion_sort tenConfig gens)
         (mkWorld (G := lcg) 1%Z 0) = (Ok pop, w')
       /\ oracleCalls w' = ((gens + 1) * 10)%nat.
Proof.
  split; [exact insertion_sort_laws |]. split; [exact lcg_unit_range |].
  split; [exact tenConfig_valid |].
  exact (proj1 (evaluation_budget flat_sin linear_pow insertion_sort insertion_sort_laws
                  lcg (mkWorld (G := lcg) 1%Z 0) tenConfig
                  lcg_unit_range tenConfig_valid)).
Defined.

Lemma run_stays_in_parameter_space_witness :
  SortLaws insertion_sort /\ UnitRange lcg /\ ValidConfig tenConfig
  /\ exists solutions w',
       run lcg (optimizeSpindleArrangement flat_sin linear_pow insertion_sort tenConfig)
         (mkWorld (G := lcg) 1%Z 0) = (Ok (ParetoFront solutions), w')
       /\ forall ind, ind ∈ solutions ->
            ParameterSpace (params ind)
            /\ validateParameters (params ind) = "Valid"%string
            /\ length (objectives ind) = 3%nat.
Proof.
  split; [exact insertion_sort_laws |]. split; [exact lcg_unit_range |].
  split; [exact tenConfig_valid |].
  exact (proj2 (run_stays_in_parameter_space flat_sin linear_pow insertion_sort
                  insertion_sort_laws lcg (mkWorld (G := lcg) 1%Z 0) tenConfig
                  lcg_unit_range tenConfig_valid)).
Defined.

Lemma selection_prefers_rank_then_crowding_witness :
  SortLaws insertion_sort
  /\ ThreeObjectives (threeSpread ++ [dominatedOffspring])
  /\ (2 <= length (threeSpread ++ [dominatedOffspring]))%nat
  /\ exists ranked fs sel,
       rankPopulation insertion_sort (threeSpread ++ [dominatedOffspring])
       = Some (ranked, fs)
       /\ selectNextGeneration insertion_sort 2 ranked fs
          = map (fun i => ranked !!! i) sel
       /\ NoDup sel /\ length sel = 2%nat.
Proof.
  assert (Hn : (2 <= length (threeSpread ++ [dominatedOffspring]))%nat)
    by (simpl; lia).
  split; [exact insertion_sort_laws |].
  split; [exact threeSpread_offspring_ThreeObjectives |]. split; [exact Hn |].
  destruct (selection_prefers_rank_then_crowding insertion_sort insertion_sort_laws
              (threeSpread ++ [dominatedOffspring]) 2
              threeSpread_offspring_ThreeObjectives Hn)
    as (ranked & fs & sel & Hrank & Hsel & Hnodup & Hlen & _).
  exists ranked, fs, sel. split; [exact Hrank |]. split; [exact Hsel |].
  split; [exact Hnodup | exact Hlen].
Defined.

Lemma pareto_front_nonempty_and_nondominated_witness :
  SortLaws insertion_sort /\ UnitRange lcg /\ ValidConfig tenConfig
  /\ exists solutions w',
       run lcg (optimizeSpindleArrangement flat_sin linear_pow insertion_sort tenConfig)
         (mkWorld (G := lcg) 1%Z 0) = (Ok (ParetoFront solutions), w')
       /\ solutions <> []
       /\ forall a b, a ∈ solutions -> b ∈ solutions -> dominates a b = false.
Proof.
  split; [exact insertion_sort_laws |]. split; [exact lcg_unit_range |].
  split; [exact tenConfig_valid |].
  exact (proj2 (pareto_front_nonempty_and_nondominated flat_sin linear_pow insertion_sort
                  insertion_sort_laws lcg (mkWorld (G := lcg) 1%Z 0) tenConfig
                  lcg_unit_range tenConfig_valid)).
Defined.



Lemma verdicts_in_parameter_space_witness :
  ParameterSpace sampleParameters
  /\ (evaluateBearingPerformance sampleParameters
      = "Bearing type may need review for optimal performance"%string
      <-> bearingType sampleParameters = "Hybrid Ceramic"%string
          /\ (maxSpeed sampleParameters <= 10000)%Z).
Proof.
  split; [exact sampleParameters_in_space |].
  exact (proj2 (verdicts_in_parameter_space sampleParameters sampleParameters_in_space)).
Defined.

Lemma evaluations_succeed_from_one_step_on_witness :
  SortLaws insertion_sort /\ UnitRange lcg /\ ValidConfig tenConfig
  /\ 0.1 <= duration tenConfig <= 1000
  /\ exists solutions w',
       run lcg (optimizeSpindleArrangement flat_sin linear_pow insertion_sort tenConfig)
         (mkWorld (G := lcg) 1%Z 0) = (Ok (ParetoFront solutions), w')
       /\ forall ind, ind ∈ solutions ->
            ObjectivesInRange (objectives ind)
            /\ objectives ind <> worstCaseObjectives.
Proof.
  split; [exact insertion_sort_laws |]. split; [exact lcg_unit_range |].
  split; [exact tenConfig_valid |]. split; [exact tenConfig_one_step |].
  exact (proj2 (evaluations_succeed_from_one_step_on flat_sin linear_pow insertion_sort
                  insertion_sort_laws lcg (mkWorld (G := lcg) 1%Z 0) tenConfig
                  lcg_unit_range tenConfig_valid tenConfig_one_step)).
Defined.

Lemma ranking_never_lowers_crowding_distance_witness :
  SortLaws insertion_sort /\ ThreeObjectives (threeSpread ++ [dominatedOffspring])
  /\ exists pop' fs,
       rankPopulation insertion_sort (threeSpread ++ [dominatedOffspring]) = Some (pop', fs)
       /\ forall i,
            xgtb (crowdingDistance ((threeSpread ++ [dominatedOffspring]) !!! i))
              (crowdingDistance (pop' !!! i)) = false.
Proof.
  split; [exact insertion_sort_laws |].
  split; [exact threeSpread_offspring_ThreeObjectives |].
  destruct (ranking_never_lowers_crowding_distance insertion_sort insertion_sort_laws
              _ threeSpread_offspring_ThreeObjectives) as (pop' & fs & Hrank & Hall).
  exists pop', fs. split; [exact Hrank |].
  intros i. exact (proj1 (proj2 (proj2 (Hall i)))).
Defined.
